(** * goat-music: the song generator and its MIDI serializer

    A shallow embedding of [song_generator.py] (the generation engine
    and its Standard MIDI File writer) and of the serializer of
    [app2.py], followed by the properties stated about them.

    Python integers are [Z]; Python [float]s are IEEE 754 binary64 values,
    modelled bit-exactly by [spec_float] with precision 53 and maximal
    exponent 1024; Python [str] values are [string]s whose characters are
    the code points 0..255 (every literal of the source lies in that
    range); byte buffers and MIDI messages are [list Z]; a raised
    exception is the [Raise] branch of [result]. *)

From Equations Require Import Equations.
From Stdlib Require Import ZArith Lia List String Ascii SpecFloat.
From stdpp Require Import base option list gmap strings sorting.

Local Open Scope Z_scope.

(** ** The Python runtime the program relies on *)

Module Py.

(** The exceptions the generator can raise. *)
Inductive exn : Set :=
| KeyError | ZeroDivisionError | OverflowError | ValueError
| IndexError | StructError.

Inductive result (A : Type) : Type :=
| Ok (a : A)
| Raise (e : exn).
Arguments Ok {A} a.
Arguments Raise {A} e.

Definition bind {A B} (m : result A) (k : A -> result B) : result B :=
  match m with
  | Ok a => k a
  | Raise e => Raise e
  end.

Definition is_ok {A} (m : result A) : bool :=
  match m with Ok _ => true | Raise _ => false end.

(** A [for] loop whose body may raise, threading the loop state. *)
Fixpoint for_each {A S} (body : S -> A -> result S) (xs : list A) (s : S)
  : result S :=
  match xs with
  | [] => Ok s
  | x :: xs' => bind (body s x) (for_each body xs')
  end.

(** [range(n)]: empty when [n <= 0]. *)
Definition range (n : Z) : list Z := seqZ 0 n.

(** *** [str] *)

Definition chr (n : nat) : ascii := ascii_of_nat n.
Definition ord (c : ascii) : nat := nat_of_ascii c.

(** [c.isspace()] on the code points below 256. *)
Definition isspace (c : ascii) : bool :=
  let n := ord c in
  ((9 <=? n) && (n <=? 13) || (28 <=? n) && (n <=? 32)
   || (n =? 133) || (n =? 160))%nat.

Fixpoint lstrip (s : string) : string :=
  match s with
  | String c s' => if isspace c then lstrip s' else s
  | EmptyString => EmptyString
  end.

Fixpoint rstrip (s : string) : string :=
  match s with
  | String c s' =>
      match rstrip s' with
      | EmptyString => if isspace c then EmptyString else String c EmptyString
      | r => String c r
      end
  | EmptyString => EmptyString
  end.

(** [s.strip()] *)
Definition strip (s : string) : string := rstrip (lstrip s).

(** [c.lower()] on the code points below 256: A-Z and the accented
    capitals U+00C0..U+00DE (U+00D7, the multiplication sign, apart). *)
Definition lower_char (c : ascii) : ascii :=
  let n := ord c in
  if ((65 <=? n) && (n <=? 90)
      || (192 <=? n) && (n <=? 222) && negb (n =? 215))%nat
  then chr (n + 32) else c.

Fixpoint lower (s : string) : string :=
  match s with
  | String c s' => String (lower_char c) (lower s')
  | EmptyString => EmptyString
  end.

Fixpoint drop_chars (n : nat) (s : string) : string :=
  match n, s with
  | S n', String _ s' => drop_chars n' s'
  | _, _ => s
  end.

(** [s.replace(old, new)] for a non-empty [old]: occurrences are found
    left to right and do not overlap. The recursion is on [fuel], an
    upper bound of the length of what is left of [s]. *)
Fixpoint replace_from (fuel : nat) (old new s : string) : string :=
  match fuel with
  | O => s
  | S fuel' =>
      match s with
      | EmptyString => EmptyString
      | String c s' =>
          if String.prefix old s
          then new ++ replace_from fuel' old new
                        (drop_chars (String.length old) s)
          else String c (replace_from fuel' old new s')
      end
  end%string.

Definition replace (old new s : string) : string :=
  replace_from (String.length s) old new s.

(** [s.split(sep)] for a one-character separator. *)
Fixpoint split (sep : ascii) (s : string) : list string :=
  match s with
  | EmptyString => [EmptyString]
  | String c s' =>
      if Ascii.eqb c sep then EmptyString :: split sep s'
      else match split sep s' with
           | w :: ws => String c w :: ws
           | [] => [String c EmptyString]
           end
  end.

(** *** [sorted(xs, key=...)] with integer keys

    Python's sort is stable; a stable sort has one possible result, the
    one of this insertion sort (an element goes after the elements of
    the sorted rest whose key is smaller or equal, which are the ones
    added before it). *)
Section Sorted.
Context {A : Type} (key : A -> Z).

Fixpoint insert_by (x : A) (l : list A) : list A :=
  match l with
  | [] => [x]
  | y :: l' =>
      if key x <=? key y then x :: l else y :: insert_by x l'
  end.

Definition sorted (l : list A) : list A :=
  foldr insert_by [] l.
End Sorted.

(** *** [float] (binary64) *)

Definition float := spec_float.
Definition prec : Z := 53.
Definition emax : Z := 1024.

(** [float(n)] for an integer [n]: the nearest binary64 value. *)
Definition float_of_int (n : Z) : float := binary_normalize prec emax n 0 false.

Definition fmul : float -> float -> float := SFmul prec emax.
Definition fadd : float -> float -> float := SFadd prec emax.
Definition fdiv : float -> float -> float := SFdiv prec emax.
Definition flt : float -> float -> bool := SFltb.

(** [int(x)] for a float [x]: truncation toward zero; [ValueError] on
    a NaN and [OverflowError] on an infinity. *)
Definition int_of_float (x : float) : result Z :=
  match x with
  | S754_zero _ => Ok 0
  | S754_nan => Raise ValueError
  | S754_infinity _ => Raise OverflowError
  | S754_finite s m e =>
      let mag := if 0 <=? e then Z.pos m * 2 ^ e else Z.pos m / 2 ^ (- e) in
      Ok (if s then - mag else mag)
  end.

(** [a / b] on integers (true division): [ZeroDivisionError] when [b]
    is zero, else the binary64 value nearest to the quotient. *)
Definition truediv (a b : Z) : result float :=
  if b =? 0 then Raise ZeroDivisionError
  else Ok (fdiv (float_of_int a) (float_of_int b)).

(** *** [bytes] and [struct] *)

(** [n.to_bytes(len, "big")]: [OverflowError] when [n] is negative or
    does not fit. *)
Fixpoint big_endian (len : nat) (n : Z) : list Z :=
  match len with
  | O => []
  | S len' => Z.land (Z.shiftr n (8 * Z.of_nat len')) 255 :: big_endian len' n
  end.

Definition to_bytes (n : Z) (len : nat) : result (list Z) :=
  if (0 <=? n) && (n <? 2 ^ (8 * Z.of_nat len)) then Ok (big_endian len n)
  else Raise OverflowError.

(** One field of [struct.pack(">...")]: "I" is 4 bytes, "H" is 2 bytes;
    [struct.error] when the value is out of the field's range. *)
Definition pack_field (len : nat) (n : Z) : result (list Z) :=
  if (0 <=? n) && (n <? 2 ^ (8 * Z.of_nat len)) then Ok (big_endian len n)
  else Raise StructError.

(** [data.extend(xs)] on a [bytearray]: every item must be in
    [range(0, 256)], else [ValueError]. *)
Definition is_byte (b : Z) : bool := (0 <=? b) && (b <? 256).

Definition extend (data xs : list Z) : result (list Z) :=
  if forallb is_byte xs then Ok (data ++ xs) else Raise ValueError.

End Py.

Import Py.

Notation "'let*' x ':=' m 'in' k" := (Py.bind m (fun x => k))
  (at level 10, x pattern, m at level 100, k at level 200).

(** ** [random.Random]

    The generators draw from private [random.Random(seed)] objects. The
    interface below is what they use of it: the constructor, the integer
    primitive [_randbelow(n)] (uniform in [range(n)], for [n > 0]) on
    which [randint] and [choice] are built, and [random()]. A generator
    object is a state, and a draw returns the value and the next state. *)

Class PyRandom : Type := {
  rng : Type;
  Random : Z -> rng;
  randbelow : Z -> rng -> Z * rng;
  random : rng -> float * rng;
  randbelow_range :
    forall n s, 0 < n -> 0 <= fst (randbelow n s) < n
}.

Section RandomMethods.
Context {R : PyRandom}.

(** [rng.randint(a, b)] is [randrange(a, b + 1)], that is
    [a + _randbelow(b - a + 1)]; every call of the program has
    constant bounds with [a <= b]. *)
Definition randint (a b : Z) (s : rng) : Z * rng :=
  let '(r, s') := randbelow (b - a + 1) s in (a + r, s').

(** [rng.choice(seq)] is [seq[_randbelow(len(seq))]], and [IndexError]
    on an empty sequence. *)
Definition choice {A} (seq : list A) (s : rng) : result (A * rng) :=
  match seq with
  | [] => Raise IndexError
  | _ =>
      let '(i, s') := randbelow (Z.of_nat (length seq)) s in
      match seq !! Z.to_nat i with
      | Some x => Ok (x, s')
      | None => Raise IndexError
      end
  end.
End RandomMethods.

(** ** The generator of CPython: MT19937

    [random.Random] is the Mersenne Twister of CPython's [_random]
    module. It is the instance of [PyRandom] at which the properties
    below are evaluated on concrete seeds. Words are 32-bit unsigned
    integers; the 624-word state array is a list, updated in place by
    index. *)

Module MT19937.

Definition N : nat := 624.
Definition M : nat := 397.

Definition u32 (x : Z) : Z := Z.land x 4294967295.

Record state : Type := { mt : list Z; mti : nat }.

Definition word (a : list Z) (i : nat) : Z := default 0 (a !! i).

Definition mix (x : Z) : Z := Z.lxor x (Z.shiftr x 30).

(** [init_genrand(s)] *)
Fixpoint init_from (n : nat) (i : Z) (prev : Z) : list Z :=
  match n with
  | O => []
  | S n' =>
      let x := u32 (1812433253 * mix prev + i) in
      x :: init_from n' (i + 1) x
  end.

Definition init_genrand (s : Z) : list Z :=
  u32 s :: init_from (N - 1) 1 (u32 s).

(** [init_by_array(key)]: the two mixing loops, with the wrap of the
    index [i] from [N] to 1 and of [j] to 0. *)
Definition wrap (a : list Z) (i : nat) : list Z * nat :=
  if (N <=? i)%nat then (<[0%nat := word a (N - 1)]> a, 1%nat) else (a, i).

Definition key_step (key : list Z) (st : list Z * nat * nat)
  : list Z * nat * nat :=
  let '(a, i, j) := st in
  let v := u32 (Z.lxor (word a i) (u32 (mix (word a (i - 1)) * 1664525))
                + word key j + Z.of_nat j) in
  let '(a', i') := wrap (<[i := v]> a) (S i) in
  (a', i', if (length key <=? S j)%nat then 0%nat else S j).

Definition final_step (st : list Z * nat) : list Z * nat :=
  let '(a, i) := st in
  let v := u32 (Z.lxor (word a i) (u32 (mix (word a (i - 1)) * 1566083941))
                - Z.of_nat i) in
  wrap (<[i := v]> a) (S i).

Definition init_by_array (key : list Z) : state :=
  let '(a, i, _) :=
    Nat.iter (Nat.max N (length key)) (key_step key)
             (init_genrand 19650218, 1%nat, 0%nat) in
  let '(a', _) := Nat.iter (N - 1) final_step (a, i) in
  {| mt := <[0%nat := 2147483648]> a'; mti := N |}.

(** The 32-bit digits of the absolute value of the seed, least
    significant first; one zero digit for 0. *)
Fixpoint digits32 (fuel : nat) (n : Z) : list Z :=
  match fuel with
  | O => []
  | S fuel' =>
      if n <? 4294967296 then [n]
      else u32 n :: digits32 fuel' (Z.shiftr n 32)
  end.

Definition seed (a : Z) : state :=
  let n := Z.abs a in
  init_by_array (digits32 (S (Z.to_nat (Z.log2 n))) n).

(** The regeneration of the state array, in place from word 0 to word
    [N - 1]. *)
Definition twist_step (a : list Z) (kk : nat) : list Z :=
  let y := Z.lor (Z.land (word a kk) 2147483648)
                 (Z.land (word a ((kk + 1) mod N)) 2147483647) in
  let v := Z.lxor (Z.lxor (word a ((kk + M) mod N)) (Z.shiftr y 1))
                  (if Z.odd y then 2567483615 else 0) in
  <[kk := v]> a.

Definition twist (a : list Z) : list Z := foldl twist_step a (seq 0 N).

Definition temper (y : Z) : Z :=
  let y := Z.lxor y (Z.shiftr y 11) in
  let y := Z.lxor y (Z.land (Z.shiftl y 7) 2636928640) in
  let y := Z.lxor y (Z.land (Z.shiftl y 15) 4022730752) in
  u32 (Z.lxor y (Z.shiftr y 18)).

Definition genrand_uint32 (s : state) : Z * state :=
  let '(a, i) := if (N <=? mti s)%nat then (twist (mt s), 0%nat)
                 else (mt s, mti s) in
  (temper (word a i), {| mt := a; mti := S i |}).

(** [getrandbits(k)], for [k > 0]: one word when [k <= 32], else the
    words are the 32-bit digits of the result, least significant
    first, the last one cut to the bits that are left. *)
Fixpoint getrandbits_words (words : nat) (k : Z) (s : state) : Z * state :=
  match words with
  | O => (0, s)
  | S words' =>
      let '(r, s1) := genrand_uint32 s in
      let r := if k <? 32 then Z.shiftr r (32 - k) else r in
      let '(hi, s2) := getrandbits_words words' (k - 32) s1 in
      (r + 4294967296 * hi, s2)
  end.

Definition getrandbits (k : Z) (s : state) : Z * state :=
  if k <=? 32
  then let '(r, s') := genrand_uint32 s in (Z.shiftr r (32 - k), s')
  else getrandbits_words (Z.to_nat ((k - 1) / 32 + 1)) k s.

(** [_randbelow_with_getrandbits(n)]: draw [n.bit_length()] bits until
    the draw is below [n]. A draw is rejected with probability below
    1/2; the loop is cut after [fuel] rejections (with result 0), which
    does not happen at the evaluated seeds. *)
Fixpoint reject (fuel : nat) (n k : Z) (s : state) : Z * state :=
  let '(r, s') := getrandbits k s in
  if r <? n then (r, s')
  else match fuel with
       | O => (0, s')
       | S fuel' => reject fuel' n k s'
       end.

Definition bit_length (n : Z) : Z :=
  match n with
  | Z0 => 0
  | Zpos p | Zneg p => Z.pos (Pos.size p)
  end.

Definition randbelow (n : Z) (s : state) : Z * state :=
  reject 4096 n (bit_length n) s.

(** [random()]: 53 random bits over 2^53. *)
Definition random (s : state) : float * state :=
  let '(a, s1) := genrand_uint32 s in
  let '(b, s2) := genrand_uint32 s1 in
  (binary_normalize prec emax
     (Z.shiftr a 5 * 67108864 + Z.shiftr b 6) (-53) false, s2).

End MT19937.

(** Termination measure of the encoder's loop: the number of binary
    digits of a positive value, which a shift by 7 bits decreases. *)
Definition binary_digits (v : Z) : nat :=
  match v with
  | Zpos p => Pos.to_nat (Pos.size p)
  | _ => 0%nat
  end.

Lemma binary_digits_log2 (p : positive) :
  Z.of_nat (binary_digits (Z.pos p)) = Z.log2 (Z.pos p) + 1.
Proof.
  simpl. rewrite positive_nat_Z.
  destruct p as [q|q|]; simpl; try reflexivity; rewrite Pos2Z.inj_succ; lia.
Qed.

Lemma binary_digits_shiftr (v : Z) :
  0 < v -> (binary_digits (Z.shiftr v 7) < binary_digits v)%nat.
Proof.
  intros Hv. destruct v as [|p|p]; try lia.
  pose proof (Z.shiftr_nonneg (Z.pos p) 7) as Hnn.
  destruct (Z.shiftr (Z.pos p) 7) as [|q|q] eqn:E.
  - simpl. lia.
  - apply Nat2Z.inj_lt. rewrite !binary_digits_log2, <- E.
    rewrite Z.log2_shiftr by lia.
    destruct (Z_lt_dec (Z.log2 (Z.pos p)) 7) as [Hlt|Hge]; [|lia].
    rewrite Z.shiftr_eq_0 in E by (assumption || lia). discriminate.
  - lia.
Qed.

(** ** [song_generator.py] *)

Module SongGenerator.

Definition PPQN : Z := 480.

Record SongParams : Type := {
  bpm : Z;
  bars : Z;
  time_sig_num : Z;
  time_sig_den : Z;
  key : string;
  mode : string;
  progression : string;
  energy : float;
  swing : float;
  seed : Z;
  chord_octave : Z;
  melody_octave : Z;
  bass_octave : Z
}.

(** The binary64 value of a decimal literal [n/d]: the nearest one. *)
Definition float_lit (n d : Z) : float :=
  fdiv (float_of_int n) (float_of_int d).

(** [SongParams()], the defaults of the dataclass. *)
Definition default_params : SongParams := {|
  bpm := 124;
  bars := 8;
  time_sig_num := 4;
  time_sig_den := 4;
  key := "C";
  mode := "major";
  progression := "I-V-vi-IV";
  energy := float_lit 75 100;
  swing := float_lit 1 10;
  seed := 42;
  chord_octave := 3;
  melody_octave := 5;
  bass_octave := 2
|}.

(** A timed event: absolute tick and raw message. *)
Definition event : Type := Z * list Z.

(** [l[i]]: a negative index counts from the end; [IndexError] out
    of range. *)
Definition getitem {A} (l : list A) (i : Z) : result A :=
  let len := Z.of_nat (length l) in
  let j := if i <? 0 then i + len else i in
  if (0 <=? j) && (j <? len)
  then match l !! Z.to_nat j with
       | Some x => Ok x
       | None => Raise IndexError
       end
  else Raise IndexError.

(** *** MIDI low level utilities *)

Equations? varlen_loop (value : Z) (out : list Z) : list Z
  by wf (binary_digits value) lt :=
  varlen_loop value out with Z_gt_dec value 0 := {
    | left _ => varlen_loop (Z.shiftr value 7)
                  (Z.lor (Z.land value 127) 128 :: out);
    | right _ => out }.
Proof. apply binary_digits_shiftr. lia. Qed.

Definition write_varlen (value : Z) : list Z :=
  let value := Z.max 0 value in
  varlen_loop (Z.shiftr value 7) [Z.land value 127].

Definition track_step (st : list Z * Z) (ev : event) : result (list Z * Z) :=
  let '(data, last) := st in
  let '(tick, msg) := ev in
  let delta := tick - last in
  let* data := extend data (write_varlen delta) in
  let* data := extend data msg in
  Ok (data, tick).

Definition build_track (events : list event) : result (list Z) :=
  let events := sorted fst events in
  let* (data, _) := for_each track_step events ([], 0) in
  let* data := extend data (write_varlen 0) in
  extend data [255; 47; 0].

(** *** Musical theory engine *)

Definition NOTE_TO_SEMI : gmap string Z :=
  list_to_map
    [("C", 0); ("C#", 1); ("Db", 1); ("D", 2); ("D#", 3); ("Eb", 3);
     ("E", 4); ("F", 5); ("F#", 6); ("Gb", 6); ("G", 7); ("G#", 8);
     ("Ab", 8); ("A", 9); ("A#", 10); ("Bb", 10); ("B", 11)]%string.

Definition midi_note (note_name : string) (octave : Z) : result Z :=
  match NOTE_TO_SEMI !! note_name with
  | Some semi => Ok (12 * (octave + 1) + semi)
  | None => Raise KeyError
  end.

Definition build_scale (root_note mode : string) (base_octave : Z)
  : result (list Z) :=
  let* root := midi_note root_note base_octave in
  let intervals :=
    if String.eqb (lower mode) "major" then [0; 2; 4; 5; 7; 9; 11]
    else [0; 2; 3; 5; 7; 8; 10] in
  Ok (map (fun i => root + i) intervals).

(** The two-character literal of [roman_to_degree]: U+00C2 U+00B0. *)
Definition degree_sign : string :=
  String (chr 194) (String (chr 176) EmptyString).

Definition roman_mapping : gmap string Z :=
  list_to_map
    [("i", 0); ("ii", 1); ("iii", 2); ("iv", 3); ("v", 4); ("vi", 5);
     ("vii", 6);
     ("I", 0); ("II", 1); ("III", 2); ("IV", 3); ("V", 4); ("VI", 5);
     ("VII", 6)]%string.

Definition roman_to_degree (roman : string) : Z :=
  default 0 (roman_mapping !! replace degree_sign "" (strip roman)).

(** *** Core generators *)

Definition nonempty (s : string) : bool :=
  match s with EmptyString => false | _ => true end.

(** The tokens of the progression. *)
Definition progression_tokens (progression : string) : list string :=
  map strip
      (filter (fun t => nonempty (strip t) = true)
              (split "-" (replace "|" "-" progression))).

Section Generators.
Context {R : PyRandom}.

(** The body of [for n in notes] of [make_chords]. *)
Definition chord_note (params : SongParams) (st et : Z)
    (acc : rng * list event) (n : Z) : result (rng * list event) :=
  let '(g, events) := acc in
  let '(stagger, g) := randint 0 40 g in
  let base := fadd (float_of_int 65)
                   (fmul (float_of_int 15) (energy params)) in
  let '(jitter, g) := randint (-5) 5 g in
  let* vel := int_of_float (fadd base (float_of_int jitter)) in
  Ok (g, events ++ [(st + stagger, [144; n; vel]);
                    (et - 100, [128; n; 0])]).

(** The body of [for bar in range(params.bars)] of [make_chords]. *)
Definition chord_bar (params : SongParams) (bar_ticks : Z)
    (scale : list Z) (tokens : list string)
    (acc : rng * list event * list (list Z)) (bar : Z)
    : result (rng * list event * list (list Z)) :=
  let '(g, events, chord_degs_per_bar) := acc in
  let len := Z.of_nat (length tokens) in
  let* token := if len =? 0 then Raise ZeroDivisionError
                else getitem tokens (bar mod len) in
  let root_deg := roman_to_degree token in
  let d0 := root_deg mod 7 in
  let d1 := (root_deg + 2) mod 7 in
  let d2 := (root_deg + 4) mod 7 in
  let chord_degs_per_bar := chord_degs_per_bar ++ [[d0; d1; d2]] in
  let* n0 := getitem scale d0 in
  let* n2 := getitem scale d2 in
  let* n1 := getitem scale d1 in
  let notes := [n0; n2; n1 + 12] in
  let st := bar * bar_ticks in
  let et := (bar + 1) * bar_ticks in
  let* (g, events) := for_each (chord_note params st et) notes (g, events) in
  Ok (g, events, chord_degs_per_bar).

Definition make_chords (params : SongParams) (bar_ticks : Z)
    : result (list event * list (list Z)) :=
  let g := Random (seed params) in
  let* scale := build_scale (key params) (mode params) (chord_octave params) in
  let tokens := progression_tokens (progression params) in
  let* (_, events, chord_degs_per_bar) :=
    for_each (chord_bar params bar_ticks scale tokens)
             (range (bars params)) (g, [], []) in
  Ok (events, chord_degs_per_bar).

(** The syncopated rhythm pattern of [make_melody], with its grid
    positions: [enumerate(rhythm)]. *)
Definition rhythm : list Z := [1; 0; 0; 1; 0; 1; 0; 0; 1; 0; 0; 1; 0; 0; 0; 0].

Definition enumerate {A} (l : list A) : list (Z * A) :=
  zip (range (Z.of_nat (length l))) l.

(** The body of [for i, hit in enumerate(rhythm)]. *)
Definition melody_step (lead_scale chord_tones : list Z) (base_tick : Z)
    (acc : rng * list event) (ih : Z * Z) : result (rng * list event) :=
  let '(g, events) := acc in
  let '(i, hit) := ih in
  if hit =? 0 then Ok (g, events)
  else
    let '(on_chord, g) :=
      if i mod 4 =? 0 then (true, g)
      else let '(x, g) := random g in (flt x (float_lit 7 10), g) in
    let* (deg, g) := if on_chord then choice chord_tones g
                      else choice (range 7) g in
    let* note := getitem lead_scale deg in
    let '(shift, g) := randint (-20) 20 g in
    let st := base_tick + i * (PPQN / 4) + shift in
    let vel := if i =? 0 then 100 else if i mod 4 =? 0 then 85 else 70 in
    let '(accent, g) := randint (-10) 10 g in
    let vel := vel + accent in
    let '(stretch, g) := randint (-50) 50 g in
    let duration := PPQN / 4 + stretch in
    Ok (g, events ++ [(st, [145; note; vel]);
                      (st + duration, [129; note; 0])]).

Definition melody_bar (bar_ticks : Z) (lead_scale : list Z)
    (chord_degs_per_bar : list (list Z))
    (acc : rng * list event) (bar : Z) : result (rng * list event) :=
  let base_tick := bar * bar_ticks in
  let* chord_tones := getitem chord_degs_per_bar bar in
  for_each (melody_step lead_scale chord_tones base_tick)
           (enumerate rhythm) acc.

Definition make_melody (params : SongParams)
    (chord_degs_per_bar : list (list Z)) (bar_ticks : Z)
    : result (list event) :=
  let g := Random (seed params + 123) in
  let* lead_scale :=
    build_scale (key params) (mode params) (melody_octave params) in
  let* (_, events) :=
    for_each (melody_bar bar_ticks lead_scale chord_degs_per_bar)
             (range (bars params)) (g, []) in
  Ok events.

(** The body of [for i in range(16)] of [make_drums]. *)
Definition drum_step (bs : Z) (acc : rng * list event) (i : Z)
    : rng * list event :=
  let '(g, dr) := acc in
  let t := bs + i * (PPQN / 4) in
  let dr := if (i =? 0) || (i =? 8)
            then dr ++ [(t, [153; 36; 110]); (t + 100, [137; 36; 0])]
            else dr in
  let dr := if (i =? 4) || (i =? 12)
            then dr ++ [(t, [153; 38; 100]); (t + 100, [137; 38; 0])]
            else dr in
  if i mod 2 =? 0
  then
    let vel := if i mod 4 =? 0 then 90 else 65 in
    let '(jitter, g) := randint (-5) 5 g in
    (g, dr ++ [(t, [153; 42; vel + jitter]); (t + 60, [137; 42; 0])])
  else (g, dr).

Definition drum_bar (bar_ticks : Z) (acc : rng * list event) (bar : Z)
    : rng * list event :=
  foldl (drum_step (bar * bar_ticks)) acc (range 16).

Definition make_drums (params : SongParams) (bar_ticks : Z) : list event :=
  let g := Random (seed params + 999) in
  snd (foldl (drum_bar bar_ticks) (g, []) (range (bars params))).

(** [b"MTrk" + struct.pack(">I", len(t)) + t] *)
Definition chunk (t : list Z) : result (list Z) :=
  let* len := pack_field 4 (Z.of_nat (length t)) in
  Ok ([77; 84; 114; 107] ++ len ++ t).

Definition tempo_of (params : SongParams) : result Z :=
  let* q := truediv 60000000 (bpm params) in
  int_of_float q.

Definition generate_song_bytes (params : SongParams) : result (list Z) :=
  let bar_ticks := time_sig_num params * PPQN in
  let* tempo := tempo_of params in
  let* tempo_bytes := to_bytes tempo 3 in
  let t0_events := [(0, [255; 81; 3] ++ tempo_bytes)] in
  let* (chord_ev, chord_degs) := make_chords params bar_ticks in
  let* melody_ev := make_melody params chord_degs bar_ticks in
  let drum_ev := make_drums params bar_ticks in
  let* t0 := build_track t0_events in
  let* t1 := build_track chord_ev in
  let* t2 := build_track melody_ev in
  let* t3 := build_track drum_ev in
  let tracks := [t0; t1; t2; t3] in
  let* f1 := pack_field 4 6 in
  let* f2 := pack_field 2 1 in
  let* f3 := pack_field 2 (Z.of_nat (length tracks)) in
  let* f4 := pack_field 2 PPQN in
  let header := [77; 84; 104; 100] ++ f1 ++ f2 ++ f3 ++ f4 in
  let* chunks := for_each (fun acc t => let* c := chunk t in Ok (acc ++ c))
                          tracks [] in
  Ok (header ++ chunks).

(** An entry of the dictionary of [generate_song_bytes_from_dict],
    with a value of the declared type of the field it names, or with
    a key that names no field ([hasattr] is false). *)
Inductive item : Type :=
| Bpm (v : Z) | Bars (v : Z) | Time_sig_num (v : Z) | Time_sig_den (v : Z)
| Key (v : string) | Mode (v : string) | Progression (v : string)
| Energy (v : float) | Swing (v : float)
| Seed (v : Z) | Chord_octave (v : Z) | Melody_octave (v : Z)
| Bass_octave (v : Z)
| Other (k : string).

Definition setattr (p : SongParams) (it : item) : SongParams :=
  let 'Build_SongParams a b c d e f g h i j k l m := p in
  match it with
  | Bpm v => Build_SongParams v b c d e f g h i j k l m
  | Bars v => Build_SongParams a v c d e f g h i j k l m
  | Time_sig_num v => Build_SongParams a b v d e f g h i j k l m
  | Time_sig_den v => Build_SongParams a b c v e f g h i j k l m
  | Key v => Build_SongParams a b c d v f g h i j k l m
  | Mode v => Build_SongParams a b c d e v g h i j k l m
  | Progression v => Build_SongParams a b c d e f v h i j k l m
  | Energy v => Build_SongParams a b c d e f g v i j k l m
  | Swing v => Build_SongParams a b c d e f g h v j k l m
  | Seed v => Build_SongParams a b c d e f g h i v k l m
  | Chord_octave v => Build_SongParams a b c d e f g h i j v l m
  | Melody_octave v => Build_SongParams a b c d e f g h i j k v m
  | Bass_octave v => Build_SongParams a b c d e f g h i j k l v
  | Other _ => p
  end.

End Generators.

End SongGenerator.

(** ** [app2.py]: the serializer of the stand-alone script *)

Module App2.

(** [write_varlen] of [app2.py] has no clamp and loops [while value:],
    which a negative value never leaves ([-1 >> 7] is [-1]). The loop
    is run for at most [fuel] turns; [None] when they do not suffice. *)
Fixpoint varlen_loop (fuel : nat) (value : Z) (out : list Z)
  : option (list Z) :=
  match fuel with
  | O => None
  | S fuel' =>
      if value =? 0 then Some out
      else varlen_loop fuel' (Z.shiftr value 7)
                       (Z.lor (Z.land value 127) 128 :: out)
  end.

Definition write_varlen (fuel : nat) (value : Z) : option (list Z) :=
  varlen_loop fuel (Z.shiftr value 7) [Z.land value 127].

(** [build_track] of [app2.py]: the loop over the sorted events, which
    does not return when its encoder does not. *)
Fixpoint track_loop (fuel : nat) (events : list SongGenerator.event)
    (data : list Z) (last : Z)
  : option (result (list Z)) :=
  match events with
  | [] => Some (Ok data)
  | (tick, msg) :: events' =>
      let delta := tick - last in
      match write_varlen fuel delta with
      | None => None
      | Some bytes =>
          match (let* data := extend data bytes in extend data msg) with
          | Ok data => track_loop fuel events' data tick
          | Raise e => Some (Raise e)
          end
      end
  end.

Definition build_track (fuel : nat) (events : list SongGenerator.event)
  : option (result (list Z)) :=
  let events := sorted fst events in
  match track_loop fuel events [] 0 with
  | Some (Ok data) =>
      match write_varlen fuel 0 with
      | None => None
      | Some bytes =>
          Some (let* data := extend data bytes in extend data [255; 47; 0])
      end
  | r => r
  end.

(** The script of [app2.py]: its settings, its four lists of events and
    the bytes it writes to [cute_kpop.mid]. The calls of FluidSynth and
    ffmpeg that follow are outside the embedding. *)
Definition PPQN : Z := 480.
Definition bpm : Z := 118.

Definition tempo : result Z :=
  let* q := truediv 60000000 bpm in int_of_float q.

Definition bars : Z := 16.
Definition bar_ticks : Z := PPQN * 4.

Definition scale : list Z := [55; 57; 59; 60; 62; 64; 66].

Definition chord_degrees : list (list Z) :=
  [[0; 2; 4]; [5; 0; 2]; [3; 5; 0]; [4; 6; 1]].

Definition t0 : result (list SongGenerator.event) :=
  let* tempo := tempo in
  let* tempo_bytes := to_bytes tempo 3 in
  Ok [(0, [255; 81; 3] ++ tempo_bytes); (0, [255; 88; 4; 4; 2; 24; 8])].

(** The body of [for d in degs]. *)
Definition chord_note (st et : Z) (chords : list SongGenerator.event) (d : Z)
  : result (list SongGenerator.event) :=
  let* note := SongGenerator.getitem scale d in
  Ok (chords ++ [(st, [144; note; 90]); (et, [128; note; 40])]).

Definition chord_bar (chords : list SongGenerator.event) (bar : Z)
  : result (list SongGenerator.event) :=
  let* degs := SongGenerator.getitem chord_degrees (bar mod 4) in
  let st := bar * bar_ticks in
  let et := st + bar_ticks in
  for_each (chord_note st et) degs chords.

Definition chords : result (list SongGenerator.event) :=
  for_each chord_bar (range bars) [].

Definition pattern : list Z := [5; 6; 4; 2; 3; 4; 1; 2].
Definition dur : Z := PPQN / 2.

(** The body of [for i, d in enumerate(pattern)]. *)
Definition melody_note (base : Z) (melody : list SongGenerator.event)
    (id : Z * Z)
  : result (list SongGenerator.event) :=
  let '(i, d) := id in
  let st := base + i * dur in
  let* n := SongGenerator.getitem scale d in
  let note := n + 12 in
  Ok (melody ++ [(st, [145; note; 110]); (st + dur, [129; note; 50])]).

Definition melody_bar (melody : list SongGenerator.event) (bar : Z)
  : result (list SongGenerator.event) :=
  let base := bar * bar_ticks in
  for_each (melody_note base) (SongGenerator.enumerate pattern) melody.

Definition melody : result (list SongGenerator.event) :=
  for_each melody_bar (range bars) [].

Definition kick : Z := 36.
Definition sn : Z := 38.
Definition hat : Z := 42.

Definition drum_bar (dr : list SongGenerator.event) (bar : Z)
  : list SongGenerator.event :=
  let bs := bar * bar_ticks in
  let dr :=
    foldl (fun dr beat =>
             let t := bs + beat * PPQN in
             dr ++ [(t, [153; kick; 100]); (t + PPQN / 4, [137; kick; 60])])
          dr [0; 2] in
  let dr :=
    foldl (fun dr beat =>
             let t := bs + beat * PPQN in
             dr ++ [(t, [153; sn; 70]); (t + PPQN / 4, [137; sn; 40])])
          dr [1; 3] in
  foldl (fun dr i =>
           let t := bs + i * (PPQN / 2) in
           dr ++ [(t, [153; hat; 60]); (t + PPQN / 4, [137; hat; 30])])
        dr (range 8).

Definition dr : list SongGenerator.event := foldl drum_bar [] (range bars).

(** Sequencing steps that may raise or, for [build_track], not return. *)
Definition and_then {A B} (m : option (result A))
    (k : A -> option (result B)) : option (result B) :=
  match m with
  | Some (Ok a) => k a
  | Some (Raise e) => Some (Raise e)
  | None => None
  end.

(** [b"MTrk" + struct.pack(">I", len(data)) + data] *)
Definition track_chunk (data : list Z) : result (list Z) :=
  let* len := pack_field 4 (Z.of_nat (length data)) in
  Ok ([77; 84; 114; 107] ++ len ++ data).

(** What the script writes to the MIDI file. *)
Definition midi_file (fuel : nat) : option (result (list Z)) :=
  and_then (Some t0) (fun t0 =>
  and_then (build_track fuel t0) (fun t0_data =>
  and_then (Some chords) (fun chords =>
  and_then (build_track fuel chords) (fun t1_data =>
  and_then (Some melody) (fun melody =>
  and_then (build_track fuel melody) (fun t2_data =>
  and_then (build_track fuel dr) (fun t3_data =>
  Some (let* f1 := pack_field 4 6 in
        let* f2 := pack_field 2 1 in
        let* f3 := pack_field 2 4 in
        let* f4 := pack_field 2 PPQN in
        let header := [77; 84; 104; 100] ++ f1 ++ f2 ++ f3 ++ f4 in
        let* c0 := track_chunk t0_data in
        let* c1 := track_chunk t1_data in
        let* c2 := track_chunk t2_data in
        let* c3 := track_chunk t3_data in
        Ok (header ++ c0 ++ c1 ++ c2 ++ c3))))))))).

End App2.

(** ** What the properties are stated with *)

Import SongGenerator.

(** The reader of a variable-length quantity of the Standard MIDI File
    format, the inverse the encoder is specified against (the repository
    has no reader): the low 7 bits of each byte are the next base-128
    digit, most significant first, and the first byte whose high bit is
    clear is the last one. Returns the value and the unread bytes. *)
Fixpoint read_varlen_from (acc : Z) (data : list Z) : option (Z * list Z) :=
  match data with
  | [] => None
  | b :: rest =>
      let acc := acc * 128 + Z.land b 127 in
      if Z.land b 128 =? 0 then Some (acc, rest)
      else read_varlen_from acc rest
  end.

(** Reading a variable-length quantity at the head of [data]. *)
Definition read_varlen (data : list Z) : option (Z * list Z) :=
  read_varlen_from 0 data.

(** The encoding in the words of the specification: [groups7 v] is the
    number of 7-bit groups that [v] requires, and [varlen_groups v] lists
    them from the most significant one, the high bit set on all but the
    last. *)
Definition groups7 (v : Z) : Z :=
  if v =? 0 then 1 else Z.log2 v / 7 + 1.

(** The [j]-th group of 7 bits of [v], from the least significant. *)
Definition group7 (v j : Z) : Z := Z.land (Z.shiftr v (7 * j)) 127.

(** The groups, the most significant first, as bytes. *)
Definition varlen_groups (v : Z) : list Z :=
  let k := groups7 v in
  map (fun i => if i <? k - 1 then Z.lor (group7 v (k - 1 - i)) 128
                else group7 v (k - 1 - i))
      (seqZ 0 k).

(** The delta times that [build_track] computes while it walks the
    sorted events, [last] being the tick of the previous one. *)
Fixpoint deltas_from (last : Z) (events : list event) : list Z :=
  match events with
  | [] => []
  | (tick, _) :: events' => (tick - last) :: deltas_from tick events'
  end.

(** Reading a track back: the stored delta times, given the length of
    each message, and the absolute ticks they add up to. *)
Fixpoint read_deltas (lens : list nat) (data : list Z) : option (list Z) :=
  match lens with
  | [] => Some []
  | n :: lens' =>
      match read_varlen data with
      | Some (d, rest) =>
          match read_deltas lens' (drop n rest) with
          | Some ds => Some (d :: ds)
          | None => None
          end
      | None => None
      end
  end.

(** The sums of the delta times, from [acc]. *)
Fixpoint running_sum (acc : Z) (ds : list Z) : list Z :=
  match ds with
  | [] => []
  | d :: ds' => (acc + d) :: running_sum (acc + d) ds'
  end.

(** The absolute ticks of the events. *)
Definition ticks (events : list event) : list Z := map fst events.



(** The velocity expression of [make_chords],
    [int(65 + 15 * energy + jitter)]. *)
Definition chord_velocity (e : float) (jitter : Z) : result Z :=
  int_of_float (fadd (fadd (float_of_int 65) (fmul (float_of_int 15) e))
                     (float_of_int jitter)).


(** The number of base-128 digits of the part that the loop consumes. *)
Definition digits7 (v : Z) : Z := if v <=? 0 then 0 else Z.log2 v / 7 + 1.

(** The bytes of the events of a track: each delta time, encoded, before
    its message. *)
Fixpoint track_body (last : Z) (events : list event) : list Z :=
  match events with
  | [] => []
  | (tick, msg) :: events' =>
      write_varlen (tick - last) ++ msg ++ track_body tick events'
  end.

(** The tick of the last event, [last] when there is none. *)
Fixpoint final_tick (last : Z) (events : list event) : Z :=
  match events with
  | [] => last
  | (tick, _) :: events' => final_tick tick events'
  end.

(** Every message is made of bytes. *)
Definition messages_ok (events : list event) : bool :=
  forallb (fun e => forallb is_byte (snd e)) events.

(** The order of the keys. *)
Definition key_le {A} (key : A -> Z) (a b : A) : Prop := key a <= key b.

(** The kick and the snare of a grid position of the drums. *)
Definition kick (t i : Z) : list event :=
  if (i =? 0) || (i =? 8)
  then [(t, [153; 36; 110]); (t + 100, [137; 36; 0])] else [].

Definition snare (t i : Z) : list event :=
  if (i =? 4) || (i =? 12)
  then [(t, [153; 38; 100]); (t + 100, [137; 38; 0])] else [].

(** The token of a bar: the progression is gone through cyclically. *)
Definition bar_token (tokens : list string) (bar : Z) : option string :=
  tokens !! Z.to_nat (bar mod Z.of_nat (length tokens)).

(** The triad of a root degree. *)
Definition triad (root : Z) : list Z :=
  [root; (root + 2) mod 7; (root + 4) mod 7].

(** The pitch byte of a note event. *)
Definition pitch (e : event) : Z := default 0 (snd e !! 1%nat).

(** The two events of one voiced pitch of a chord. *)
Definition chord_note_events (p : SongParams) (st et n : Z)
    (c : list event) : Prop :=
  exists stagger jitter vel,
    0 <= stagger <= 40 /\ -5 <= jitter <= 5 /\
    chord_velocity (energy p) jitter = Ok vel /\
    c = [(st + stagger, [144; n; vel]); (et - 100, [128; n; 0])].

(** The six events of the chord of a bar: root, fifth, and the third one
    octave up. *)
Definition chord_bar_events (p : SongParams) (bar_ticks : Z)
    (scale : list Z) (tokens : list string) (bar : Z) (c : list event) : Prop :=
  exists token n0 n1 n2 c0 c1 c2,
    bar_token tokens bar = Some token /\
    scale !! Z.to_nat (roman_to_degree token) = Some n0 /\
    scale !! Z.to_nat ((roman_to_degree token + 2) mod 7) = Some n1 /\
    scale !! Z.to_nat ((roman_to_degree token + 4) mod 7) = Some n2 /\
    chord_note_events p (bar * bar_ticks) ((bar + 1) * bar_ticks) n0 c0 /\
    chord_note_events p (bar * bar_ticks) ((bar + 1) * bar_ticks) n2 c1 /\
    chord_note_events p (bar * bar_ticks) ((bar + 1) * bar_ticks) (n1 + 12) c2 /\
    c = c0 ++ c1 ++ c2.

(** The chord tones of a bar. *)
Definition chord_bar_degs (tokens : list string) (bar : Z) (d : list Z) : Prop :=
  exists token, bar_token tokens bar = Some token /\
                d = triad (roman_to_degree token).

(** The events of one position of the grid of the melody. *)
Definition melody_step_events (ls : list Z) (base : Z) (ih : Z * Z)
    (c : list event) : Prop :=
  (snd ih = 0 /\ c = []) \/
  exists note shift accent stretch,
    note ∈ ls /\ -20 <= shift <= 20 /\ -10 <= accent <= 10 /\
    -50 <= stretch <= 50 /\
    c = [(base + fst ih * 120 + shift,
          [145; note;
           (if fst ih =? 0 then 100 else if fst ih mod 4 =? 0 then 85 else 70)
           + accent]);
         (base + fst ih * 120 + shift + (120 + stretch), [129; note; 0])].

(** The events of one bar of the melody. *)
Definition melody_bar_events (bar_ticks : Z) (ls : list Z) (bar : Z)
    (c : list event) : Prop :=
  exists chunks,
    Forall2 (melody_step_events ls (bar * bar_ticks)) (enumerate rhythm) chunks /\
    c = concat chunks.

(** The events of one position of the grid of the drums. *)
Definition drum_step_events (bs i : Z) (c : list event) : Prop :=
  exists hat,
    c = kick (bs + i * 120) i ++ snare (bs + i * 120) i ++ hat /\
    (hat = [] \/
     exists jitter, -5 <= jitter <= 5 /\
       hat = [(bs + i * 120,
               [153; 42; (if i mod 4 =? 0 then 90 else 65) + jitter]);
              (bs + i * 120 + 60, [137; 42; 0])]).

(** The events of one bar of the drums. *)
Definition drum_bar_events (bar_ticks bar : Z) (c : list event) : Prop :=
  exists chunks,
    Forall2 (drum_step_events (bar * bar_ticks)) (range 16) chunks /\
    c = concat chunks.

(** The tick of an event is not before [lo]. *)
Definition tick_from (lo : Z) (e : event) : Prop := lo <= fst e.


(** The header chunk: format 1, four tracks, 480 ticks per quarter. *)
Definition header4 : list Z := [77; 84; 104; 100; 0; 0; 0; 6; 0; 1; 0; 4; 1; 224].

Lemma is_ok_inv {A} (m : result A) : is_ok m = true -> exists a, m = Ok a.
Proof. destruct m as [a|e]; [eauto|discriminate]. Qed.


(** What C4 states of a track: the stored delta times, read back and
    added up, are the sorted ticks of the events. *)
Definition delta_reconstruction (events : list event) : Prop :=
  forall data, build_track events = Ok data ->
  exists ds,
    read_deltas (map (fun e => length (snd e)) (sorted fst events)) data
      = Some ds /\
    running_sum 0 ds = ticks (sorted fst events).


(** The state of the right shift after [k] steps from the mantissa
    [m0]: the quotient by [2^k], and whether a bit was lost. *)
Definition shr_state (m0 k : Z) (r : shr_record) : Prop :=
  shr_m r = m0 / 2 ^ k /\
  (orb (shr_r r) (shr_s r) = false <-> m0 mod 2 ^ k = 0).


(** An event moved by [c] ticks. *)
Definition delay (c : Z) (e : event) : event := (fst e + c, snd e).

(** The spellings of "major" that the mode test accepts: the five
    letters, each one in lower or in upper case. *)
Definition major_spelling (mode : string) : Prop :=
  exists c1 c2 c3 c4 c5 : ascii,
    mode = String c1 (String c2 (String c3 (String c4 (String c5 EmptyString))))
    /\ (c1 = "m" \/ c1 = "M")%char /\ (c2 = "a" \/ c2 = "A")%char
    /\ (c3 = "j" \/ c3 = "J")%char /\ (c4 = "o" \/ c4 = "O")%char
    /\ (c5 = "r" \/ c5 = "R")%char.

(** The character [c] occurs in [s]. *)
Fixpoint has_char (c : ascii) (s : string) : bool :=
  match s with
  | EmptyString => false
  | String d s' => Ascii.eqb d c || has_char c s'
  end.

(** [sep.join(words)] for a one-character separator. *)
Fixpoint join (sep : ascii) (words : list string) : string :=
  match words with
  | [] => EmptyString
  | [w] => w
  | w :: ws => (w ++ String sep (join sep ws))%string
  end.

(** A token as [progression_tokens] returns them: not empty, without
    surrounding whitespace, and without a separator. *)
Definition clean_token (t : string) : Prop :=
  t <> EmptyString /\ strip t = t /\
  has_char "-" t = false /\ has_char "|" t = false.





(** A slot of the drum grid: the tick, the status byte and the pitch of
    an event, and the bounds of its velocity. *)
Definition slot : Type := Z * list Z * (Z * Z).

Definition in_slot (e : event) (s : slot) : Prop :=
  let '(tick, head, (lo, hi)) := s in
  fst e = tick /\ exists v, snd e = head ++ [v] /\ lo <= v <= hi.

(** The slots of one position of the drum grid. *)
Definition drum_step_grid (bs i : Z) : list slot :=
  let t := bs + i * 120 in
  (if (i =? 0) || (i =? 8)
   then [(t, [153; 36], (110, 110)); (t + 100, [137; 36], (0, 0))] else [])
  ++ (if (i =? 4) || (i =? 12)
      then [(t, [153; 38], (100, 100)); (t + 100, [137; 38], (0, 0))] else [])
  ++ (if i mod 2 =? 0
      then [(t, [153; 42],
             ((if i mod 4 =? 0 then 90 else 65) - 5,
              (if i mod 4 =? 0 then 90 else 65) + 5));
            (t + 60, [137; 42], (0, 0))]
      else []).

(** The drum pattern of a bar that starts at tick [bs]: kick (36) on the
    first and third beat, snare (38) on the second and fourth, closed
    hi-hat (42) on every eighth note, louder on the beats. *)
Definition drum_grid (bs : Z) : list slot :=
  [(bs, [153; 36], (110, 110)); (bs + 100, [137; 36], (0, 0));
   (bs, [153; 42], (85, 95)); (bs + 60, [137; 42], (0, 0));
   (bs + 240, [153; 42], (60, 70)); (bs + 300, [137; 42], (0, 0));
   (bs + 480, [153; 38], (100, 100)); (bs + 580, [137; 38], (0, 0));
   (bs + 480, [153; 42], (85, 95)); (bs + 540, [137; 42], (0, 0));
   (bs + 720, [153; 42], (60, 70)); (bs + 780, [137; 42], (0, 0));
   (bs + 960, [153; 36], (110, 110)); (bs + 1060, [137; 36], (0, 0));
   (bs + 960, [153; 42], (85, 95)); (bs + 1020, [137; 42], (0, 0));
   (bs + 1200, [153; 42], (60, 70)); (bs + 1260, [137; 42], (0, 0));
   (bs + 1440, [153; 38], (100, 100)); (bs + 1540, [137; 38], (0, 0));
   (bs + 1440, [153; 42], (85, 95)); (bs + 1500, [137; 42], (0, 0));
   (bs + 1680, [153; 42], (60, 70)); (bs + 1740, [137; 42], (0, 0))].

(** The two events of a hit of the melody at grid position [i] of the
    bar that starts at tick [base], whatever their messages are. *)
Definition melody_hit (base i : Z) (hit : Z) (c : list event) : Prop :=
  (hit = 0 /\ c = []) \/
  (hit <> 0 /\
   exists shift stretch m1 m2,
     -20 <= shift <= 20 /\ -50 <= stretch <= 50 /\
     c = [(base + i * 120 + shift, m1);
          (base + i * 120 + shift + (120 + stretch), m2)]).

(** Reading an unsigned integer stored with its most significant byte
    first. *)
Definition read_be (bytes : list Z) : Z :=
  foldl (fun acc b => acc * 256 + b) 0 bytes.

(** Reading [n] track chunks of a Standard MIDI File (the repository
    has no reader): each one is "MTrk", the length of its data in four
    bytes, and the data; nothing may follow the last one. *)
Fixpoint read_chunks (n : nat) (data : list Z) : option (list (list Z)) :=
  match n with
  | O => if bool_decide (data = []) then Some [] else None
  | S n' =>
      let len := Z.to_nat (read_be (take 4 (drop 4 data))) in
      let body := drop 8 data in
      if bool_decide (take 4 data = [77; 84; 114; 107])
         && (8 <=? length data)%nat && (len <=? length body)%nat
      then match read_chunks n' (drop len body) with
           | Some tracks => Some (take len body :: tracks)
           | None => None
           end
      else None
  end.

(** Reading a Standard MIDI File: the header chunk "MThd" of length 6
    with the format, the number of tracks and the division, then the
    track chunks. Returns the format, the division and the tracks. *)
Definition read_file (data : list Z) : option (Z * Z * list (list Z)) :=
  if bool_decide (take 8 data = [77; 84; 104; 100; 0; 0; 0; 6])
     && (14 <=? length data)%nat
  then
    let format := read_be (take 2 (drop 8 data)) in
    let ntrks := read_be (take 2 (drop 10 data)) in
    let division := read_be (take 2 (drop 12 data)) in
    match read_chunks (Z.to_nat ntrks) (drop 14 data) with
    | Some tracks => Some (format, division, tracks)
    | None => None
    end
  else None.


(** ** [MT19937] implements the interface *)

Lemma u32_nonneg (x : Z) : 0 <= MT19937.u32 x.
Proof. unfold MT19937.u32. apply Z.land_nonneg. lia. Qed.

Lemma genrand_uint32_nonneg (s : MT19937.state) :
  0 <= fst (MT19937.genrand_uint32 s).
Proof.
  unfold MT19937.genrand_uint32.
  destruct (MT19937.N <=? MT19937.mti s)%nat; simpl; apply u32_nonneg.
Qed.

Lemma getrandbits_words_nonneg (w : nat) (k : Z) (s : MT19937.state) :
  0 <= fst (MT19937.getrandbits_words w k s).
Proof.
  revert k s. induction w as [|w IH]; intros k s; simpl; [lia|].
  pose proof (genrand_uint32_nonneg s) as Hr.
  destruct (MT19937.genrand_uint32 s) as [r s1]. simpl in Hr.
  specialize (IH (k - 32) s1).
  destruct (MT19937.getrandbits_words w (k - 32) s1) as [hi s2].
  simpl in *.
  assert (0 <= (if k <? 32 then Z.shiftr r (32 - k) else r)).
  { destruct (k <? 32); [apply Z.shiftr_nonneg|]; lia. }
  lia.
Qed.

Lemma getrandbits_nonneg (k : Z) (s : MT19937.state) :
  0 <= fst (MT19937.getrandbits k s).
Proof.
  unfold MT19937.getrandbits. destruct (k <=? 32).
  - pose proof (genrand_uint32_nonneg s) as Hr.
    destruct (MT19937.genrand_uint32 s) as [r s1]. simpl in *.
    apply Z.shiftr_nonneg. lia.
  - apply getrandbits_words_nonneg.
Qed.

Lemma reject_range (fuel : nat) (n k : Z) (s : MT19937.state) :
  0 < n -> 0 <= fst (MT19937.reject fuel n k s) < n.
Proof.
  intros Hn. revert s. induction fuel as [|fuel IH]; intros s; simpl.
  - pose proof (getrandbits_nonneg k s) as Hr.
    destruct (MT19937.getrandbits k s) as [r s1]. simpl in Hr.
    destruct (Z.ltb_spec r n); simpl; lia.
  - pose proof (getrandbits_nonneg k s) as Hr.
    destruct (MT19937.getrandbits k s) as [r s1]. simpl in Hr.
    destruct (Z.ltb_spec r n); simpl; [lia|apply IH].
Qed.

#[export] Instance MT19937_random : PyRandom := {|
  rng := MT19937.state;
  Random := MT19937.seed;
  randbelow := MT19937.randbelow;
  random := MT19937.random;
  randbelow_range := fun n s Hn => reject_range 4096 n (MT19937.bit_length n) s Hn
|}.

(** ** Evaluated runs *)

(** The chord context and the melody of the default configuration. *)
Definition default_chords : result (list event * list (list Z)) :=
  Eval vm_compute in
    make_chords (R := MT19937_random) default_params (4 * PPQN).

Definition default_melody : result (list event) :=
  Eval vm_compute in
    match default_chords with
    | Ok (_, degs) =>
        make_melody (R := MT19937_random) default_params degs (4 * PPQN)
    | Raise e => Raise e
    end.

Lemma default_chords_eq :
  make_chords (R := MT19937_random) default_params (4 * PPQN) = default_chords.
Proof. vm_compute. reflexivity. Qed.

Lemma default_melody_eq :
  match default_chords with
  | Ok (_, degs) =>
      make_melody (R := MT19937_random) default_params degs (4 * PPQN)
  | Raise e => Raise e
  end = default_melody.
Proof. vm_compute. reflexivity. Qed.




(** ** The variable-length encoder *)

Lemma varlen_loop_eq (value : Z) (out : list Z) :
  varlen_loop value out =
  if 0 <? value
  then varlen_loop (Z.shiftr value 7) (Z.lor (Z.land value 127) 128 :: out)
  else out.
Proof.
  rewrite (varlen_loop_equation_1 value out).
  destruct (Z_gt_dec value 0), (Z.ltb_spec 0 value); simpl; (reflexivity || lia).
Qed.

Lemma shiftr7_lt (v : Z) : 0 < v -> 0 <= Z.shiftr v 7 < v.
Proof.
  intros Hv. rewrite Z.shiftr_div_pow2 by lia. split.
  - apply Z.div_pos; lia.
  - apply Z.div_lt; lia.
Qed.

Lemma split7 (v : Z) : Z.shiftr v 7 * 128 + Z.land v 127 = v.
Proof.
  rewrite Z.shiftr_div_pow2 by lia.
  change 127 with (Z.ones 7). rewrite Z.land_ones by lia.
  change (2 ^ 7) with 128. pose proof (Z.div_mod v 128). lia.
Qed.

Lemma land127_range (v : Z) : 0 <= Z.land v 127 < 128.
Proof.
  change 127 with (Z.ones 7). rewrite Z.land_ones by lia.
  apply Z.mod_pos_bound. lia.
Qed.

Lemma low7_high_bit (v : Z) : Z.land (Z.land v 127) 128 = 0.
Proof. rewrite <- Z.land_assoc. change (Z.land 127 128) with 0. apply Z.land_0_r. Qed.

Lemma low7_idem (v : Z) : Z.land (Z.land v 127) 127 = Z.land v 127.
Proof. rewrite <- Z.land_assoc. reflexivity. Qed.

Lemma continued_low7 (v : Z) :
  Z.land (Z.lor (Z.land v 127) 128) 127 = Z.land v 127.
Proof.
  rewrite Z.land_lor_distr_l, low7_idem.
  change (Z.land 128 127) with 0. apply Z.lor_0_r.
Qed.

Lemma continued_high_bit (v : Z) :
  Z.land (Z.lor (Z.land v 127) 128) 128 = 128.
Proof.
  rewrite Z.land_lor_distr_l, low7_high_bit. reflexivity.
Qed.

Lemma continued_range (v : Z) : 128 <= Z.lor (Z.land v 127) 128 < 256.
Proof.
  pose proof (land127_range v) as Hr.
  assert (Hadd : Z.lor (Z.land v 127) 128 = Z.land v 127 + 128).
  { rewrite <- Z.lxor_lor by apply low7_high_bit.
    rewrite <- Z.add_nocarry_lxor by apply low7_high_bit. reflexivity. }
  lia.
Qed.

Lemma digits7_step (v : Z) : 0 < v -> digits7 v = digits7 (Z.shiftr v 7) + 1.
Proof.
  intros Hv. unfold digits7.
  destruct (Z.leb_spec v 0); [lia|].
  destruct (Z.leb_spec (Z.shiftr v 7) 0) as [Hz|Hp].
  - assert (Hlog : Z.log2 v < 7).
    { apply Z.log2_lt_pow2; [lia|].
      pose proof (split7 v). pose proof (land127_range v).
      pose proof (shiftr7_lt v Hv). change (2 ^ 7) with 128. lia. }
    pose proof (Z.log2_nonneg v). rewrite Z.div_small by lia. reflexivity.
  - assert (Hlog : Z.log2 (Z.shiftr v 7) = Z.log2 v - 7).
    { rewrite Z.log2_shiftr by lia.
      destruct (Z_lt_dec (Z.log2 v) 7) as [Hlt|Hge]; [|lia].
      rewrite Z.shiftr_eq_0 in Hp by lia. lia. }
    rewrite Hlog.
    replace (Z.log2 v) with (Z.log2 v - 7 + 1 * 7) at 1 by lia.
    rewrite Z.div_add by lia. lia.
Qed.

Lemma digits7_nonneg (v : Z) : 0 <= digits7 v.
Proof.
  unfold digits7. destruct (v <=? 0); [lia|].
  pose proof (Z.log2_nonneg v).
  assert (0 <= Z.log2 v / 7) by (apply Z.div_pos; lia). lia.
Qed.

Lemma groups7_digits7 (v : Z) : 0 <= v -> groups7 v = digits7 (Z.shiftr v 7) + 1.
Proof.
  intros Hv. unfold groups7. destruct (Z.eqb_spec v 0) as [->|Hne].
  - reflexivity.
  - rewrite <- digits7_step by lia. unfold digits7.
    destruct (Z.leb_spec v 0); [lia|reflexivity].
Qed.

Lemma varlen_loop_app (v : Z) (out rest : list Z) :
  varlen_loop v (out ++ rest) = varlen_loop v out ++ rest.
Proof.
  destruct (Z_le_gt_dec v 0) as [Hle|Hgt].
  - rewrite !(varlen_loop_eq v). destruct (Z.ltb_spec 0 v); [lia|reflexivity].
  - assert (Hv : 0 <= v) by lia. revert out.
    pattern v. apply Z_lt_induction; [|exact Hv]. clear v Hgt Hv.
    intros v IH out. rewrite !(varlen_loop_eq v).
    destruct (Z.ltb_spec 0 v) as [Hp|Hn]; [|reflexivity].
    rewrite app_comm_cons. apply IH. apply shiftr7_lt. exact Hp.
Qed.

Lemma read_varlen_loop (v : Z) :
  0 <= v -> forall acc out,
  read_varlen_from acc (varlen_loop v out) =
  read_varlen_from (acc * 128 ^ digits7 v + v) out.
Proof.
  intros Hv. pattern v. apply Zlt_0_ind; [|exact Hv]. clear v Hv.
  intros v IH Hv acc out. rewrite varlen_loop_eq.
  destruct (Z.ltb_spec 0 v) as [Hp|Hn].
  - pose proof (shiftr7_lt v Hp) as Hs.
    rewrite IH by lia. simpl read_varlen_from.
    rewrite continued_high_bit, continued_low7. simpl.
    f_equal. rewrite (digits7_step v Hp).
    rewrite Z.pow_add_r by (try apply digits7_nonneg; lia).
    pose proof (split7 v). lia.
  - assert (v = 0) as -> by lia. f_equal. unfold digits7. simpl. lia.
Qed.

Lemma group7_shiftr (v j : Z) :
  0 <= j -> group7 (Z.shiftr v 7) j = group7 v (j + 1).
Proof.
  intros Hj. unfold group7. rewrite Z.shiftr_shiftr by lia.
  do 2 f_equal. lia.
Qed.

Lemma seqZ_snoc (n : Z) : 0 <= n -> seqZ 0 (n + 1) = seqZ 0 n ++ [n].
Proof.
  intros Hn. rewrite seqZ_app by lia. reflexivity.
Qed.

Lemma varlen_loop_groups (v : Z) :
  0 <= v -> forall out,
  varlen_loop v out =
  map (fun i => Z.lor (group7 v (digits7 v - 1 - i)) 128) (seqZ 0 (digits7 v))
  ++ out.
Proof.
  intros Hv. pattern v. apply Zlt_0_ind; [|exact Hv]. clear v Hv.
  intros v IH Hv out. rewrite varlen_loop_eq.
  destruct (Z.ltb_spec 0 v) as [Hp|Hn].
  - pose proof (shiftr7_lt v Hp) as Hs.
    rewrite IH by lia. rewrite (digits7_step v Hp).
    pose proof (digits7_nonneg (Z.shiftr v 7)) as Hd.
    rewrite seqZ_snoc by exact Hd. rewrite map_app, <- app_assoc. simpl.
    f_equal.
    + apply map_ext_in. intros i Hi.
      apply list_elem_of_In, elem_of_seqZ in Hi.
      rewrite group7_shiftr by lia. do 2 f_equal. lia.
    + do 2 f_equal. unfold group7.
      replace (7 * (digits7 (Z.shiftr v 7) + 1 - 1 - digits7 (Z.shiftr v 7)))
        with 0 by lia.
      rewrite Z.shiftr_0_r. reflexivity.
  - assert (v = 0) as -> by lia. reflexivity.
Qed.

Lemma write_varlen_nonneg_eq (v : Z) :
  0 <= v -> write_varlen v = varlen_loop (Z.shiftr v 7) [Z.land v 127].
Proof. intros Hv. unfold write_varlen. rewrite Z.max_r by lia. reflexivity. Qed.

Lemma write_varlen_clamp (v : Z) : write_varlen v = write_varlen (Z.max 0 v).
Proof. unfold write_varlen. rewrite (Z.max_r 0 (Z.max 0 v)) by lia. reflexivity. Qed.

Lemma read_write_varlen (v : Z) (rest : list Z) :
  0 <= v -> read_varlen (write_varlen v ++ rest) = Some (v, rest).
Proof.
  intros Hv. rewrite write_varlen_nonneg_eq by exact Hv.
  rewrite <- varlen_loop_app. unfold read_varlen.
  assert (Hs : 0 <= Z.shiftr v 7) by (apply Z.shiftr_nonneg; exact Hv).
  rewrite read_varlen_loop by exact Hs. simpl.
  rewrite low7_high_bit, low7_idem. simpl.
  pose proof (split7 v). do 2 f_equal. lia.
Qed.

Lemma write_varlen_groups (v : Z) : 0 <= v -> write_varlen v = varlen_groups v.
Proof.
  intros Hv. rewrite write_varlen_nonneg_eq by exact Hv.
  assert (Hs : 0 <= Z.shiftr v 7) by (apply Z.shiftr_nonneg; exact Hv).
  rewrite varlen_loop_groups by exact Hs.
  unfold varlen_groups. rewrite (groups7_digits7 v Hv).
  pose proof (digits7_nonneg (Z.shiftr v 7)) as Hd.
  rewrite seqZ_snoc by exact Hd. rewrite map_app. simpl. f_equal.
  - apply map_ext_in. intros i Hi.
    apply list_elem_of_In, elem_of_seqZ in Hi.
    destruct (Z.ltb_spec i (digits7 (Z.shiftr v 7) + 1 - 1)); [|lia].
    rewrite group7_shiftr by lia. do 2 f_equal. lia.
  - destruct (Z.ltb_spec (digits7 (Z.shiftr v 7)) (digits7 (Z.shiftr v 7) + 1 - 1)); [lia|].
    f_equal. unfold group7.
    replace (7 * (digits7 (Z.shiftr v 7) + 1 - 1 - digits7 (Z.shiftr v 7)))
      with 0 by lia.
    rewrite Z.shiftr_0_r. reflexivity.
Qed.

Lemma length_varlen_groups (v : Z) :
  0 <= v -> Z.of_nat (length (varlen_groups v)) = groups7 v.
Proof.
  intros Hv. unfold varlen_groups. rewrite length_map, length_seqZ.
  rewrite (groups7_digits7 v Hv). pose proof (digits7_nonneg (Z.shiftr v 7)). lia.
Qed.

Lemma groups7_bounds (v : Z) :
  0 < v -> 128 ^ (groups7 v - 1) <= v < 128 ^ groups7 v.
Proof.
  intros Hv. unfold groups7. destruct (Z.eqb_spec v 0); [lia|].
  pose proof (Z.log2_spec v Hv) as [Hlo Hhi].
  pose proof (Z.log2_nonneg v) as Hnn.
  pose proof (Z.div_mod (Z.log2 v) 7 ltac:(lia)) as Hdm.
  pose proof (Z.mod_pos_bound (Z.log2 v) 7 ltac:(lia)) as Hmod.
  assert (Hq : 0 <= Z.log2 v / 7) by (apply Z.div_pos; lia).
  change 128 with (2 ^ 7). rewrite <- !Z.pow_mul_r by lia. split.
  - etransitivity; [|exact Hlo]. apply Z.pow_le_mono_r; lia.
  - eapply Z.lt_le_trans; [exact Hhi|]. apply Z.pow_le_mono_r; lia.
Qed.

Lemma app2_varlen_loop (v : Z) :
  0 <= v -> forall out,
  App2.varlen_loop (S (Z.to_nat (digits7 v))) v out = Some (varlen_loop v out).
Proof.
  intros Hv. pattern v. apply Zlt_0_ind; [|exact Hv]. clear v Hv.
  intros v IH Hv out. rewrite varlen_loop_eq.
  destruct (Z.ltb_spec 0 v) as [Hp|Hn].
  - pose proof (shiftr7_lt v Hp) as Hs.
    rewrite (digits7_step v Hp).
    pose proof (digits7_nonneg (Z.shiftr v 7)) as Hd.
    rewrite Z2Nat.inj_add by lia. change (Z.to_nat 1) with 1%nat.
    rewrite Nat.add_1_r. cbn [App2.varlen_loop].
    destruct (Z.eqb_spec v 0); [lia|]. apply IH. lia.
  - assert (v = 0) as -> by lia. reflexivity.
Qed.

Lemma app2_write_varlen (v : Z) :
  0 <= v -> App2.write_varlen (Z.to_nat (groups7 v)) v = Some (write_varlen v).
Proof.
  intros Hv. rewrite write_varlen_nonneg_eq by exact Hv.
  rewrite (groups7_digits7 v Hv).
  pose proof (digits7_nonneg (Z.shiftr v 7)) as Hd.
  rewrite Z2Nat.inj_add by lia. change (Z.to_nat 1) with 1%nat.
  rewrite Nat.add_1_r. unfold App2.write_varlen.
  apply app2_varlen_loop. apply Z.shiftr_nonneg. exact Hv.
Qed.

(** On a negative value the loop of [app2.py] never ends. *)
Lemma app2_varlen_loop_negative (fuel : nat) (v : Z) (out : list Z) :
  v < 0 -> App2.varlen_loop fuel v out = None.
Proof.
  revert v out. induction fuel as [|fuel IH]; intros v out Hv; [reflexivity|].
  simpl. destruct (Z.eqb_spec v 0); [lia|].
  apply IH. apply Z.shiftr_neg. exact Hv.
Qed.

(** ** [sorted] *)

Section SortedFacts.
Context {A : Type} (key : A -> Z).

Lemma insert_by_Permutation (x : A) (l : list A) :
  Permutation (insert_by key x l) (x :: l).
Proof.
  induction l as [|y l IH]; simpl; [reflexivity|].
  destruct (key x <=? key y); [reflexivity|].
  rewrite IH. apply perm_swap.
Qed.

Lemma sorted_Permutation (l : list A) : Permutation (sorted key l) l.
Proof.
  induction l as [|x l IH]; simpl; [reflexivity|].
  rewrite insert_by_Permutation, IH. reflexivity.
Qed.

Lemma insert_by_sorted (x : A) (l : list A) :
  StronglySorted (key_le key) l -> StronglySorted (key_le key) (insert_by key x l).
Proof.
  induction l as [|y l IH]; intros Hl; simpl.
  - repeat constructor.
  - inversion Hl as [|? ? Hl' Hy]; subst.
    destruct (Z.leb_spec (key x) (key y)) as [Hle|Hgt].
    + constructor; [exact Hl|]. constructor; [exact Hle|].
      eapply Forall_impl; [exact Hy|]. unfold key_le. simpl. intros; lia.
    + constructor; [apply IH; exact Hl'|].
      rewrite insert_by_Permutation. constructor; [unfold key_le; lia|exact Hy].
Qed.

Lemma sorted_sorted (l : list A) : StronglySorted (key_le key) (sorted key l).
Proof.
  induction l as [|x l IH]; simpl; [constructor|].
  apply insert_by_sorted. exact IH.
Qed.

(** Stability: the events of one key keep their order. *)
Lemma insert_by_filter (k : Z) (x : A) (l : list A) :
  filter (fun a => key a = k) (insert_by key x l) =
  filter (fun a => key a = k) (x :: l).
Proof.
  induction l as [|y l IH]; simpl; [reflexivity|].
  destruct (Z.leb_spec (key x) (key y)) as [Hle|Hgt]; [reflexivity|].
  rewrite !filter_cons in *. rewrite IH.
  destruct (decide (key y = k)), (decide (key x = k)); try reflexivity. lia.
Qed.

Lemma sorted_stable (k : Z) (l : list A) :
  filter (fun a => key a = k) (sorted key l) = filter (fun a => key a = k) l.
Proof.
  induction l as [|x l IH]; simpl; [reflexivity|].
  rewrite insert_by_filter, !filter_cons, IH. reflexivity.
Qed.

Lemma sorted_forallb (f : A -> bool) (l : list A) :
  forallb f (sorted key l) = forallb f l.
Proof.
  induction l as [|x l IH]; simpl; [reflexivity|]. rewrite <- IH.
  generalize (sorted key l). intros s.
  induction s as [|y s IHs]; simpl; [reflexivity|].
  destruct (key x <=? key y); simpl; [reflexivity|].
  rewrite IHs. destruct (f x), (f y); reflexivity.
Qed.
End SortedFacts.

Lemma ticks_sorted (events : list event) :
  StronglySorted Z.le (ticks (sorted fst events)).
Proof.
  unfold ticks. generalize (sorted_sorted fst events).
  generalize (sorted fst events). intros l Hl.
  induction Hl as [|x l Hl IH Hx]; simpl; constructor; [exact IH|].
  apply Forall_fmap. exact Hx.
Qed.

Lemma ticks_Permutation (events : list event) :
  Permutation (ticks (sorted fst events)) (ticks events).
Proof. unfold ticks. apply Permutation_map, sorted_Permutation. Qed.

(** ** [build_track] *)

Lemma varlen_loop_bytes (v : Z) (out : list Z) :
  forallb is_byte out = true -> forallb is_byte (varlen_loop v out) = true.
Proof.
  destruct (Z_le_gt_dec v 0) as [Hle|Hgt].
  - rewrite varlen_loop_eq. destruct (Z.ltb_spec 0 v); [lia|]. auto.
  - assert (Hv : 0 <= v) by lia. revert out.
    pattern v. apply Zlt_0_ind; [|exact Hv]. clear v Hgt Hv.
    intros v IH Hv out Hout. rewrite varlen_loop_eq.
    destruct (Z.ltb_spec 0 v) as [Hp|Hn]; [|exact Hout].
    apply IH; [apply shiftr7_lt; exact Hp|].
    simpl. rewrite Hout, andb_true_r.
    pose proof (continued_range v). unfold is_byte.
    apply andb_true_intro. split; [apply Z.leb_le|apply Z.ltb_lt]; lia.
Qed.

Lemma write_varlen_bytes (v : Z) : forallb is_byte (write_varlen v) = true.
Proof.
  unfold write_varlen. apply varlen_loop_bytes. simpl.
  rewrite andb_true_r. pose proof (land127_range (Z.max 0 v)). unfold is_byte.
  apply andb_true_intro. split; [apply Z.leb_le|apply Z.ltb_lt]; lia.
Qed.

Lemma extend_varlen (data : list Z) (v : Z) :
  extend data (write_varlen v) = Ok (data ++ write_varlen v).
Proof. unfold extend. rewrite write_varlen_bytes. reflexivity. Qed.

Lemma track_loop_ok (events : list event) :
  messages_ok events = true ->
  forall data last,
  for_each track_step events (data, last) =
  Ok (data ++ track_body last events, final_tick last events).
Proof.
  induction events as [|[tick msg] events IH]; intros Hok data last; simpl.
  - rewrite app_nil_r. reflexivity.
  - simpl in Hok. apply andb_prop in Hok as [Hmsg Hrest].
    rewrite extend_varlen. simpl. unfold extend at 1. rewrite Hmsg. simpl.
    rewrite IH by exact Hrest. rewrite <- !app_assoc. reflexivity.
Qed.

Lemma track_loop_raises (events : list event) :
  messages_ok events = false ->
  forall data last,
  for_each track_step events (data, last) = Raise ValueError.
Proof.
  induction events as [|[tick msg] events IH]; intros Hok data last; simpl.
  - discriminate.
  - simpl in Hok. rewrite extend_varlen. simpl. unfold extend at 1.
    destruct (forallb is_byte msg); simpl in *; [|reflexivity].
    apply IH. exact Hok.
Qed.

Lemma write_varlen_0 : write_varlen 0 = [0].
Proof. reflexivity. Qed.

(** [build_track] returns the body of the sorted events and the end of
    track marker, or raises [ValueError] when a message holds a value
    that is not a byte. *)
Lemma build_track_eq (events : list event) :
  build_track events =
  if messages_ok events
  then Ok (track_body 0 (sorted fst events) ++ [0; 255; 47; 0])
  else Raise ValueError.
Proof.
  unfold build_track.
  destruct (messages_ok events) eqn:Hok.
  - rewrite track_loop_ok by (unfold messages_ok; rewrite sorted_forallb; exact Hok).
    simpl. rewrite extend_varlen, write_varlen_0. simpl.
    unfold extend. simpl. rewrite <- app_assoc. reflexivity.
  - rewrite track_loop_raises by (unfold messages_ok; rewrite sorted_forallb; exact Hok).
    reflexivity.
Qed.

(** ** Delta times *)

Lemma running_sum_deltas (last : Z) (events : list event) :
  running_sum last (deltas_from last events) = ticks events.
Proof.
  revert last. induction events as [|[tick msg] events IH]; intros last; simpl.
  - reflexivity.
  - replace (last + (tick - last)) with tick by lia. rewrite IH. reflexivity.
Qed.

(** The body of a track is made of the delta times of [deltas_from]. *)
Lemma track_body_deltas (last : Z) (events : list event) :
  track_body last events =
  concat (zip_with (fun d e => write_varlen d ++ snd e)
                   (deltas_from last events) events).
Proof.
  revert last. induction events as [|[tick msg] events IH]; intros last; simpl.
  - reflexivity.
  - rewrite IH, <- app_assoc. reflexivity.
Qed.

Lemma deltas_nonneg (last : Z) (events : list event) :
  StronglySorted (key_le fst) events ->
  Forall (fun e => last <= fst e) events ->
  Forall (fun d => 0 <= d) (deltas_from last events).
Proof.
  intros Hs. revert last.
  induction Hs as [|[tick msg] events Hs IH Hx]; intros last Hlast; simpl.
  - constructor.
  - inversion Hlast as [|? ? Hhd Htl]; subst. simpl in Hhd.
    constructor; [lia|]. apply IH. exact Hx.
Qed.

Lemma deltas_tail_nonneg (last : Z) (events : list event) :
  StronglySorted (key_le fst) events ->
  Forall (fun d => 0 <= d) (tail (deltas_from last events)).
Proof.
  intros Hs. destruct Hs as [|[tick msg] events Hs Hx]; simpl.
  - constructor.
  - apply deltas_nonneg; assumption.
Qed.

Lemma read_track_body (events : list event) (rest : list Z) :
  forall last,
  Forall (fun d => 0 <= d) (deltas_from last events) ->
  read_deltas (map (fun e => length (snd e)) events)
              (track_body last events ++ rest)
  = Some (deltas_from last events).
Proof.
  induction events as [|[tick msg] events IH]; intros last Hd; simpl.
  - reflexivity.
  - simpl in Hd. inversion Hd as [|? ? Hhd Htl]; subst.
    rewrite <- !app_assoc. rewrite read_write_varlen by exact Hhd.
    rewrite drop_app_length. rewrite IH by exact Htl. reflexivity.
Qed.

(** ** Draws *)

Section Draws.
Context {R : PyRandom}.

Lemma randint_range (a b : Z) (g : rng) :
  a <= b -> a <= fst (randint a b g) <= b.
Proof.
  intros Hab. unfold randint.
  pose proof (randbelow_range (b - a + 1) g ltac:(lia)) as Hr.
  destruct (randbelow (b - a + 1) g) as [r g']. simpl in *. lia.
Qed.

Lemma choice_elem {A} (seq : list A) (g g' : rng) (x : A) :
  choice seq g = Ok (x, g') -> x ∈ seq.
Proof.
  unfold choice. destruct seq as [|y seq]; [discriminate|].
  destruct (randbelow _ g) as [i g1].
  destruct ((y :: seq) !! Z.to_nat i) as [z|] eqn:Hz; [|discriminate].
  intros [= <- <-]. eapply list_elem_of_lookup_2. exact Hz.
Qed.
End Draws.

Lemma getitem_elem {A} (l : list A) (i : Z) (x : A) :
  getitem l i = Ok x -> x ∈ l.
Proof.
  unfold getitem.
  destruct (_ && _); [|discriminate].
  destruct (l !! _) as [y|] eqn:Hy; [|discriminate].
  intros [= <-]. eapply list_elem_of_lookup_2. exact Hy.
Qed.

Lemma getitem_lookup {A} (l : list A) (i : Z) (x : A) :
  0 <= i -> getitem l i = Ok x -> l !! Z.to_nat i = Some x.
Proof.
  intros Hi. unfold getitem. destruct (Z.ltb_spec i 0); [lia|].
  destruct (_ && _); [|discriminate].
  destruct (l !! _) as [y|] eqn:Hy; [|discriminate].
  intros [= <-]. reflexivity.
Qed.

Lemma PPQN_quarter : PPQN / 4 = 120.
Proof. reflexivity. Qed.

Lemma elem_of_range (n i : Z) : i ∈ range n <-> 0 <= i < n.
Proof. unfold range. rewrite elem_of_seqZ. lia. Qed.

(** ** The shape of what each generator appends *)

Section Shapes.
Context {R : PyRandom}.

Lemma chord_note_shape (p : SongParams) (st et n : Z)
    (g g' : rng) (ev ev' : list event) :
  chord_note p st et (g, ev) n = Ok (g', ev') ->
  exists stagger jitter vel,
    0 <= stagger <= 40 /\ -5 <= jitter <= 5 /\
    chord_velocity (energy p) jitter = Ok vel /\
    ev' = ev ++ [(st + stagger, [144; n; vel]); (et - 100, [128; n; 0])].
Proof.
  unfold chord_note.
  pose proof (randint_range 0 40 g ltac:(lia)) as Hs.
  destruct (randint 0 40 g) as [stagger g1].
  pose proof (randint_range (-5) 5 g1 ltac:(lia)) as Hj.
  destruct (randint (-5) 5 g1) as [jitter g2].
  fold (chord_velocity (energy p) jitter).
  destruct (chord_velocity (energy p) jitter) as [vel|e] eqn:Hv; [|discriminate].
  simpl. intros [= <- <-]. exists stagger, jitter, vel. auto.
Qed.

Lemma melody_step_shape (ls ct : list Z) (base i hit : Z)
    (g g' : rng) (ev ev' : list event) :
  melody_step ls ct base (g, ev) (i, hit) = Ok (g', ev') ->
  (hit = 0 /\ ev' = ev) \/
  exists note shift accent stretch,
    note ∈ ls /\ -20 <= shift <= 20 /\ -10 <= accent <= 10 /\
    -50 <= stretch <= 50 /\
    ev' = ev ++
      [(base + i * 120 + shift,
        [145; note;
         (if i =? 0 then 100 else if i mod 4 =? 0 then 85 else 70) + accent]);
       (base + i * 120 + shift + (120 + stretch), [129; note; 0])].
Proof.
  unfold melody_step. rewrite PPQN_quarter.
  destruct (Z.eqb_spec hit 0) as [->|Hhit].
  { intros [= <- <-]. left. auto. }
  intros Hrun. right.
  destruct (if i mod 4 =? 0 then (true, g)
            else let '(x, g0) := random g in (flt x (float_lit 7 10), g0))
    as [on_chord g1].
  destruct (if on_chord then choice ct g1 else choice (range 7) g1)
    as [[deg g2]|e] eqn:Hc; [|discriminate].
  simpl in Hrun.
  destruct (getitem ls deg) as [note|e] eqn:Hn; [|discriminate].
  simpl in Hrun.
  pose proof (randint_range (-20) 20 g2 ltac:(lia)) as Hs.
  destruct (randint (-20) 20 g2) as [shift g3].
  pose proof (randint_range (-10) 10 g3 ltac:(lia)) as Ha.
  destruct (randint (-10) 10 g3) as [accent g4].
  pose proof (randint_range (-50) 50 g4 ltac:(lia)) as Hd.
  destruct (randint (-50) 50 g4) as [stretch g5].
  injection Hrun as <- <-.
  exists note, shift, accent, stretch.
  split; [eapply getitem_elem; exact Hn|]. auto.
Qed.

Lemma drum_step_shape (bs i : Z) (g : rng) (dr : list event) :
  exists hat,
    snd (drum_step bs (g, dr) i) =
      dr ++ kick (bs + i * 120) i ++ snare (bs + i * 120) i ++ hat /\
    (hat = [] \/
     exists jitter, -5 <= jitter <= 5 /\
       hat = [(bs + i * 120,
               [153; 42; (if i mod 4 =? 0 then 90 else 65) + jitter]);
              (bs + i * 120 + 60, [137; 42; 0])]).
Proof.
  unfold drum_step, kick, snare. rewrite PPQN_quarter.
  destruct (i mod 2 =? 0).
  - pose proof (randint_range (-5) 5 g ltac:(lia)) as Hj.
    destruct (randint (-5) 5 g) as [jitter g1]. simpl.
    eexists. split; [|right; exists jitter; split; [exact Hj|reflexivity]].
    destruct ((i =? 0) || (i =? 8)), ((i =? 4) || (i =? 12));
      simpl; rewrite <- ?app_assoc; reflexivity.
  - exists []. split; [|left; reflexivity]. simpl.
    destruct ((i =? 0) || (i =? 8)), ((i =? 4) || (i =? 12));
      simpl; rewrite <- ?app_assoc, ?app_nil_r; reflexivity.
Qed.
End Shapes.

(** ** Chunks *)

(** When every turn appends to a part [proj] of the state a chunk that
    [Rel] relates to the item, the loop appends one chunk per item. *)
Lemma for_each_chunks {A S B} (body : S -> A -> result S) (proj : S -> list B)
    (Rel : A -> list B -> Prop) (xs : list A) :
  (forall s x s1, x ∈ xs -> body s x = Ok s1 ->
     exists c, Rel x c /\ proj s1 = proj s ++ c) ->
  forall s s', for_each body xs s = Ok s' ->
  exists chunks, Forall2 Rel xs chunks /\ proj s' = proj s ++ concat chunks.
Proof.
  induction xs as [|x xs IH]; intros Hstep s s' Hrun; simpl in Hrun.
  - injection Hrun as <-. exists []. split; [constructor|].
    simpl. rewrite app_nil_r. reflexivity.
  - destruct (body s x) as [s1|e] eqn:Hb; simpl in Hrun; [|discriminate].
    destruct (Hstep s x s1 (list_elem_of_here _ _) Hb) as (c & Hc & Hp).
    destruct (IH (fun s0 y s2 Hy => Hstep s0 y s2 (list_elem_of_further _ _ _ Hy))
                 s1 s' Hrun) as (chunks & Hchunks & Hp').
    exists (c :: chunks). split; [constructor; assumption|].
    rewrite Hp', Hp. simpl. rewrite <- app_assoc. reflexivity.
Qed.

Lemma foldl_chunks {A S B} (body : S -> A -> S) (proj : S -> list B)
    (Rel : A -> list B -> Prop) (xs : list A) :
  (forall s x, x ∈ xs -> exists c, Rel x c /\ proj (body s x) = proj s ++ c) ->
  forall s,
  exists chunks, Forall2 Rel xs chunks /\
                 proj (foldl body s xs) = proj s ++ concat chunks.
Proof.
  induction xs as [|x xs IH]; intros Hstep s; simpl.
  - exists []. split; [constructor|]. simpl. rewrite app_nil_r. reflexivity.
  - destruct (Hstep s x (list_elem_of_here _ _)) as (c & Hc & Hp).
    destruct (IH (fun s0 y Hy => Hstep s0 y (list_elem_of_further _ _ _ Hy))
                 (body s x)) as (chunks & Hchunks & Hp').
    exists (c :: chunks). split; [constructor; assumption|].
    rewrite Hp', Hp. simpl. rewrite <- app_assoc. reflexivity.
Qed.

Lemma Forall_chunks {A B} (Rel : A -> list B -> Prop) (P : B -> Prop)
    (xs : list A) (chunks : list (list B)) :
  Forall2 Rel xs chunks ->
  (forall x c, x ∈ xs -> Rel x c -> Forall P c) ->
  Forall P (concat chunks).
Proof.
  induction 1 as [|x c xs chunks Hc _ IH]; intros HP; simpl; [constructor|].
  apply Forall_app. split.
  - apply (HP x c); [left|exact Hc].
  - apply IH. intros y d Hy. apply HP. right. exact Hy.
Qed.

(** The [i]-th chunk of a concatenation of chunks of [n] items. *)
Lemma concat_chunk {B} (n : nat) (chunks : list (list B)) :
  Forall (fun c => length c = n) chunks ->
  forall i c, chunks !! i = Some c ->
  take n (drop (n * i) (concat chunks)) = c.
Proof.
  induction 1 as [|c0 chunks Hlen _ IH]; intros i c Hi; [discriminate|].
  destruct i as [|i]; simpl in *.
  - injection Hi as <-. rewrite Nat.mul_0_r. simpl.
    apply take_app_length'. symmetry. exact Hlen.
  - rewrite Nat.mul_succ_r, Nat.add_comm.
    rewrite drop_app_add' by (symmetry; exact Hlen).
    apply IH. exact Hi.
Qed.

(** ** The theory engine *)

Lemma roman_mapping_range (k : string) (v : Z) :
  roman_mapping !! k = Some v -> 0 <= v <= 6.
Proof.
  intros Hk.
  assert (Hall : map_Forall (fun _ v => 0 <= v <= 6) roman_mapping).
  { apply (bool_decide_unpack _). vm_compute. exact I. }
  exact (Hall k v Hk).
Qed.

Lemma roman_to_degree_range (roman : string) : 0 <= roman_to_degree roman <= 6.
Proof.
  unfold roman_to_degree.
  destruct (roman_mapping !! _) as [v|] eqn:Hv; simpl.
  - eapply roman_mapping_range. exact Hv.
  - lia.
Qed.

Lemma build_scale_range (root_note mode : string) (octave : Z) (scale : list Z) :
  build_scale root_note mode octave = Ok scale ->
  exists root, midi_note root_note octave = Ok root /\
               length scale = 7%nat /\
               Forall (fun n => root <= n <= root + 11) scale.
Proof.
  unfold build_scale.
  destruct (midi_note root_note octave) as [root|e]; [|discriminate].
  simpl. intros [= <-]. exists root. split; [reflexivity|].
  destruct (String.eqb _ _); simpl; (split; [reflexivity|]);
    repeat constructor; lia.
Qed.

(** ** What the generators emit *)

Lemma for_each_items {A S B} (body : S -> A -> result S) (proj : S -> list B)
    (Rel : A -> B -> Prop) (xs : list A) :
  (forall s x s1, x ∈ xs -> body s x = Ok s1 ->
     exists y, Rel x y /\ proj s1 = proj s ++ [y]) ->
  forall s s', for_each body xs s = Ok s' ->
  exists ys, Forall2 Rel xs ys /\ proj s' = proj s ++ ys.
Proof.
  induction xs as [|x xs IH]; intros Hstep s s' Hrun; simpl in Hrun.
  - injection Hrun as <-. exists []. split; [constructor|].
    rewrite app_nil_r. reflexivity.
  - destruct (body s x) as [s1|e] eqn:Hb; simpl in Hrun; [|discriminate].
    destruct (Hstep s x s1 (list_elem_of_here _ _) Hb) as (y & Hy & Hp).
    destruct (IH (fun s0 z s2 Hz => Hstep s0 z s2 (list_elem_of_further _ _ _ Hz))
                 s1 s' Hrun) as (ys & Hys & Hp').
    exists (y :: ys). split; [constructor; assumption|].
    rewrite Hp', Hp, <- app_assoc. reflexivity.
Qed.

Section Emitted.
Context {R : PyRandom}.

Lemma chord_bar_shape (p : SongParams) (bt : Z) (scale : list Z)
    (tokens : list string) (bar : Z) (g g' : rng) (ev ev' : list event)
    (degs degs' : list (list Z)) :
  0 <= bar ->
  chord_bar p bt scale tokens (g, ev, degs) bar = Ok (g', ev', degs') ->
  (exists c, chord_bar_events p bt scale tokens bar c /\ ev' = ev ++ c) /\
  (exists d, chord_bar_degs tokens bar d /\ degs' = degs ++ [d]).
Proof.
  intros Hbar. unfold chord_bar.
  destruct (Z.eqb_spec (Z.of_nat (length tokens)) 0) as [|Hlen]; [discriminate|].
  destruct (getitem tokens _) as [token|e] eqn:Htok; [|discriminate].
  cbn [Py.bind for_each].
  assert (Hm : 0 <= bar mod Z.of_nat (length tokens))
    by (apply Z.mod_pos_bound; lia).
  apply (getitem_lookup _ _ _ Hm) in Htok.
  pose proof (roman_to_degree_range token) as Hr.
  set (r := roman_to_degree token) in *.
  rewrite (Z.mod_small r 7) by lia.
  pose proof (Z.mod_pos_bound (r + 2) 7 ltac:(lia)) as H1.
  pose proof (Z.mod_pos_bound (r + 4) 7 ltac:(lia)) as H2.
  destruct (getitem scale r) as [n0|e] eqn:Hn0; [|discriminate]. cbn [Py.bind for_each].
  destruct (getitem scale ((r + 4) mod 7)) as [n2|e] eqn:Hn2; [|discriminate].
  cbn [Py.bind for_each].
  destruct (getitem scale ((r + 2) mod 7)) as [n1|e] eqn:Hn1; [|discriminate].
  cbn [Py.bind for_each].
  apply getitem_lookup in Hn0, Hn1, Hn2; try lia.
  destruct (chord_note p (bar * bt) ((bar + 1) * bt) (g, ev) n0) as [[g1 ev1]|e] eqn:E0; [|discriminate].
  cbn [Py.bind for_each].
  destruct (chord_note p (bar * bt) ((bar + 1) * bt) (g1, ev1) n2) as [[g2 ev2]|e] eqn:E1; [|discriminate].
  cbn [Py.bind for_each].
  destruct (chord_note p (bar * bt) ((bar + 1) * bt) (g2, ev2) (n1 + 12)) as [[g3 ev3]|e] eqn:E2;
    [|discriminate].
  cbn [Py.bind for_each]. intros [= <- <- <-].
  assert (Hc0 : exists c0, chord_note_events p (bar * bt) ((bar + 1) * bt) n0 c0
                           /\ ev1 = ev ++ c0).
  { apply chord_note_shape in E0 as (s & j & v & ? & ? & ? & ->).
    eexists. split; [exists s, j, v; eauto|reflexivity]. }
  assert (Hc1 : exists c1, chord_note_events p (bar * bt) ((bar + 1) * bt) n2 c1
                           /\ ev2 = ev1 ++ c1).
  { apply chord_note_shape in E1 as (s & j & v & ? & ? & ? & ->).
    eexists. split; [exists s, j, v; eauto|reflexivity]. }
  assert (Hc2 : exists c2,
             chord_note_events p (bar * bt) ((bar + 1) * bt) (n1 + 12) c2
             /\ ev3 = ev2 ++ c2).
  { apply chord_note_shape in E2 as (s & j & v & ? & ? & ? & ->).
    eexists. split; [exists s, j, v; eauto|reflexivity]. }
  destruct Hc0 as (c0 & Hc0 & ->), Hc1 as (c1 & Hc1 & ->),
           Hc2 as (c2 & Hc2 & ->).
  split.
  - exists (c0 ++ c1 ++ c2). split; [|rewrite <- !app_assoc; reflexivity].
    exists token, n0, n1, n2, c0, c1, c2. unfold bar_token. auto 10.
  - exists (triad r). split; [|reflexivity].
    exists token. unfold bar_token. auto.
Qed.

(** [make_chords] emits, bar after bar, the six events of the chord of
    the bar and its triad. *)
Lemma make_chords_shape (p : SongParams) (bt : Z) (ev : list event)
    (degs : list (list Z)) :
  make_chords p bt = Ok (ev, degs) ->
  exists scale chunks,
    build_scale (key p) (mode p) (chord_octave p) = Ok scale /\
    Forall2 (chord_bar_events p bt scale
               (progression_tokens (progression p))) (range (bars p)) chunks /\
    ev = concat chunks /\
    Forall2 (chord_bar_degs (progression_tokens (progression p)))
            (range (bars p)) degs.
Proof.
  unfold make_chords.
  destruct (build_scale _ _ _) as [scale|e] eqn:Hscale; [|discriminate].
  cbn [Py.bind].
  set (tokens := progression_tokens (progression p)).
  destruct (for_each _ _ _) as [[[g' ev'] degs']|e] eqn:Hloop; [|discriminate].
  cbn [Py.bind]. intros [= <- <-]. exists scale.
  assert (Hev : forall s x s1, x ∈ range (bars p) ->
            chord_bar p bt scale tokens s x = Ok s1 ->
            exists c, chord_bar_events p bt scale tokens x c /\
                      snd (fst s1) = snd (fst s) ++ c).
  { intros [[g0 ev0] d0] bar [[g1 ev1] d1] Hin Hstep.
    apply elem_of_range in Hin.
    apply chord_bar_shape in Hstep as [H _]; [exact H|lia]. }
  assert (Hdg : forall s x s1, x ∈ range (bars p) ->
            chord_bar p bt scale tokens s x = Ok s1 ->
            exists d, chord_bar_degs tokens x d /\ snd s1 = snd s ++ [d]).
  { intros [[g0 ev0] d0] bar [[g1 ev1] d1] Hin Hstep.
    apply elem_of_range in Hin.
    apply chord_bar_shape in Hstep as [_ H]; [exact H|lia]. }
  destruct (for_each_chunks _ _ _ _ Hev _ _ Hloop) as (chunks & Hchunks & Hev').
  destruct (for_each_items _ _ _ _ Hdg _ _ Hloop) as (ds & Hds & Hdegs).
  simpl in Hev', Hdegs. subst. exists chunks. auto.
Qed.

Lemma melody_bar_shape (bt : Z) (ls : list Z) (degs : list (list Z))
    (bar : Z) (g g' : rng) (ev ev' : list event) :
  melody_bar bt ls degs (g, ev) bar = Ok (g', ev') ->
  exists c, melody_bar_events bt ls bar c /\ ev' = ev ++ c.
Proof.
  unfold melody_bar.
  destruct (getitem degs bar) as [ct|e0]; [|discriminate].
  cbn [Py.bind]. intros Hloop.
  assert (Hst : forall s x s1, x ∈ enumerate rhythm ->
            melody_step ls ct (bar * bt) s x = Ok s1 ->
            exists c, melody_step_events ls (bar * bt) x c /\
                      snd s1 = snd s ++ c).
  { intros [g2 ev2] [i hit] [g3 ev3] _ Hs.
    apply melody_step_shape in Hs
      as [[-> ->]|(n & sh & a & st & ? & ? & ? & ? & ->)].
    - exists []. split; [left; auto|simpl; rewrite app_nil_r; reflexivity].
    - eexists. split; [right; exists n, sh, a, st; simpl; eauto 10|reflexivity]. }
  destruct (for_each_chunks _ _ _ _ Hst _ _ Hloop) as (cs & Hcs & Hp).
  exists (concat cs). split; [exists cs; auto|exact Hp].
Qed.

Lemma make_melody_shape (p : SongParams) (degs : list (list Z)) (bt : Z)
    (ev : list event) :
  make_melody p degs bt = Ok ev ->
  exists ls chunks,
    build_scale (key p) (mode p) (melody_octave p) = Ok ls /\
    Forall2 (melody_bar_events bt ls) (range (bars p)) chunks /\
    ev = concat chunks.
Proof.
  unfold make_melody.
  destruct (build_scale _ _ _) as [ls|e] eqn:Hscale; [|discriminate].
  cbn [Py.bind].
  destruct (for_each _ _ _) as [[g' ev']|e] eqn:Hloop; [|discriminate].
  cbn [Py.bind]. intros [= <-]. exists ls.
  assert (Hst : forall s x s1, x ∈ range (bars p) ->
            melody_bar bt ls degs s x = Ok s1 ->
            exists c, melody_bar_events bt ls x c /\ snd s1 = snd s ++ c).
  { intros [g0 ev0] bar [g1 ev1] _ Hs.
    apply melody_bar_shape in Hs. exact Hs. }
  destruct (for_each_chunks _ _ _ _ Hst _ _ Hloop) as (chunks & Hchunks & Hev).
  simpl in Hev. subst. exists chunks. auto.
Qed.

Lemma drum_bar_shape (bt bar : Z) (s : rng * list event) :
  exists c, drum_bar_events bt bar c /\ snd (drum_bar bt s bar) = snd s ++ c.
Proof.
  unfold drum_bar.
  assert (Hst : forall (s : rng * list event) x, x ∈ range 16 ->
            exists c, drum_step_events (bar * bt) x c /\
                      snd (drum_step (bar * bt) s x) = snd s ++ c).
  { intros [g1 dr1] i _.
    destruct (drum_step_shape (bar * bt) i g1 dr1) as (hat & Heq & Hhat).
    eexists. split; [exists hat; split; [reflexivity|exact Hhat]|exact Heq]. }
  destruct (foldl_chunks _ _ _ _ Hst s) as (cs & Hcs & Hp).
  exists (concat cs). split; [exists cs; auto|exact Hp].
Qed.

Lemma make_drums_shape (p : SongParams) (bt : Z) :
  exists chunks,
    Forall2 (drum_bar_events bt) (range (bars p)) chunks /\
    make_drums p bt = concat chunks.
Proof.
  unfold make_drums.
  destruct (foldl_chunks (drum_bar bt) (fun s => snd s) (drum_bar_events bt)
              (range (bars p))
              (fun s x _ => drum_bar_shape bt x s)
              (Random (seed p + 999), [])) as (chunks & Hchunks & Hdr).
  exists chunks. split; [exact Hchunks|exact Hdr].
Qed.
End Emitted.

(** ** Ticks of the emitted events *)

Lemma Forall2_right {A B} (Rel : A -> B -> Prop) (Q : B -> Prop)
    (xs : list A) (ys : list B) :
  Forall2 Rel xs ys -> (forall x y, x ∈ xs -> Rel x y -> Q y) -> Forall Q ys.
Proof.
  induction 1 as [|x y xs ys Hxy _ IH]; intros HQ; constructor.
  - apply (HQ x y); [left|exact Hxy].
  - apply IH. intros x' y' Hx'. apply HQ. right. exact Hx'.
Qed.

Lemma enumerate_rhythm :
  enumerate rhythm =
  [(0, 1); (1, 0); (2, 0); (3, 1); (4, 0); (5, 1); (6, 0); (7, 0);
   (8, 1); (9, 0); (10, 0); (11, 1); (12, 0); (13, 0); (14, 0); (15, 0)].
Proof. reflexivity. Qed.

Lemma enumerate_rhythm_index (ih : Z * Z) :
  ih ∈ enumerate rhythm -> 0 <= fst ih < 16.
Proof.
  rewrite enumerate_rhythm. intros H.
  repeat (apply elem_of_cons in H as [->|H]; [simpl; lia|]).
  apply elem_of_nil in H. destruct H.
Qed.

Lemma chord_note_ticks (p : SongParams) (st et n : Z) (c : list event) :
  chord_note_events p st et n c -> 0 <= st -> 100 <= et ->
  Forall (tick_from 0) c.
Proof.
  intros (s & j & v & Hs & _ & _ & ->) Hst Het.
  repeat constructor; unfold tick_from; simpl; lia.
Qed.

Lemma chord_bar_ticks (p : SongParams) (bt : Z) (scale : list Z)
    (tokens : list string) (bar : Z) (c : list event) :
  chord_bar_events p bt scale tokens bar c -> 0 <= bar -> 100 <= bt ->
  Forall (tick_from 0) c.
Proof.
  intros (tok & n0 & n1 & n2 & c0 & c1 & c2 & _ & _ & _ & _ & H0 & H1 & H2 & ->)
         Hbar Hbt.
  rewrite !Forall_app. repeat split;
    (eapply chord_note_ticks; [eassumption|nia|nia]).
Qed.

Lemma melody_step_ticks (ls : list Z) (base : Z) (ih : Z * Z) (c : list event)
    (lo : Z) :
  melody_step_events ls base ih c ->
  lo <= base + fst ih * 120 - 20 -> lo <= base + fst ih * 120 + 50 ->
  Forall (tick_from lo) c.
Proof.
  intros [[_ ->]|(n & sh & a & st & _ & Hsh & _ & Hst & ->)] H1 H2.
  - constructor.
  - repeat constructor; unfold tick_from; simpl; lia.
Qed.

Lemma melody_bar_ticks (bt : Z) (ls : list Z) (bar : Z) (c : list event) (lo : Z) :
  melody_bar_events bt ls bar c -> lo <= bar * bt - 20 ->
  Forall (tick_from lo) c.
Proof.
  intros (chunks & Hchunks & ->) Hlo.
  eapply Forall_chunks; [exact Hchunks|].
  intros ih c Hin Hc. apply enumerate_rhythm_index in Hin.
  eapply melody_step_ticks; [exact Hc|lia|lia].
Qed.

(** In the first bar, the events after the first one are not before
    tick 0. *)
Lemma melody_first_bar_ticks (bt : Z) (ls : list Z) (c : list event) :
  melody_bar_events bt ls 0 c ->
  Forall (tick_from (-20)) c /\ Forall (tick_from 0) (tail c).
Proof.
  intros Hc. split; [eapply melody_bar_ticks; [exact Hc|lia]|].
  destruct Hc as (chunks & Hchunks & ->).
  rewrite enumerate_rhythm in Hchunks.
  apply Forall2_cons_inv_l in Hchunks as (k0 & ks & Hk0 & Hks & ->).
  assert (Hrest : Forall (tick_from 0) (concat ks)).
  { eapply Forall_chunks; [exact Hks|].
    intros ih c Hin Hc.
    assert (1 <= fst ih).
    { repeat (apply elem_of_cons in Hin as [->|Hin]; [simpl; lia|]).
      apply elem_of_nil in Hin. destruct Hin. }
    eapply melody_step_ticks; [exact Hc|lia|lia]. }
  destruct Hk0 as [[Hhit _]|(n & sh & a & st & _ & Hsh & _ & Hst & ->)].
  - simpl in Hhit. lia.
  - simpl. constructor; [unfold tick_from; simpl; lia|exact Hrest].
Qed.

Lemma drum_step_ticks (bs i : Z) (c : list event) :
  drum_step_events bs i c -> 0 <= bs -> 0 <= i -> Forall (tick_from 0) c.
Proof.
  intros (hat & -> & Hhat) Hbs Hi. unfold kick, snare.
  rewrite !Forall_app. repeat split.
  - destruct (_ || _); repeat constructor; unfold tick_from; simpl; lia.
  - destruct (_ || _); repeat constructor; unfold tick_from; simpl; lia.
  - destruct Hhat as [->|(j & _ & ->)];
      repeat constructor; unfold tick_from; simpl; lia.
Qed.

Section EmittedTicks.
Context {R : PyRandom}.

Lemma make_chords_ticks (p : SongParams) (bt : Z) (ev : list event)
    (degs : list (list Z)) :
  make_chords p bt = Ok (ev, degs) -> 100 <= bt -> Forall (tick_from 0) ev.
Proof.
  intros Hrun Hbt.
  apply make_chords_shape in Hrun as (scale & chunks & _ & Hchunks & -> & _).
  eapply Forall_chunks; [exact Hchunks|].
  intros bar c Hin Hc. apply elem_of_range in Hin.
  eapply chord_bar_ticks; [exact Hc|lia|lia].
Qed.

Lemma make_drums_ticks (p : SongParams) (bt : Z) :
  0 <= bt -> Forall (tick_from 0) (make_drums p bt).
Proof.
  intros Hbt. destruct (make_drums_shape p bt) as (chunks & Hchunks & ->).
  eapply Forall_chunks; [exact Hchunks|].
  intros bar c Hin (cs & Hcs & ->). apply elem_of_range in Hin.
  eapply Forall_chunks; [exact Hcs|].
  intros i c Hi Hc. apply elem_of_range in Hi.
  eapply drum_step_ticks; [exact Hc|nia|lia].
Qed.

Lemma make_melody_ticks (p : SongParams) (degs : list (list Z)) (bt : Z)
    (ev : list event) :
  make_melody p degs bt = Ok ev -> 20 <= bt ->
  Forall (tick_from (-20)) ev /\ Forall (tick_from 0) (tail ev).
Proof.
  intros Hrun Hbt.
  apply make_melody_shape in Hrun as (ls & chunks & _ & Hchunks & ->).
  unfold range in Hchunks.
  destruct (Z_le_gt_dec (bars p) 0) as [Hle|Hgt].
  - rewrite seqZ_nil in Hchunks by lia.
    apply Forall2_nil_inv_l in Hchunks as ->. simpl. split; constructor.
  - rewrite seqZ_cons in Hchunks by lia.
    apply Forall2_cons_inv_l in Hchunks as (c0 & cs & Hc0 & Hcs & ->).
    assert (Hrest : Forall (tick_from 0) (concat cs)).
    { eapply Forall_chunks; [exact Hcs|].
      intros bar c Hin Hc. apply elem_of_seqZ in Hin.
      eapply melody_bar_ticks; [exact Hc|nia]. }
    apply melody_first_bar_ticks in Hc0 as [Hall Htail]. simpl. split.
    + apply Forall_app. split; [exact Hall|].
      eapply Forall_impl; [exact Hrest|]. unfold tick_from. intros; lia.
    + destruct c0 as [|e0 c0]; simpl in *.
      * destruct (concat cs) as [|e1 rest]; simpl; [constructor|].
        inversion Hrest; assumption.
      * apply Forall_app. split; assumption.
Qed.
End EmittedTicks.

(** ** Pitch and velocity of the emitted events *)







(** ** The assembled file *)

Lemma big_endian_bytes (len : nat) (n : Z) :
  forallb is_byte (big_endian len n) = true.
Proof.
  induction len as [|len IH]; simpl; [reflexivity|]. rewrite IH, andb_true_r.
  change 255 with (Z.ones 8). rewrite Z.land_ones by lia.
  pose proof (Z.mod_pos_bound (Z.shiftr n (8 * Z.of_nat len)) (2 ^ 8) ltac:(lia)).
  unfold is_byte. apply andb_true_intro.
  split; [apply Z.leb_le|apply Z.ltb_lt]; change 256 with (2 ^ 8); lia.
Qed.

Lemma to_bytes_ok (n : Z) (len : nat) (bs : list Z) :
  to_bytes n len = Ok bs ->
  bs = big_endian len n /\ forallb is_byte bs = true.
Proof.
  unfold to_bytes. destruct (_ && _); [|discriminate].
  intros [= <-]. split; [reflexivity|apply big_endian_bytes].
Qed.

Section Assembled.
Context {R : PyRandom}.

Lemma midi_note_ok (note_name : string) (octave semi : Z) :
  NOTE_TO_SEMI !! note_name = Some semi ->
  midi_note note_name octave = Ok (12 * (octave + 1) + semi).
Proof. unfold midi_note. intros ->. reflexivity. Qed.

Lemma build_scale_ok (note_name mode : string) (octave semi : Z) :
  NOTE_TO_SEMI !! note_name = Some semi ->
  exists scale, build_scale note_name mode octave = Ok scale.
Proof.
  intros H. unfold build_scale. rewrite (midi_note_ok _ _ _ H).
  cbn [Py.bind]. eauto.
Qed.



End Assembled.

(** ** Rounding

    What the velocity expression needs of binary64 arithmetic: rounding
    to nearest keeps a value between two integers that it lies
    between. *)

Lemma shr_1_state (m0 k : Z) (r : shr_record) :
  0 <= m0 -> 0 <= k -> shr_state m0 k r -> shr_state m0 (k + 1) (shr_1 r).
Proof.
  intros Hm0 Hk [Hq Hb].
  assert (Hpow : 0 < 2 ^ k) by (apply Z.pow_pos_nonneg; lia).
  assert (Hq' : m0 / 2 ^ (k + 1) = (m0 / 2 ^ k) / 2).
  { rewrite Z.pow_add_r by lia. rewrite Z.div_div by lia. reflexivity. }
  assert (Hr' : m0 mod 2 ^ (k + 1) = m0 mod 2 ^ k + 2 ^ k * ((m0 / 2 ^ k) mod 2)).
  { rewrite Z.pow_add_r by lia. apply Z.rem_mul_r; lia. }
  pose proof (Z.mod_pos_bound m0 (2 ^ k) Hpow) as Hmod.
  assert (Hnn : 0 <= m0 / 2 ^ k) by (apply Z.div_pos; lia).
  destruct r as [m r s]. simpl in *. subst m.
  unfold shr_state. rewrite Hq', Hr'.
  destruct (m0 / 2 ^ k) as [|[p|p|]|p] eqn:Hm; simpl; try lia.
  - split; [reflexivity|]. rewrite Zmod_0_l. rewrite Hb. lia.
  - split; [rewrite Pos2Z.inj_xI; apply Z.div_unique with 1; lia|].
    replace (Z.pos p~1 mod 2) with 1
      by (rewrite Pos2Z.inj_xI; apply Z.mod_unique with (Z.pos p); lia).
    split; [discriminate|nia].
  - split; [rewrite Pos2Z.inj_xO; apply Z.div_unique with 0; lia|].
    replace (Z.pos p~0 mod 2) with 0
      by (rewrite Pos2Z.inj_xO; apply Z.mod_unique with (Z.pos p); lia).
    rewrite Hb. lia.
  - split; [reflexivity|]. split; [discriminate|].
    change (1 mod 2) with 1. nia.
Qed.

Lemma iter_pos_shr_state (m0 : Z) (p : positive) :
  0 <= m0 ->
  forall k r, 0 <= k -> shr_state m0 k r ->
  shr_state m0 (k + Z.pos p) (SpecFloat.iter_pos shr_1 p r).
Proof.
  intros Hm0. induction p as [p IH|p IH|]; intros k r Hk Hr; simpl.
  - replace (k + Z.pos p~1) with (k + 1 + Z.pos p + Z.pos p)
      by (rewrite Pos2Z.inj_xI; lia).
    apply IH; [lia|]. apply IH; [lia|]. apply shr_1_state; assumption.
  - replace (k + Z.pos p~0) with (k + Z.pos p + Z.pos p)
      by (rewrite Pos2Z.inj_xO; lia).
    apply IH; [lia|]. apply IH; assumption.
  - apply shr_1_state; assumption.
Qed.

Lemma loc_exact_iff (r : shr_record) :
  loc_of_shr_record r = loc_Exact <-> orb (shr_r r) (shr_s r) = false.
Proof. destruct r as [m [|] [|]]; simpl; split; congruence. Qed.

(** [shr_fexp] on an exact mantissa: a right shift by [n] bits, up to
    the exponent of the format. *)
Lemma shr_fexp_exact (m e : Z) :
  0 <= m ->
  exists n,
    0 <= n /\
    e + n = Z.max e (fexp prec emax (Zdigits2 m + e)) /\
    snd (shr_fexp prec emax m e loc_Exact) = e + n /\
    shr_m (fst (shr_fexp prec emax m e loc_Exact)) = m / 2 ^ n /\
    (loc_of_shr_record (fst (shr_fexp prec emax m e loc_Exact)) = loc_Exact
     <-> m mod 2 ^ n = 0).
Proof.
  intros Hm. unfold shr_fexp, shr. simpl shr_record_of_loc.
  destruct (fexp prec emax (Zdigits2 m + e) - e) as [|p|p] eqn:Hn.
  - exists 0. simpl. rewrite Z.div_1_r, Z.mod_1_r. repeat split; lia.
  - exists (Z.pos p). simpl fst. simpl snd.
    destruct (iter_pos_shr_state m p Hm 0 {| shr_m := m; shr_r := false; shr_s := false |})
      as [Hq Hb]; [lia| |].
    { split; simpl; [rewrite Z.div_1_r; reflexivity|].
      rewrite Z.mod_1_r. split; reflexivity. }
    simpl in Hq, Hb. rewrite loc_exact_iff. repeat split; try lia; tauto.
  - exists 0. simpl. rewrite Z.div_1_r, Z.mod_1_r. repeat split; lia.
Qed.

Lemma round_nearest_even_bounds (mx : Z) (lx : location) :
  mx <= round_nearest_even mx lx <= mx + 1 /\
  (lx = loc_Exact -> round_nearest_even mx lx = mx).
Proof.
  destruct lx as [|[| |]]; simpl;
    try destruct (Z.even mx); (split; [lia|intros H; (reflexivity || discriminate H)]).
Qed.

Lemma Zdigits2_bound (m : Z) : 0 < m -> 2 ^ (Zdigits2 m - 1) <= m < 2 ^ Zdigits2 m.
Proof.
  intros Hm. destruct m as [|p|p]; try lia. simpl Zdigits2.
  assert (Hsz : digits2_pos p = Pos.size p).
  { induction p as [p IH|p IH|]; simpl; rewrite ?IH; reflexivity. }
  rewrite Hsz.
  pose proof (Pos.size_gt p) as Hgt. pose proof (Pos.size_le p) as Hle.
  apply Pos2Z.pos_lt_pos in Hgt. apply Pos2Z.pos_le_pos in Hle.
  rewrite Pos2Z.inj_pow in Hgt, Hle.
  change (Z.pos p~0) with (2 * Z.pos p) in Hle.
  split; [|exact Hgt].
  replace (Z.pos (Pos.size p)) with (Z.pos (Pos.size p) - 1 + 1) in Hle by lia.
  rewrite Z.pow_add_r in Hle by lia. change (2 ^ 1) with 2 in Hle. lia.
Qed.




(** ** The velocity of a chord for an energy between 0 and 1 *)

Lemma pos_iter_xO (m d : positive) :
  Z.pos (Pos.iter xO m d) = Z.pos m * 2 ^ Z.pos d.
Proof.
  induction d as [|d IH] using Pos.peano_ind.
  - simpl. lia.
  - rewrite Pos.iter_succ, Pos2Z.inj_succ, Z.pow_succ_r by lia.
    rewrite Pos2Z.inj_xO, IH. lia.
Qed.















(** ** The serializer of [app2.py] *)

Lemma app2_varlen_loop_fuel (fuel : nat) (v : Z) (out r : list Z) :
  App2.varlen_loop fuel v out = Some r ->
  0 <= v /\ digits7 v < Z.of_nat fuel /\ r = varlen_loop v out.
Proof.
  revert v out. induction fuel as [|fuel IH]; intros v out; simpl; [discriminate|].
  destruct (Z.eqb_spec v 0) as [->|Hne].
  - intros [= <-]. rewrite varlen_loop_eq. change (digits7 0) with 0.
    split; [lia|]. split; [lia|reflexivity].
  - intros Hrun. apply IH in Hrun as (Hs & Hd & ->).
    assert (Hv : 0 < v).
    { destruct (Z_lt_le_dec v 0) as [Hneg|]; [|lia].
      apply (Z.shiftr_neg v 7) in Hneg. lia. }
    rewrite (digits7_step v Hv), (varlen_loop_eq v).
    destruct (Z.ltb_spec 0 v); [|lia]. split; [lia|]. split; [lia|reflexivity].
Qed.

Lemma app2_varlen_loop_enough (fuel : nat) (v : Z) (out : list Z) :
  0 <= v -> digits7 v < Z.of_nat fuel ->
  App2.varlen_loop fuel v out = Some (varlen_loop v out).
Proof.
  revert v out. induction fuel as [|fuel IH]; intros v out Hv Hd;
    [pose proof (digits7_nonneg v); simpl in Hd; lia|].
  simpl. rewrite (varlen_loop_eq v).
  destruct (Z.eqb_spec v 0) as [->|Hne]; [reflexivity|].
  destruct (Z.ltb_spec 0 v); [|lia].
  apply IH.
  - apply Z.shiftr_nonneg. exact Hv.
  - rewrite (digits7_step v) in Hd by lia. lia.
Qed.

Lemma app2_write_varlen_iff (fuel : nat) (v : Z) (out : list Z) :
  App2.write_varlen fuel v = Some out <->
  0 <= v /\ groups7 v <= Z.of_nat fuel /\ out = write_varlen v.
Proof.
  unfold App2.write_varlen. split.
  - intros Hrun. apply app2_varlen_loop_fuel in Hrun as (Hs & Hd & ->).
    assert (Hv : 0 <= v) by (apply (Z.shiftr_nonneg v 7); exact Hs).
    rewrite (groups7_digits7 v Hv), (write_varlen_nonneg_eq v Hv).
    split; [exact Hv|]. split; [lia|reflexivity].
  - intros (Hv & Hd & ->). rewrite (groups7_digits7 v Hv) in Hd.
    rewrite (write_varlen_nonneg_eq v Hv).
    apply app2_varlen_loop_enough; [apply Z.shiftr_nonneg; exact Hv|lia].
Qed.

(** A delta time of at most [fuel] groups, for every event. *)
Lemma app2_track_loop (fuel : nat) (events : list event) :
  forall data last,
  Forall (fun d => 0 <= d /\ groups7 d <= Z.of_nat fuel) (deltas_from last events) ->
  App2.track_loop fuel events data last =
  Some (let* s := for_each track_step events (data, last) in Ok (fst s)).
Proof.
  induction events as [|[tick msg] events IH]; intros data last Hd; simpl.
  - reflexivity.
  - simpl in Hd. inversion Hd as [|? ? [Hnn Hg] Htl]; subst.
    assert (Hw : App2.write_varlen fuel (tick - last)
                 = Some (write_varlen (tick - last))).
    { apply app2_write_varlen_iff. auto. }
    rewrite Hw, extend_varlen. cbn [Py.bind].
    destruct (extend (data ++ write_varlen (tick - last)) msg) as [data'|e];
      cbn [Py.bind]; [|reflexivity].
    apply IH. exact Htl.
Qed.

Lemma groups7_pos (v : Z) : 1 <= groups7 v.
Proof.
  unfold groups7. destruct (v =? 0); [lia|].
  pose proof (Z.log2_nonneg v).
  assert (0 <= Z.log2 v / 7) by (apply Z.div_pos; lia). lia.
Qed.

Lemma groups7_fuel (ds : list Z) :
  exists fuel : nat, Forall (fun d => groups7 d <= Z.of_nat fuel) ds.
Proof.
  induction ds as [|d ds [fuel IH]].
  - exists 0%nat. constructor.
  - exists (Nat.max fuel (Z.to_nat (groups7 d))). constructor.
    + pose proof (groups7_pos d). lia.
    + eapply Forall_impl; [exact IH|]. simpl. intros; lia.
Qed.

Lemma sorted_head_min {A} (key : A -> Z) (l : list A) (x : A) (l' : list A) :
  sorted key l = x :: l' -> Forall (fun a => key x <= key a) l.
Proof.
  intros Hs. pose proof (sorted_sorted key l) as Hsorted.
  rewrite Hs in Hsorted. inversion Hsorted as [|? ? _ Hx]; subst.
  eapply Permutation_Forall; [apply sorted_Permutation|].
  rewrite Hs. constructor; [lia|exact Hx].
Qed.

Lemma app2_build_track_nonneg (events : list event) :
  Forall (tick_from 0) events ->
  exists fuel0 : nat, forall fuel : nat, (fuel0 <= fuel)%nat ->
    App2.build_track fuel events = Some (build_track events).
Proof.
  intros Hnn.
  destruct (groups7_fuel (deltas_from 0 (sorted fst events))) as [fuel0 Hf].
  exists (S fuel0). intros fuel Hfuel.
  unfold App2.build_track, build_track.
  assert (Hd : Forall (fun d => 0 <= d)
                 (deltas_from 0 (sorted fst events))).
  { apply deltas_nonneg; [apply sorted_sorted|].
    eapply Permutation_Forall; [symmetry; apply sorted_Permutation|exact Hnn]. }
  rewrite app2_track_loop.
  2:{ apply Forall_and. split; [exact Hd|].
      eapply Forall_impl; [exact Hf|]. simpl. intros; lia. }
  destruct (for_each track_step (sorted fst events) ([], 0)) as [[data last]|e];
    cbn [Py.bind fst]; [|reflexivity].
  assert (Hw : App2.write_varlen fuel 0 = Some (write_varlen 0)).
  { apply app2_write_varlen_iff. change (groups7 0) with 1. split; [lia|].
    split; [lia|reflexivity]. }
  rewrite Hw. reflexivity.
Qed.

Lemma app2_build_track_negative (events : list event) (fuel : nat) :
  Exists (fun e => fst e < 0) events ->
  App2.build_track fuel events = None.
Proof.
  intros Hneg. unfold App2.build_track.
  destruct (sorted fst events) as [|[tick msg] rest] eqn:Hs.
  - apply Exists_exists in Hneg as (e & Hin & _).
    rewrite <- (sorted_Permutation fst events), Hs in Hin.
    inversion Hin.
  - pose proof (sorted_head_min fst events _ _ Hs) as Hmin.
    apply Exists_exists in Hneg as (e & Hin & He).
    rewrite Forall_forall in Hmin. specialize (Hmin e Hin). simpl in Hmin.
    simpl. unfold App2.write_varlen.
    rewrite app2_varlen_loop_negative; [reflexivity|].
    apply Z.shiftr_neg. lia.
Qed.

(** ** Order and time shift *)

Lemma sorted_filters_eq {A} (key : A -> Z) (l1 l2 : list A) :
  StronglySorted (key_le key) l1 -> StronglySorted (key_le key) l2 ->
  (forall k, filter (fun a => key a = k) l1 = filter (fun a => key a = k) l2) ->
  l1 = l2.
Proof.
  intros H1. revert l2.
  induction H1 as [|x l1 H1 IH Hx]; intros l2 H2 Hf.
  - destruct l2 as [|y l2]; [reflexivity|].
    specialize (Hf (key y)). rewrite filter_nil, filter_cons in Hf.
    destruct (decide (key y = key y)); [discriminate|congruence].
  - destruct H2 as [|y l2 H2 Hy].
    { specialize (Hf (key x)). rewrite filter_nil, filter_cons in Hf.
      destruct (decide (key x = key x)); [discriminate|congruence]. }
    assert (Hxy : key y <= key x).
    { assert (Hin : x ∈ filter (fun a => key a = key x) (y :: l2)).
      { rewrite <- Hf, filter_cons.
        destruct (decide (key x = key x)); [left|congruence]. }
      apply list_elem_of_filter in Hin as [_ Hin].
      inversion Hin; subst; [lia|].
      rewrite Forall_forall in Hy. apply Hy. assumption. }
    assert (Hyx : key x <= key y).
    { assert (Hin : y ∈ filter (fun a => key a = key y) (x :: l1)).
      { rewrite Hf, filter_cons.
        destruct (decide (key y = key y)); [left|congruence]. }
      apply list_elem_of_filter in Hin as [_ Hin].
      inversion Hin; subst; [lia|].
      rewrite Forall_forall in Hx. apply Hx. assumption. }
    assert (Hk : key x = key y) by lia.
    pose proof (Hf (key x)) as Hfx. rewrite !filter_cons in Hfx.
    destruct (decide (key x = key x)); [|congruence].
    destruct (decide (key y = key x)); [|congruence].
    injection Hfx as -> Hrest. f_equal. apply IH; [exact H2|].
    intros k. specialize (Hf k). rewrite !filter_cons in Hf.
    destruct (decide (key y = k)); [|exact Hf].
    injection Hf as Hf. exact Hf.
Qed.

Lemma sorted_by_filters {A} (key : A -> Z) (l1 l2 : list A) :
  (forall k, filter (fun a => key a = k) l1 = filter (fun a => key a = k) l2) ->
  sorted key l1 = sorted key l2.
Proof.
  intros Hf. apply (sorted_filters_eq key); try apply sorted_sorted.
  intros k. rewrite !sorted_stable. apply Hf.
Qed.

Lemma insert_by_delay (c : Z) (x : event) (l : list event) :
  insert_by fst (delay c x) (map (delay c) l) = map (delay c) (insert_by fst x l).
Proof.
  induction l as [|y l IH]; simpl; [reflexivity|].
  destruct (Z.leb_spec (fst x) (fst y)), (Z.leb_spec (fst x + c) (fst y + c));
    try lia; simpl; [reflexivity|]. rewrite IH. reflexivity.
Qed.

Lemma sorted_delay (c : Z) (l : list event) :
  sorted fst (map (delay c) l) = map (delay c) (sorted fst l).
Proof.
  induction l as [|x l IH]; simpl; [reflexivity|].
  rewrite IH. apply insert_by_delay.
Qed.

Lemma track_body_delay (c last : Z) (l : list event) :
  track_body (last + c) (map (delay c) l) = track_body last l.
Proof.
  revert last. induction l as [|[tick msg] l IH]; intros last; simpl.
  - reflexivity.
  - rewrite IH. do 2 f_equal. lia.
Qed.

Lemma messages_ok_delay (c : Z) (l : list event) :
  messages_ok (map (delay c) l) = messages_ok l.
Proof.
  unfold messages_ok. induction l as [|[tick msg] l IH]; simpl; [reflexivity|].
  rewrite IH. reflexivity.
Qed.

Lemma running_sum_from (acc last : Z) (l : list event) :
  running_sum acc (deltas_from last l) = map (fun t => t - last + acc) (ticks l).
Proof.
  revert acc last. induction l as [|[tick msg] l IH]; intros acc last; simpl.
  - reflexivity.
  - rewrite IH. f_equal; [lia|]. apply map_ext. intros t. lia.
Qed.

(** The body of a track whose first event (in sorted order) is not after
    tick 0 is the body of the track delayed so that it starts at 0. *)
Lemma track_body_early (m : Z) (msg : list Z) (rest : list event) :
  m <= 0 ->
  track_body 0 ((m, msg) :: rest) =
  track_body 0 (map (delay (- m)) ((m, msg) :: rest)).
Proof.
  intros Hm. simpl. rewrite (write_varlen_clamp (m - 0)).
  replace (Z.max 0 (m - 0)) with (m + - m - 0) by lia.
  rewrite (track_body_delay (- m) m rest). reflexivity.
Qed.

Lemma messages_ok_Forall (events : list event) :
  messages_ok events = true <->
  Forall (fun e => Forall (fun b => 0 <= b < 256) (snd e)) events.
Proof.
  unfold messages_ok. rewrite forallb_forall, Forall_forall. split.
  - intros H e He. apply list_elem_of_In in He. specialize (H e He).
    rewrite forallb_forall in H. apply Forall_forall. intros b Hb.
    apply list_elem_of_In in Hb. specialize (H b Hb). unfold is_byte in H. lia.
  - intros H e He. apply list_elem_of_In in He. specialize (H e He).
    rewrite Forall_forall in H. apply forallb_forall. intros b Hb.
    apply list_elem_of_In in Hb. specialize (H b Hb). unfold is_byte. lia.
Qed.

Lemma filter_key_length {A} (key : A -> Z) (k : Z) (l : list A) :
  NoDup (map key l) -> (length (filter (fun a => key a = k) l) <= 1)%nat.
Proof.
  induction l as [|x l IH]; intros Hnd; simpl; [lia|].
  inversion Hnd as [|? ? Hx Hl]; subst. rewrite filter_cons.
  destruct (decide (key x = k)) as [<-|]; [|apply IH; exact Hl].
  assert (Hnil : filter (fun a => key a = key x) l = []).
  { destruct (filter (fun a => key a = key x) l) as [|y f] eqn:Hf; [reflexivity|].
    assert (Hy : y ∈ filter (fun a => key a = key x) l) by (rewrite Hf; left).
    apply list_elem_of_filter in Hy as [Hk Hy]. exfalso. apply Hx.
    rewrite <- Hk. apply list_elem_of_fmap_2. exact Hy. }
  rewrite Hnil. simpl. lia.
Qed.

Lemma Permutation_short {A} (l1 l2 : list A) :
  Permutation l1 l2 -> (length l1 <= 1)%nat -> l1 = l2.
Proof.
  intros Hp Hlen. destruct l1 as [|x [|y l1]]; simpl in Hlen; try lia.
  - apply Permutation_nil in Hp. congruence.
  - apply Permutation_singleton_l in Hp. congruence.
Qed.

Lemma filters_of_Permutation {A} (key : A -> Z) (l1 l2 : list A) :
  Permutation l1 l2 -> NoDup (map key l1) ->
  forall k, filter (fun a => key a = k) l1 = filter (fun a => key a = k) l2.
Proof.
  intros Hp Hnd k. apply Permutation_short.
  - rewrite Hp. reflexivity.
  - apply filter_key_length. exact Hnd.
Qed.

Lemma not_bytes_Exists (msg : list Z) :
  forallb is_byte msg = false -> Exists (fun b => ~ 0 <= b < 256) msg.
Proof.
  induction msg as [|b msg IH]; simpl; [discriminate|].
  destruct (is_byte b) eqn:Hb; simpl.
  - intros H. right. apply IH. exact H.
  - intros _. left. unfold is_byte in Hb. lia.
Qed.

Lemma messages_bad_Exists (events : list event) :
  messages_ok events = false ->
  Exists (fun e => Exists (fun b => ~ 0 <= b < 256) (snd e)) events.
Proof.
  unfold messages_ok. induction events as [|e events IH]; simpl; [discriminate|].
  destruct (forallb is_byte (snd e)) eqn:He; simpl.
  - intros H. right. apply IH. exact H.
  - intros _. left. apply not_bytes_Exists. exact He.
Qed.

(** A track whose earliest event is not after tick 0 is the track of
    the events delayed so that it is at tick 0. *)
Lemma build_track_early (events : list event) (m : Z) :
  m <= 0 -> m ∈ ticks events -> Forall (tick_from m) events ->
  build_track events = build_track (map (delay (- m)) events) /\
  forall data, build_track events = Ok data ->
  exists ds,
    read_deltas (map (fun e => length (snd e)) (sorted fst events)) data
      = Some ds /\
    running_sum 0 ds = map (fun t => t - m) (ticks (sorted fst events)).
Proof.
  intros Hm Hin Hall.
  assert (Hhead : exists msg rest, sorted fst events = (m, msg) :: rest).
  { destruct (sorted fst events) as [|[t msg] rest] eqn:Hs.
    - unfold ticks in Hin. rewrite <- (sorted_Permutation fst events), Hs in Hin.
      inversion Hin.
    - exists msg, rest. f_equal. f_equal.
      pose proof (sorted_head_min fst events _ _ Hs) as Hmin.
      rewrite Forall_forall in Hmin. unfold ticks in Hin.
      apply list_elem_of_fmap in Hin as (e & -> & He).
      specialize (Hmin e He). simpl in Hmin.
      assert (Ht : (t, msg) ∈ events).
      { rewrite <- (sorted_Permutation fst events), Hs. left. }
      rewrite Forall_forall in Hall. specialize (Hall _ Ht).
      unfold tick_from in Hall. simpl in Hall. lia. }
  destruct Hhead as (msg & rest & Hs).
  assert (Hbody : track_body 0 (sorted fst events) =
                  track_body 0 (sorted fst (map (delay (- m)) events))).
  { rewrite sorted_delay, Hs. apply track_body_early. exact Hm. }
  split.
  - rewrite !build_track_eq, messages_ok_delay, Hbody. reflexivity.
  - intros data Hdata. rewrite build_track_eq in Hdata.
    destruct (messages_ok events); [|discriminate].
    injection Hdata as <-. rewrite Hs.
    exists (0 :: deltas_from m rest). split.
    + cbn [map track_body read_deltas]. rewrite (write_varlen_clamp (m - 0)).
      replace (Z.max 0 (m - 0)) with 0 by lia.
      rewrite <- !app_assoc.
      rewrite (read_write_varlen 0) by lia.
      rewrite drop_app_length.
      rewrite read_track_body; [reflexivity|].
      apply deltas_nonneg.
      * pose proof (sorted_sorted fst events) as Hsorted. rewrite Hs in Hsorted.
        inversion Hsorted; assumption.
      * pose proof (sorted_sorted fst events) as Hsorted. rewrite Hs in Hsorted.
        inversion Hsorted as [|? ? _ Hx]; subst. exact Hx.
    + cbn [running_sum ticks map fst]. f_equal; [lia|].
      rewrite running_sum_from. unfold ticks. apply map_ext. intros t. lia.
Qed.

(** The stored delta times of a track without a negative tick add up to
    its ticks. *)
Lemma delta_reconstruction_of_nonneg (events : list event) :
  Forall (tick_from 0) events -> delta_reconstruction events.
Proof.
  intros Hnn data Hdata. rewrite build_track_eq in Hdata.
  destruct (messages_ok events); [|discriminate].
  injection Hdata as <-.
  exists (deltas_from 0 (sorted fst events)). split.
  - apply read_track_body. apply deltas_nonneg; [apply sorted_sorted|].
    eapply Permutation_Forall; [symmetry; apply sorted_Permutation|exact Hnn].
  - apply running_sum_deltas.
Qed.

(** ** Scales *)

Lemma lower_char_m (c : ascii) : lower_char c = "m"%char <-> (c = "m" \/ c = "M")%char.
Proof.
  destruct c as [[] [] [] [] [] [] [] []]; vm_compute;
    (split; [intros H; first [discriminate H | tauto]
            |intros [H|H]; first [discriminate H | reflexivity]]).
Qed.

Lemma lower_char_a (c : ascii) : lower_char c = "a"%char <-> (c = "a" \/ c = "A")%char.
Proof.
  destruct c as [[] [] [] [] [] [] [] []]; vm_compute;
    (split; [intros H; first [discriminate H | tauto]
            |intros [H|H]; first [discriminate H | reflexivity]]).
Qed.

Lemma lower_char_j (c : ascii) : lower_char c = "j"%char <-> (c = "j" \/ c = "J")%char.
Proof.
  destruct c as [[] [] [] [] [] [] [] []]; vm_compute;
    (split; [intros H; first [discriminate H | tauto]
            |intros [H|H]; first [discriminate H | reflexivity]]).
Qed.

Lemma lower_char_o (c : ascii) : lower_char c = "o"%char <-> (c = "o" \/ c = "O")%char.
Proof.
  destruct c as [[] [] [] [] [] [] [] []]; vm_compute;
    (split; [intros H; first [discriminate H | tauto]
            |intros [H|H]; first [discriminate H | reflexivity]]).
Qed.

Lemma lower_char_r (c : ascii) : lower_char c = "r"%char <-> (c = "r" \/ c = "R")%char.
Proof.
  destruct c as [[] [] [] [] [] [] [] []]; vm_compute;
    (split; [intros H; first [discriminate H | tauto]
            |intros [H|H]; first [discriminate H | reflexivity]]).
Qed.

Lemma lower_major (mode : string) :
  lower mode = "major"%string <-> major_spelling mode.
Proof.
  unfold major_spelling. split.
  - destruct mode as [|c1 [|c2 [|c3 [|c4 [|c5 [|c6 mode]]]]]];
      simpl; try discriminate.
    intros [= H1 H2 H3 H4 H5].
    exists c1, c2, c3, c4, c5.
    rewrite lower_char_m in H1. rewrite lower_char_a in H2.
    rewrite lower_char_j in H3. rewrite lower_char_o in H4.
    rewrite lower_char_r in H5. auto 10.
  - intros (c1 & c2 & c3 & c4 & c5 & -> & H1 & H2 & H3 & H4 & H5). simpl.
    apply lower_char_m in H1. apply lower_char_a in H2.
    apply lower_char_j in H3. apply lower_char_o in H4.
    apply lower_char_r in H5. rewrite H1, H2, H3, H4, H5. reflexivity.
Qed.

Lemma NOTE_TO_SEMI_range (k : string) (semi : Z) :
  NOTE_TO_SEMI !! k = Some semi -> 0 <= semi <= 11.
Proof.
  intros Hk.
  assert (Hall : map_Forall (fun _ v => 0 <= v <= 11) NOTE_TO_SEMI).
  { apply (bool_decide_unpack _). vm_compute. exact I. }
  exact (Hall k semi Hk).
Qed.

(** ** The tokens of a progression *)

Lemma split_nonempty (sep : ascii) (s : string) : split sep s <> [].
Proof.
  destruct s as [|c s]; simpl; [discriminate|].
  destruct (Ascii.eqb c sep); [discriminate|].
  destruct (split sep s); discriminate.
Qed.

Lemma split_no_sep (sep : ascii) (s : string) :
  Forall (fun w => has_char sep w = false) (split sep s).
Proof.
  induction s as [|c s IH]; simpl.
  - repeat constructor.
  - destruct (Ascii.eqb c sep) eqn:Hc.
    + constructor; [reflexivity|exact IH].
    + destruct (split sep s) as [|w ws]; [repeat constructor; simpl; rewrite Hc; reflexivity|].
      inversion IH; subst. constructor; [simpl; rewrite Hc; assumption|assumption].
Qed.

Lemma split_keeps_absent (c sep : ascii) (s : string) :
  has_char c s = false -> Forall (fun w => has_char c w = false) (split sep s).
Proof.
  induction s as [|d s IH]; simpl.
  - repeat constructor.
  - intros H. apply orb_false_elim in H as [Hd Hs]. specialize (IH Hs).
    destruct (Ascii.eqb d sep).
    + constructor; [reflexivity|exact IH].
    + destruct (split sep s) as [|w ws].
      * repeat constructor. simpl. rewrite Hd. reflexivity.
      * inversion IH; subst. constructor; [simpl; rewrite Hd; assumption|assumption].
Qed.

Lemma lstrip_keeps_absent (c : ascii) (s : string) :
  has_char c s = false -> has_char c (lstrip s) = false.
Proof.
  induction s as [|d s IH]; simpl; [reflexivity|].
  intros H. destruct (isspace d); [|exact H].
  apply orb_false_elim in H as [_ Hs]. apply IH. exact Hs.
Qed.

Lemma rstrip_keeps_absent (c : ascii) (s : string) :
  has_char c s = false -> has_char c (rstrip s) = false.
Proof.
  induction s as [|d s IH]; simpl; [reflexivity|].
  intros H. apply orb_false_elim in H as [Hd Hs]. specialize (IH Hs).
  destruct (rstrip s) as [|e r].
  - destruct (isspace d); simpl; [reflexivity|]. rewrite Hd. reflexivity.
  - simpl in *. rewrite Hd. exact IH.
Qed.

Lemma strip_keeps_absent (c : ascii) (s : string) :
  has_char c s = false -> has_char c (strip s) = false.
Proof.
  intros H. unfold strip. apply rstrip_keeps_absent, lstrip_keeps_absent. exact H.
Qed.

Lemma rstrip_idem (s : string) : rstrip (rstrip s) = rstrip s.
Proof.
  induction s as [|d s IH]; simpl; [reflexivity|].
  destruct (rstrip s) as [|e r] eqn:Hr.
  - destruct (isspace d) eqn:Hd; simpl; [reflexivity|]. rewrite Hd. reflexivity.
  - simpl. simpl in IH. rewrite IH. destruct (rstrip r); reflexivity.
Qed.

Lemma lstrip_head (s : string) :
  lstrip s = EmptyString \/
  exists d s', lstrip s = String d s' /\ isspace d = false.
Proof.
  induction s as [|d s IH]; simpl; [left; reflexivity|].
  destruct (isspace d) eqn:Hd; [exact IH|]. right. eauto.
Qed.

Lemma rstrip_head (d : ascii) (s : string) :
  isspace d = false -> exists r, rstrip (String d s) = String d r.
Proof.
  intros Hd. simpl. destruct (rstrip s); [rewrite Hd|]; eauto.
Qed.

Lemma strip_idem (s : string) : strip (strip s) = strip s.
Proof.
  unfold strip.
  destruct (lstrip_head s) as [->|(d & s' & -> & Hd)]; [reflexivity|].
  destruct (rstrip_head d s' Hd) as [r Hr].
  assert (Hl : lstrip (rstrip (String d s')) = rstrip (String d s')).
  { rewrite Hr. simpl. rewrite Hd. reflexivity. }
  rewrite Hl. apply rstrip_idem.
Qed.

Lemma replace_bar_step (fuel : nat) (c : ascii) (s : string) :
  replace_from (S fuel) "|" "-" (String c s) =
  String (if Ascii.eqb c "|" then "-"%char else c) (replace_from fuel "|" "-" s).
Proof.
  cbn [replace_from String.prefix String.length drop_chars].
  destruct (ascii_dec "|" c) as [<-|Hne]; [destruct s; reflexivity|].
  destruct (Ascii.eqb_spec c "|") as [->|_]; [contradiction|reflexivity].
Qed.

Lemma replace_bar_absent (fuel : nat) (s : string) :
  (String.length s <= fuel)%nat ->
  has_char "|" (replace_from fuel "|" "-" s) = false.
Proof.
  revert s. induction fuel as [|fuel IH]; intros [|c s] Hlen; simpl in Hlen;
    try reflexivity; try lia.
  rewrite replace_bar_step. simpl. rewrite IH by lia.
  destruct (Ascii.eqb_spec c "|") as [->|Hne]; [reflexivity|].
  destruct (Ascii.eqb_spec c "|"); [contradiction|reflexivity].
Qed.

Lemma replace_bar_id (fuel : nat) (s : string) :
  has_char "|" s = false -> replace_from fuel "|" "-" s = s.
Proof.
  revert s. induction fuel as [|fuel IH]; intros [|c s] H; try reflexivity.
  rewrite replace_bar_step. simpl in H. apply orb_false_elim in H as [Hc Hs].
  rewrite Hc, IH by exact Hs. reflexivity.
Qed.

Lemma has_char_app (c : ascii) (a b : string) :
  has_char c (a ++ b) = has_char c a || has_char c b.
Proof.
  induction a as [|d a IH]; simpl; [reflexivity|].
  rewrite IH, orb_assoc. reflexivity.
Qed.

Lemma split_word (sep : ascii) (w : string) :
  has_char sep w = false -> split sep w = [w].
Proof.
  induction w as [|d w IH]; simpl; [reflexivity|].
  intros H. apply orb_false_elim in H as [Hd Hw].
  rewrite Hd, IH by exact Hw. reflexivity.
Qed.

Lemma split_word_sep (sep : ascii) (w rest : string) :
  has_char sep w = false ->
  split sep (w ++ String sep rest) = w :: split sep rest.
Proof.
  induction w as [|d w IH]; simpl.
  - intros _. rewrite Ascii.eqb_refl. reflexivity.
  - intros H. apply orb_false_elim in H as [Hd Hw].
    rewrite Hd, IH by exact Hw. reflexivity.
Qed.

Lemma split_join (sep : ascii) (words : list string) :
  words <> [] -> Forall (fun w => has_char sep w = false) words ->
  split sep (join sep words) = words.
Proof.
  induction words as [|w ws IH]; intros Hne Hall; [congruence|].
  inversion Hall as [|? ? Hw Hws]; subst.
  destruct ws as [|w' ws].
  - simpl. apply split_word. exact Hw.
  - change (join sep (w :: w' :: ws))
      with (w ++ String sep (join sep (w' :: ws)))%string.
    rewrite split_word_sep by exact Hw. rewrite IH by (congruence || assumption).
    reflexivity.
Qed.

Lemma join_keeps_absent (c sep : ascii) (words : list string) :
  Ascii.eqb sep c = false ->
  Forall (fun w => has_char c w = false) words ->
  has_char c (join sep words) = false.
Proof.
  intros Hsep. induction words as [|w ws IH]; intros Hall; [reflexivity|].
  inversion Hall as [|? ? Hw Hws]; subst.
  destruct ws as [|w' ws]; [exact Hw|].
  change (join sep (w :: w' :: ws))
    with (w ++ String sep (join sep (w' :: ws)))%string.
  rewrite has_char_app, Hw. simpl. rewrite Hsep. apply IH. exact Hws.
Qed.

Lemma nonempty_spec (s : string) : nonempty s = true <-> s <> EmptyString.
Proof. destruct s; simpl; split; congruence. Qed.

Lemma progression_tokens_clean (progression : string) :
  Forall clean_token (progression_tokens progression).
Proof.
  unfold progression_tokens.
  assert (Hbar : Forall (fun w => has_char "|" w = false)
                   (split "-" (replace "|" "-" progression))).
  { apply split_keeps_absent. apply replace_bar_absent. reflexivity. }
  pose proof (split_no_sep "-" (replace "|" "-" progression)) as Hsep.
  revert Hbar Hsep. generalize (split "-" (replace "|" "-" progression)).
  intros pieces Hbar Hsep.
  induction pieces as [|w pieces IH]; [constructor|].
  inversion Hbar; inversion Hsep; subst.
  rewrite filter_cons.
  destruct (decide (nonempty (strip w) = true)) as [Hne|Hne].
  - cbn [map]. constructor; [|apply IH; assumption].
    split; [apply nonempty_spec; exact Hne|].
    split; [apply strip_idem|].
    split; apply strip_keeps_absent; assumption.
  - apply IH; assumption.
Qed.

Lemma progression_tokens_join (tokens : list string) :
  Forall clean_token tokens ->
  progression_tokens (join "-" tokens) = tokens.
Proof.
  intros Hall. unfold progression_tokens, replace.
  rewrite replace_bar_id.
  2:{ apply join_keeps_absent; [reflexivity|].
      eapply Forall_impl; [exact Hall|]. intros t (_ & _ & _ & H). exact H. }
  destruct tokens as [|t tokens]; [reflexivity|].
  rewrite split_join; [|discriminate|].
  2:{ eapply Forall_impl; [exact Hall|]. intros w (_ & _ & H & _). exact H. }
  induction Hall as [|w ws (Hne & Hstrip & _) _ IH]; [reflexivity|].
  rewrite filter_cons.
  destruct (decide (nonempty (strip w) = true)) as [_|Hn].
  - cbn [map]. rewrite Hstrip. f_equal. exact IH.
  - exfalso. apply Hn. rewrite Hstrip. apply nonempty_spec. exact Hne.
Qed.

(** ** Notes in pairs *)




Lemma length_range (n : Z) : length (range n) = Z.to_nat n.
Proof. unfold range. apply length_seqZ. Qed.





Section Pairs.
Context {R : PyRandom}.




End Pairs.

(** ** Loops that cannot fail, and the exceptions of those that can *)

Lemma for_each_ok {A S} (body : S -> A -> result S) (xs : list A) :
  (forall s x, x ∈ xs -> exists s', body s x = Ok s') ->
  forall s, exists s', for_each body xs s = Ok s'.
Proof.
  induction xs as [|x xs IH]; intros Hstep s; simpl; [eauto|].
  destruct (Hstep s x (list_elem_of_here _ _)) as [s1 ->]. cbn [Py.bind].
  apply IH. intros s0 y Hy. apply Hstep. right. exact Hy.
Qed.

Lemma for_each_raises {A S} (body : S -> A -> result S) (e : exn)
    (xs : list A) (x : A) :
  (forall s y e', body s y = Raise e' -> e' = e) ->
  x ∈ xs -> (forall s, body s x = Raise e) ->
  forall s, for_each body xs s = Raise e.
Proof.
  intros Honly Hin Hx. induction xs as [|y xs IH]; intros s; [inversion Hin|].
  simpl. destruct (body s y) as [s1|e'] eqn:Hb; cbn [Py.bind].
  - apply IH. inversion Hin; subst; [rewrite Hx in Hb; discriminate|assumption].
  - f_equal. eapply Honly. exact Hb.
Qed.

Lemma for_each_raise_only {A S} (body : S -> A -> result S) (P : exn -> Prop)
    (xs : list A) :
  (forall s y e, y ∈ xs -> body s y = Raise e -> P e) ->
  forall s e, for_each body xs s = Raise e -> P e.
Proof.
  induction xs as [|y xs IH]; intros Honly s e; simpl; [discriminate|].
  destruct (body s y) as [s1|e'] eqn:Hb; cbn [Py.bind].
  - apply IH. intros s0 z e0 Hz. apply Honly. right. exact Hz.
  - intros [= <-]. eapply Honly; [left|exact Hb].
Qed.

Lemma getitem_ok {A} (l : list A) (i : Z) :
  0 <= i < Z.of_nat (length l) ->
  exists x, getitem l i = Ok x /\ l !! Z.to_nat i = Some x.
Proof.
  intros Hi. unfold getitem.
  destruct (Z.ltb_spec i 0); [lia|].
  destruct (Z.leb_spec 0 i); [|lia].
  destruct (Z.ltb_spec i (Z.of_nat (length l))); [|lia]. simpl.
  destruct (l !! Z.to_nat i) as [x|] eqn:Hx; [eauto|].
  apply lookup_ge_None in Hx. lia.
Qed.

Lemma getitem_raise {A} (l : list A) (i : Z) (e : exn) :
  getitem l i = Raise e -> e = IndexError.
Proof.
  unfold getitem. destruct (_ && _); [|congruence].
  destruct (l !! _); congruence.
Qed.

Lemma getitem_out {A} (l : list A) (i : Z) :
  Z.of_nat (length l) <= i -> getitem l i = Raise IndexError.
Proof.
  intros Hi. unfold getitem. destruct (Z.ltb_spec i 0); [lia|].
  destruct (Z.ltb_spec i (Z.of_nat (length l))); [lia|].
  rewrite andb_false_r. reflexivity.
Qed.

Section Progress.
Context {R : PyRandom}.

Lemma choice_ok {A} (seq : list A) (g : rng) :
  seq <> [] -> exists x g', choice seq g = Ok (x, g') /\ x ∈ seq.
Proof.
  intros Hne. unfold choice. destruct seq as [|y seq]; [congruence|].
  pose proof (randbelow_range (Z.of_nat (length (y :: seq))) g) as Hr.
  destruct (randbelow _ g) as [i g1]. simpl fst in Hr.
  specialize (Hr ltac:(simpl; lia)).
  destruct ((y :: seq) !! Z.to_nat i) as [x|] eqn:Hx.
  - exists x, g1. split; [reflexivity|]. eapply list_elem_of_lookup_2. exact Hx.
  - apply lookup_ge_None in Hx. lia.
Qed.

Lemma choice_raise {A} (seq : list A) (g : rng) (e : exn) :
  choice seq g = Raise e -> e = IndexError.
Proof.
  unfold choice. destruct seq as [|y seq]; [congruence|].
  destruct (randbelow _ g) as [i g1].
  destruct ((y :: seq) !! Z.to_nat i); congruence.
Qed.

Lemma melody_step_raise (ls ct : list Z) (base : Z) (s : rng * list event)
    (ih : Z * Z) (e : exn) :
  melody_step ls ct base s ih = Raise e -> e = IndexError.
Proof.
  destruct s as [g ev], ih as [i hit]. unfold melody_step.
  destruct (hit =? 0); [discriminate|].
  destruct (if i mod 4 =? 0 then (true, g)
            else let '(x, g0) := random g in (flt x (float_lit 7 10), g0))
    as [on_chord g1].
  destruct (if on_chord then choice ct g1 else choice (range 7) g1)
    as [[deg g2]|e'] eqn:Hc.
  - cbn [Py.bind]. destruct (getitem ls deg) as [note|e'] eqn:Hn.
    + cbn [Py.bind]. destruct (randint (-20) 20 g2) as [shift g3].
      destruct (randint (-10) 10 g3) as [accent g4].
      destruct (randint (-50) 50 g4) as [stretch g5]. discriminate.
    + cbn [Py.bind]. intros [= <-]. eapply getitem_raise. exact Hn.
  - cbn [Py.bind]. intros [= <-].
    destruct on_chord; eapply choice_raise; exact Hc.
Qed.

Lemma melody_step_ok (ls ct : list Z) (base : Z) (s : rng * list event)
    (ih : Z * Z) :
  length ls = 7%nat -> ct <> [] -> Forall (fun d => 0 <= d < 7) ct ->
  exists s', melody_step ls ct base s ih = Ok s'.
Proof.
  intros Hls Hne Hct. destruct s as [g ev], ih as [i hit]. unfold melody_step.
  destruct (hit =? 0); [eauto|].
  destruct (if i mod 4 =? 0 then (true, g)
            else let '(x, g0) := random g in (flt x (float_lit 7 10), g0))
    as [on_chord g1].
  assert (Hdeg : exists deg g2,
            (if on_chord then choice ct g1 else choice (range 7) g1)
              = Ok (deg, g2) /\ 0 <= deg < 7).
  { destruct on_chord.
    - destruct (choice_ok ct g1 Hne) as (deg & g2 & Hc & Hin).
      exists deg, g2. split; [exact Hc|].
      rewrite Forall_forall in Hct. apply Hct. exact Hin.
    - destruct (choice_ok (range 7) g1 ltac:(discriminate)) as (deg & g2 & Hc & Hin).
      exists deg, g2. split; [exact Hc|]. apply elem_of_range in Hin. exact Hin. }
  destruct Hdeg as (deg & g2 & -> & Hd). cbn [Py.bind].
  destruct (getitem_ok ls deg ltac:(lia)) as (note & -> & _). cbn [Py.bind].
  destruct (randint (-20) 20 g2) as [shift g3].
  destruct (randint (-10) 10 g3) as [accent g4].
  destruct (randint (-50) 50 g4) as [stretch g5]. eauto.
Qed.

Lemma triad_degrees (r : Z) :
  0 <= r <= 6 -> triad r <> [] /\ Forall (fun d => 0 <= d < 7) (triad r).
Proof.
  intros Hr. split; [discriminate|]. unfold triad.
  pose proof (Z.mod_pos_bound (r + 2) 7 ltac:(lia)).
  pose proof (Z.mod_pos_bound (r + 4) 7 ltac:(lia)).
  repeat constructor; lia.
Qed.

Lemma make_melody_ok (p : SongParams) (degs : list (list Z)) (bt : Z)
    (tokens : list string) (semi : Z) :
  NOTE_TO_SEMI !! key p = Some semi ->
  Forall2 (chord_bar_degs tokens) (range (bars p)) degs ->
  exists mel, make_melody p degs bt = Ok mel.
Proof.
  intros Hkey Hdegs. unfold make_melody.
  destruct (build_scale_ok (key p) (mode p) (melody_octave p) semi Hkey)
    as [ls Hls].
  rewrite Hls. cbn [Py.bind].
  apply build_scale_range in Hls as (root & _ & Hlen & _).
  destruct (for_each_ok (melody_bar bt ls degs) (range (bars p))) with
    (s := (Random (seed p + 123), @nil event)) as [[g' ev'] Hloop].
  - intros s bar Hin. unfold melody_bar.
    pose proof Hin as Hb. apply elem_of_range in Hb.
    apply list_elem_of_lookup_1 in Hin as [k Hk].
    destruct (Forall2_lookup_l _ _ _ _ _ Hdegs Hk) as (d & Hd & token & _ & ->).
    assert (Hkb : k = Z.to_nat bar).
    { unfold range in Hk. apply lookup_seqZ in Hk. lia. }
    subst k.
    destruct (getitem_ok degs bar) as (ct & Hget & Hct).
    { apply lookup_lt_Some in Hd. lia. }
    rewrite Hd in Hct. injection Hct as <-. rewrite Hget. cbn [Py.bind].
    destruct (triad_degrees _ (roman_to_degree_range token)) as [Hne Hall].
    apply for_each_ok. intros s0 ih _. apply melody_step_ok; assumption.
  - rewrite Hloop. cbn [Py.bind]. eauto.
Qed.

Lemma make_melody_short (p : SongParams) (degs : list (list Z)) (bt : Z)
    (semi : Z) :
  NOTE_TO_SEMI !! key p = Some semi ->
  Z.of_nat (length degs) < bars p ->
  make_melody p degs bt = Raise IndexError.
Proof.
  intros Hkey Hlen. unfold make_melody.
  destruct (build_scale_ok (key p) (mode p) (melody_octave p) semi Hkey)
    as [ls Hls].
  rewrite Hls. cbn [Py.bind].
  rewrite (for_each_raises _ IndexError _ (Z.of_nat (length degs))).
  - reflexivity.
  - intros s bar e. unfold melody_bar.
    destruct (getitem degs bar) as [ct|e0] eqn:Hg; cbn [Py.bind].
    + apply (for_each_raise_only _ (fun e => e = IndexError)).
      intros s0 y e0 _. apply melody_step_raise.
    + intros [= <-]. eapply getitem_raise. exact Hg.
  - apply elem_of_range. lia.
  - intros s. unfold melody_bar. rewrite getitem_out by lia. reflexivity.
Qed.
End Progress.

(** ** The drum grid *)

Lemma drum_grid_steps (bs : Z) :
  concat (map (drum_step_grid bs) (range 16)) = drum_grid bs.
Proof.
  assert (Hr : range 16 = [0; 1; 2; 3; 4; 5; 6; 7; 8; 9; 10; 11; 12; 13; 14; 15])
    by reflexivity.
  rewrite Hr. unfold drum_grid. cbn.
  repeat match goal with
         | |- context [Z.modulo ?a ?b] =>
             let v := eval vm_compute in (Z.modulo a b) in
             change (Z.modulo a b) with v
         end.
  cbn. repeat (f_equal; try lia).
Qed.

Lemma Forall2_concat_map {A B C} (P : B -> C -> Prop) (f : A -> list C)
    (xs : list A) (chunks : list (list B)) :
  Forall2 (fun x c => Forall2 P c (f x)) xs chunks ->
  Forall2 P (concat chunks) (concat (map f xs)).
Proof.
  induction 1 as [|x c xs chunks Hc _ IH]; simpl; [constructor|].
  apply Forall2_app; assumption.
Qed.

Section Drums.
Context {R : PyRandom}.

Lemma drum_step_slots (bs i : Z) (s : rng * list event) :
  exists c, Forall2 in_slot c (drum_step_grid bs i) /\
            snd (drum_step bs s i) = snd s ++ c.
Proof.
  destruct s as [g dr]. unfold drum_step, drum_step_grid. rewrite PPQN_quarter.
  assert (Hk : forall v, in_slot (bs + i * 120, [153; 36; v]) (bs + i * 120, [153; 36], (v, v))).
  { intros v. split; [reflexivity|]. exists v. simpl. split; [reflexivity|lia]. }
  assert (Hs : forall v, in_slot (bs + i * 120, [153; 38; v]) (bs + i * 120, [153; 38], (v, v))).
  { intros v. split; [reflexivity|]. exists v. simpl. split; [reflexivity|lia]. }
  assert (Ho : forall d n, in_slot (bs + i * 120 + d, [137; n; 0])
                                   (bs + i * 120 + d, [137; n], (0, 0))).
  { intros d n. split; [reflexivity|]. exists 0. simpl. split; [reflexivity|lia]. }
  destruct (i mod 2 =? 0).
  - pose proof (randint_range (-5) 5 g ltac:(lia)) as Hj.
    destruct (randint (-5) 5 g) as [jitter g1]. simpl in Hj. simpl snd.
    assert (Hh : in_slot (bs + i * 120,
                          [153; 42; (if i mod 4 =? 0 then 90 else 65) + jitter])
                         (bs + i * 120, [153; 42],
                          ((if i mod 4 =? 0 then 90 else 65) - 5,
                           (if i mod 4 =? 0 then 90 else 65) + 5))).
    { split; [reflexivity|]. eexists. simpl. split; [reflexivity|lia]. }
    destruct ((i =? 0) || (i =? 8)), ((i =? 4) || (i =? 12)); simpl;
      eexists; (split; [|rewrite <- ?app_assoc; simpl; reflexivity]);
      repeat (constructor; [first [apply Hk|apply Hs|apply Ho|exact Hh]|]);
      constructor.
  - simpl snd.
    destruct ((i =? 0) || (i =? 8)), ((i =? 4) || (i =? 12)); simpl;
      eexists;
      (split; [|rewrite <- ?app_assoc; simpl;
                first [reflexivity|symmetry; apply app_nil_r]]);
      repeat (constructor; [first [apply Hk|apply Hs|apply Ho]|]);
      constructor.
Qed.

Lemma drum_bar_slots (bt bar : Z) (s : rng * list event) :
  exists c, Forall2 in_slot c (drum_grid (bar * bt)) /\
            snd (drum_bar bt s bar) = snd s ++ c.
Proof.
  unfold drum_bar.
  destruct (foldl_chunks (drum_step (bar * bt)) (fun s => snd s)
              (fun i c => Forall2 in_slot c (drum_step_grid (bar * bt) i))
              (range 16)
              (fun s x _ => drum_step_slots (bar * bt) x s) s)
    as (cs & Hcs & Hp).
  exists (concat cs). split; [|exact Hp].
  rewrite <- drum_grid_steps. apply Forall2_concat_map. exact Hcs.
Qed.

Lemma make_drums_slots (p : SongParams) (bt : Z) :
  Forall2 in_slot (make_drums p bt)
    (concat (map (fun bar => drum_grid (bar * bt)) (range (bars p)))).
Proof.
  unfold make_drums.
  destruct (foldl_chunks (drum_bar bt) (fun s => snd s)
              (fun bar c => Forall2 in_slot c (drum_grid (bar * bt)))
              (range (bars p))
              (fun s x _ => drum_bar_slots bt x s)
              (Random (seed p + 999), [])) as (chunks & Hchunks & Hdr).
  rewrite Hdr. simpl. apply Forall2_concat_map. exact Hchunks.
Qed.
End Drums.

(** ** The melody is monophonic *)

Lemma StronglySorted_lt_app (l1 l2 : list Z) (hi : Z) :
  StronglySorted Z.lt l1 -> StronglySorted Z.lt l2 ->
  Forall (fun t => t <= hi) l1 -> Forall (fun t => hi < t) l2 ->
  StronglySorted Z.lt (l1 ++ l2).
Proof.
  intros H1 H2 Hlo Hhi. induction H1 as [|x l1 H1 IH Hx]; simpl; [exact H2|].
  inversion Hlo as [|? ? Hxh Hl]; subst.
  constructor; [apply IH; exact Hl|].
  apply Forall_app. split; [exact Hx|].
  eapply Forall_impl; [exact Hhi|]. simpl. intros; lia.
Qed.

(** Chunks that lie in disjoint, increasing intervals. *)
Lemma StronglySorted_chunks (lo hi : Z -> Z) (a n : Z)
    (chunks : list (list event)) :
  (forall b b', b < b' -> hi b < lo b') ->
  Forall2 (fun bar c => StronglySorted Z.lt (ticks c) /\
                        Forall (fun t => lo bar <= t <= hi bar) (ticks c))
          (seqZ a n) chunks ->
  StronglySorted Z.lt (ticks (concat chunks)) /\
  Forall (fun t => lo a <= t \/ exists b, a < b /\ lo b <= t)
         (ticks (concat chunks)).
Proof.
  intros Hgap. revert a chunks.
  destruct (Z_le_gt_dec n 0) as [Hn|Hn].
  { intros a chunks. rewrite seqZ_nil by lia. intros H. inversion H; subst.
    split; constructor. }
  assert (Hnn : 0 <= n) by lia. clear Hn.
  pattern n. apply natlike_ind; [| |exact Hnn]; clear n Hnn.
  - intros a chunks H. inversion H; subst. split; constructor.
  - intros n Hn IH a chunks H. rewrite seqZ_cons in H by lia.
    replace (Z.pred (Z.succ n)) with n in H by lia.
    inversion H as [|? c ? cs [Hs Hr] Hrest]; subst.
    destruct (IH (Z.succ a) cs Hrest) as [Hsorted Hfrom].
    unfold ticks in *. simpl. rewrite map_app. split.
    + apply (StronglySorted_lt_app _ _ (hi a)); [exact Hs|exact Hsorted| |].
      * eapply Forall_impl; [exact Hr|]. simpl. intros; lia.
      * eapply Forall_impl; [exact Hfrom|]. simpl.
        intros t [Ht|(b & Hb & Ht)].
        -- pose proof (Hgap a (Z.succ a) ltac:(lia)). lia.
        -- pose proof (Hgap a b ltac:(lia)). lia.
    + apply Forall_app. split.
      * eapply Forall_impl; [exact Hr|]. simpl. intros; lia.
      * eapply Forall_impl; [exact Hfrom|]. simpl.
        intros t [Ht|(b & Hb & Ht)]; right.
        -- exists (Z.succ a). split; [lia|exact Ht].
        -- exists b. split; [lia|exact Ht].
Qed.

Lemma sorted_of_sorted (l : list event) :
  StronglySorted Z.lt (ticks l) -> sorted fst l = l.
Proof.
  unfold ticks. induction l as [|x l IH]; intros Hs; simpl; [reflexivity|].
  inversion Hs as [|? ? Hl Hx]; subst. rewrite IH by exact Hl.
  destruct l as [|y l]; [reflexivity|]. simpl.
  inversion Hx as [|? ? Hxy _]; subst.
  destruct (Z.leb_spec (fst x) (fst y)); [reflexivity|lia].
Qed.

Section Monophonic.
Context {R : PyRandom}.

Lemma melody_step_hit (ls ct : list Z) (base : Z) (s s1 : rng * list event)
    (ih : Z * Z) :
  melody_step ls ct base s ih = Ok s1 ->
  exists c, melody_hit base (fst ih) (snd ih) c /\ snd s1 = snd s ++ c.
Proof.
  destruct s as [g ev], s1 as [g1 ev1], ih as [i hit]. simpl. intros Hrun.
  destruct (Z.eq_dec hit 0) as [->|Hhit].
  - unfold melody_step in Hrun. simpl in Hrun. injection Hrun as <- <-.
    exists []. rewrite app_nil_r. split; [left; auto|reflexivity].
  - apply melody_step_shape in Hrun
      as [[-> _]|(n & sh & a & st & _ & Hsh & _ & Hst & ->)]; [congruence|].
    eexists. split; [|reflexivity]. right. split; [exact Hhit|].
    exists sh, st. do 2 eexists. split; [exact Hsh|]. split; [exact Hst|].
    reflexivity.
Qed.

Lemma melody_bar_sorted (bt : Z) (ls : list Z) (degs : list (list Z))
    (bar : Z) (s s1 : rng * list event) :
  melody_bar bt ls degs s bar = Ok s1 ->
  exists c,
    (StronglySorted Z.lt (ticks c) /\
     Forall (fun t => bar * bt - 20 <= t <= bar * bt + 1510) (ticks c)) /\
    snd s1 = snd s ++ c.
Proof.
  unfold melody_bar.
  destruct (getitem degs bar) as [ct|e0]; [|discriminate].
  cbn [Py.bind]. intros Hloop.
  destruct (for_each_chunks _ (fun s => snd s)
              (fun ih c => melody_hit (bar * bt) (fst ih) (snd ih) c) _
              (fun s0 x s2 _ Hs => melody_step_hit ls ct (bar * bt) s0 s2 x Hs)
              _ _ Hloop) as (cs & Hcs & Hp).
  exists (concat cs). split; [|exact Hp].
  rewrite enumerate_rhythm in Hcs. clear Hp Hloop.
  repeat match goal with
         | H : Forall2 _ (_ :: _) _ |- _ =>
             let Hx := fresh "Hx" in
             inversion H as [|? ? ? ? Hx ?]; clear H; subst;
             destruct Hx as [[Hx ->]|[Hx (? & ? & ? & ? & ? & ? & ->)]];
             simpl in Hx; try congruence; try lia; clear Hx
         | H : Forall2 _ [] _ |- _ => inversion H; clear H; subst
         end.
  unfold ticks. simpl. split.
  - repeat (constructor; [|repeat (constructor; [lia|]); constructor]).
    constructor.
  - repeat (constructor; [lia|]). constructor.
Qed.

Lemma make_melody_sorted (p : SongParams) (degs : list (list Z)) (bt : Z)
    (ev : list event) :
  make_melody p degs bt = Ok ev -> 1531 <= bt ->
  StronglySorted Z.lt (ticks ev).
Proof.
  unfold make_melody.
  destruct (build_scale _ _ _) as [ls|e] eqn:Hscale; [|discriminate].
  cbn [Py.bind].
  destruct (for_each _ _ _) as [[g' ev']|e] eqn:Hloop; [|discriminate].
  cbn [Py.bind]. intros [= <-] Hbt.
  destruct (for_each_chunks _ (fun s => snd s)
              (fun bar c =>
                 StronglySorted Z.lt (ticks c) /\
                 Forall (fun t => bar * bt - 20 <= t <= bar * bt + 1510) (ticks c))
              _
              (fun s0 x s2 _ Hs => melody_bar_sorted bt ls degs x s0 s2 Hs)
              _ _ Hloop) as (chunks & Hchunks & Hev).
  simpl in Hev. subst ev'.
  apply (StronglySorted_chunks (fun b => b * bt - 20) (fun b => b * bt + 1510)
           0 (bars p) chunks); [|exact Hchunks].
  intros b b' Hb. nia.
Qed.
End Monophonic.

(** ** The tempo: the quotient of two integers in binary64 *)

Lemma Zdigits2_unique (m k : Z) :
  0 < m -> 2 ^ (k - 1) <= m < 2 ^ k -> Zdigits2 m = k.
Proof.
  intros Hm [Hlo Hhi]. pose proof (Zdigits2_bound m Hm) as [Hlo' Hhi'].
  assert (Hk : 0 < k).
  { destruct (Z_lt_le_dec 0 k) as [|Hle]; [assumption|].
    assert (2 ^ k <= 1).
    { destruct (Z.eq_dec k 0) as [->|]; [simpl; lia|].
      rewrite Z.pow_neg_r by lia. lia. }
    lia. }
  assert (Hd : 0 < Zdigits2 m).
  { destruct m as [|p|p]; try lia. simpl. lia. }
  assert (H1 : k - 1 < Zdigits2 m).
  { apply (Z.pow_lt_mono_r_iff 2); lia. }
  assert (H2 : Zdigits2 m - 1 < k).
  { apply (Z.pow_lt_mono_r_iff 2); lia. }
  lia.
Qed.

(** Rounding a mantissa of 53 bits leaves it as it is. *)
Lemma binary_round_aux_canonical (s : bool) (m : positive) (e : Z) :
  Zdigits2 (Z.pos m) = 53 -> -1074 <= e <= 971 ->
  binary_round_aux prec emax s (Z.pos m) e loc_Exact = S754_finite s m e.
Proof.
  intros Hd He. unfold binary_round_aux.
  assert (Hs : shr_fexp prec emax (Z.pos m) e loc_Exact
               = ({| shr_m := Z.pos m; shr_r := false; shr_s := false |}, e)).
  { unfold shr_fexp. rewrite Hd. unfold fexp, emin, prec, emax.
    replace (Z.max (53 + e - 53) (3 - 1024 - 53) - e) with 0 by lia.
    reflexivity. }
  rewrite Hs. cbn [shr_m loc_of_shr_record shr_r shr_s round_nearest_even].
  rewrite Hs. cbn [shr_m].
  destruct (Z.leb_spec e (emax - prec)) as [_|Hgt];
    [reflexivity|unfold emax, prec in Hgt; lia].
Qed.

(** [float(b)] for a non-zero integer below [2^53] in absolute value:
    the mantissa is [|b|] shifted to 53 bits. *)
Lemma binary_round_int (s : bool) (b : positive) :
  Z.pos b < 2 ^ 53 ->
  exists m,
    binary_round prec emax s b 0
      = S754_finite s m (Zdigits2 (Z.pos b) - 53) /\
    Z.pos m = Z.pos b * 2 ^ (53 - Zdigits2 (Z.pos b)) /\
    Zdigits2 (Z.pos m) = 53 /\
    1 <= Zdigits2 (Z.pos b) <= 53.
Proof.
  intros Hb. pose proof (Zdigits2_bound (Z.pos b) ltac:(lia)) as [Hlo Hhi].
  set (d := Zdigits2 (Z.pos b)) in *.
  assert (Hd : 1 <= d <= 53).
  { split; [unfold d; simpl; lia|].
    assert (d - 1 < 53) by (apply (Z.pow_lt_mono_r_iff 2); lia). lia. }
  unfold binary_round.
  change (Z.pos (digits2_pos b)) with d.
  assert (Hf : fexp prec emax (d + 0) = d - 53).
  { unfold fexp, emin, prec, emax. lia. }
  rewrite Hf.
  assert (Hal : exists m, shl_align b 0 (d - 53) = (m, d - 53) /\
                          Z.pos m = Z.pos b * 2 ^ (53 - d)).
  { unfold shl_align. destruct (d - 53 - 0) as [|k|k] eqn:Hk; try lia.
    - exists b. replace (d - 53) with 0 by lia.
      replace (53 - d) with 0 by lia. split; [reflexivity|lia].
    - exists (Pos.iter xO b k). split; [reflexivity|].
      rewrite pos_iter_xO. f_equal. f_equal. lia. }
  destruct Hal as (m & -> & Hm). exists m.
  assert (Hdm : Zdigits2 (Z.pos m) = 53).
  { apply Zdigits2_unique; [lia|]. rewrite Hm.
    assert (E1 : 2 ^ (53 - 1) = 2 ^ (d - 1) * 2 ^ (53 - d))
      by (rewrite <- Z.pow_add_r by lia; f_equal; lia).
    assert (E2 : 2 ^ 53 = 2 ^ d * 2 ^ (53 - d))
      by (rewrite <- Z.pow_add_r by lia; f_equal; lia).
    assert (Hp : 0 < 2 ^ (53 - d)) by (apply Z.pow_pos_nonneg; lia).
    rewrite E1, E2. split.
    - apply Z.mul_le_mono_nonneg_r; lia.
    - apply Z.mul_lt_mono_pos_r; lia. }
  split; [|auto].
  apply binary_round_aux_canonical; [exact Hdm|lia].
Qed.

Lemma shr_1_m (r : shr_record) : 0 <= shr_m r -> shr_m (shr_1 r) = shr_m r / 2.
Proof.
  intros Hm. destruct r as [m r s]. simpl in *.
  destruct m as [|[p|p|]|p]; simpl; try lia.
  - reflexivity.
  - rewrite Pos2Z.inj_xI. apply Z.div_unique with 1; lia.
  - rewrite Pos2Z.inj_xO. apply Z.div_unique with 0; lia.
  - reflexivity.
Qed.

Lemma iter_pos_shr_m (p : positive) (r : shr_record) :
  0 <= shr_m r ->
  shr_m (SpecFloat.iter_pos shr_1 p r) = shr_m r / 2 ^ Z.pos p /\
  0 <= shr_m (SpecFloat.iter_pos shr_1 p r).
Proof.
  revert r. induction p as [p IH|p IH|]; intros r Hr.
  - assert (E : 2 ^ Z.pos p~1 = 2 * (2 ^ Z.pos p * 2 ^ Z.pos p)).
    { replace (Z.pos p~1) with (1 + (Z.pos p + Z.pos p)) by lia.
      rewrite !Z.pow_add_r by lia. reflexivity. }
    rewrite E. simpl SpecFloat.iter_pos.
    pose proof (shr_1_m r Hr) as H1.
    assert (H1n : 0 <= shr_m (shr_1 r)) by (rewrite H1; apply Z.div_pos; lia).
    destruct (IH _ H1n) as [H2 H2n]. destruct (IH _ H2n) as [H3 H3n].
    split; [|exact H3n]. rewrite H3, H2, H1.
    assert (0 < 2 ^ Z.pos p) by (apply Z.pow_pos_nonneg; lia).
    rewrite !Z.div_div by lia. reflexivity.
  - assert (E : 2 ^ Z.pos p~0 = 2 ^ Z.pos p * 2 ^ Z.pos p).
    { replace (Z.pos p~0) with (Z.pos p + Z.pos p) by lia.
      rewrite !Z.pow_add_r by lia. reflexivity. }
    rewrite E. simpl SpecFloat.iter_pos.
    destruct (IH _ Hr) as [H2 H2n]. destruct (IH _ H2n) as [H3 H3n].
    split; [|exact H3n]. rewrite H3, H2.
    assert (0 < 2 ^ Z.pos p) by (apply Z.pow_pos_nonneg; lia).
    rewrite !Z.div_div by lia. reflexivity.
  - pose proof (shr_1_m r Hr) as H1. simpl SpecFloat.iter_pos.
    split; [exact H1|]. rewrite H1. apply Z.div_pos; lia.
Qed.

(** The first shift of [binary_round_aux], whatever the location. *)
Lemma shr_fexp_m (m e : Z) (l : location) :
  0 <= m ->
  exists n,
    0 <= n /\
    e + n = Z.max e (fexp prec emax (Zdigits2 m + e)) /\
    snd (shr_fexp prec emax m e l) = e + n /\
    shr_m (fst (shr_fexp prec emax m e l)) = m / 2 ^ n.
Proof.
  intros Hm. unfold shr_fexp, shr.
  assert (H0 : shr_m (shr_record_of_loc m l) = m).
  { destruct l as [|[| |]]; reflexivity. }
  destruct (fexp prec emax (Zdigits2 m + e) - e) as [|p|p] eqn:Hn.
  - exists 0. simpl. rewrite H0, Z.div_1_r. repeat split; lia.
  - exists (Z.pos p). simpl fst. simpl snd.
    destruct (iter_pos_shr_m p (shr_record_of_loc m l)) as [Hq _]; [lia|].
    rewrite Hq, H0. repeat split; lia.
  - exists 0. simpl. rewrite H0, Z.div_1_r. repeat split; lia.
Qed.

Lemma int_of_float_mag (s : bool) (m : positive) (e : Z) :
  e <= 0 ->
  int_of_float (S754_finite s m e)
  = Ok (if s then - (Z.pos m / 2 ^ (- e)) else Z.pos m / 2 ^ (- e)).
Proof.
  intros He. unfold int_of_float.
  destruct (Z.leb_spec 0 e) as [H0|H0]; [|reflexivity].
  assert (e = 0) as -> by lia. simpl. rewrite Z.div_1_r, Z.mul_1_r.
  reflexivity.
Qed.

(** The quotient of two mantissas of 53 bits, before it is rounded. *)
Lemma div_mantissas (m1 m2 : Z) :
  2 ^ 52 <= m1 < 2 ^ 53 -> 2 ^ 52 <= m2 < 2 ^ 53 ->
  2 ^ 52 <= m1 * 2 ^ 53 / m2 < 2 ^ 54.
Proof.
  intros H1 H2. split.
  - apply Z.div_le_lower_bound; [lia|]. nia.
  - apply Z.div_lt_upper_bound; [lia|]. nia.
Qed.

(** Rounding up does not reach the next integer: the quotient of two
    integers is too far below it. *)
Lemma quotient_not_crossed (v1 v2 m2 a q n E P : Z) :
  0 < v1 -> 0 < v2 -> 0 <= n -> 0 <= E -> 0 < m2 -> 0 <= a ->
  2 ^ n * m2 < P ->
  2 ^ E * 2 ^ n * m2 = v2 * P ->
  q * m2 <= v1 * P ->
  a * 2 ^ n <= q ->
  a / 2 ^ E = v1 / v2 ->
  (a + 1) / 2 ^ E = v1 / v2.
Proof.
  intros Hv1 Hv2 Hn HE Hm2 Ha HP HK Hq Haq Hak.
  set (K := 2 ^ E) in *. set (k := v1 / v2) in *.
  assert (HKpos : 0 < K) by (apply Z.pow_pos_nonneg; lia).
  assert (Hnpos : 0 < 2 ^ n) by (apply Z.pow_pos_nonneg; lia).
  pose proof (Z.div_mod a K ltac:(lia)) as Hdm.
  pose proof (Z.mod_pos_bound a K HKpos) as Hmod.
  rewrite Hak in Hdm.
  destruct (Z_lt_le_dec (a mod K + 1) K) as [Hlt|Hge].
  - symmetry. apply Z.div_unique with (a mod K + 1); lia.
  - exfalso.
    assert (Ha1 : a + 1 = (k + 1) * K) by lia.
    pose proof (Z.div_mod v1 v2 ltac:(lia)) as Hdv.
    pose proof (Z.mod_pos_bound v1 v2 Hv2) as Hmv. fold k in Hdv.
    assert (Hgap : 1 <= (k + 1) * v2 - v1) by lia.
    assert (H1 : a * 2 ^ n * m2 <= v1 * P).
    { eapply Z.le_trans; [|exact Hq]. apply Z.mul_le_mono_nonneg_r; lia. }
    assert (H2 : a * 2 ^ n * m2 = (k + 1) * (v2 * P) - 2 ^ n * m2).
    { replace a with ((k + 1) * K - 1) by lia. rewrite <- HK. ring. }
    assert (H3 : ((k + 1) * v2 - v1) * P <= 2 ^ n * m2).
    { rewrite H2 in H1. lia. }
    assert (H4 : P <= ((k + 1) * v2 - v1) * P).
    { assert (0 < P) by lia. nia. }
    lia.
Qed.

(** The integer part of the binary64 quotient of two positive integers
    is their integer quotient. *)
Lemma fdiv_int (sx sy : bool) (m1 m2 : positive) (e1 e2 v1 v2 : Z) :
  0 < v1 -> 0 < v2 ->
  Zdigits2 (Z.pos m1) = 53 -> Zdigits2 (Z.pos m2) = 53 ->
  Z.pos m1 = v1 * 2 ^ (- e1) -> Z.pos m2 = v2 * 2 ^ (- e2) ->
  -52 <= e1 <= -1 -> -52 <= e2 <= 0 ->
  int_of_float (fdiv (S754_finite sx m1 e1) (S754_finite sy m2 e2))
  = Ok (if xorb sx sy then - (v1 / v2) else v1 / v2).
Proof.
  intros Hv1 Hv2 Hd1 Hd2 Hm1 Hm2 He1 He2.
  pose proof (Zdigits2_bound (Z.pos m1) ltac:(lia)) as Hb1.
  pose proof (Zdigits2_bound (Z.pos m2) ltac:(lia)) as Hb2.
  rewrite Hd1 in Hb1. rewrite Hd2 in Hb2.
  change (2 ^ (53 - 1)) with (2 ^ 52) in Hb1, Hb2.
  unfold fdiv, SFdiv, SFdiv_core_binary. rewrite Hd1, Hd2.
  assert (He' : Z.min (fexp prec emax (53 + e1 - (53 + e2))) (e1 - e2)
                = e1 - e2 - 53).
  { unfold fexp, emin, prec, emax. lia. }
  rewrite He'. replace (e1 - e2 - (e1 - e2 - 53)) with 53 by lia.
  cbv iota. rewrite Z.shiftl_mul_pow2 by lia.
  set (M := Z.pos m1 * 2 ^ 53).
  set (e' := e1 - e2 - 53).
  destruct (Z.div_eucl M (Z.pos m2)) as [q r] eqn:Hqr.
  assert (Hq : q = M / Z.pos m2) by (unfold Z.div; rewrite Hqr; reflexivity).
  pose proof (div_mantissas (Z.pos m1) (Z.pos m2) Hb1 Hb2) as Hqb.
  fold M in Hqb. rewrite <- Hq in Hqb.
  generalize (new_location (Z.pos m2) r). intros lz.
  unfold binary_round_aux.
  (* the first shift *)
  destruct (shr_fexp_m q e' lz ltac:(lia)) as (n & Hn & Hmax & Hsnd & Ha).
  destruct (shr_fexp prec emax q e' lz) as [mrs1 e1']. simpl in Hsnd, Ha.
  subst e1'.
  pose proof (Zdigits2_bound q ltac:(lia)) as Hdq.
  assert (Hdq' : 53 <= Zdigits2 q <= 54).
  { destruct Hdq as [Hlo Hhi].
    assert (0 < Zdigits2 q) by (destruct q; simpl; lia). split.
    - assert (52 < Zdigits2 q) by (apply (Z.pow_lt_mono_r_iff 2); lia). lia.
    - assert (Zdigits2 q - 1 < 54) by (apply (Z.pow_lt_mono_r_iff 2); lia). lia. }
  assert (Hnq : n = Zdigits2 q - 53).
  { unfold fexp, emin, prec, emax in Hmax. unfold e' in *. lia. }
  assert (Hpn : 0 < 2 ^ n) by (apply Z.pow_pos_nonneg; lia).
  set (a := shr_m mrs1) in *.
  assert (Hab : 2 ^ 52 <= a < 2 ^ 53).
  { rewrite Ha. destruct Hdq as [Hlo Hhi]. split.
    - apply Z.div_le_lower_bound; [exact Hpn|].
      rewrite Z.mul_comm, <- Z.pow_add_r by lia.
      replace (52 + n) with (Zdigits2 q - 1) by lia. exact Hlo.
    - apply Z.div_lt_upper_bound; [exact Hpn|].
      rewrite <- Z.pow_add_r by lia.
      replace (n + 53) with (Zdigits2 q) by lia. exact Hhi. }
  (* rounding *)
  destruct (round_nearest_even_bounds a (loc_of_shr_record mrs1)) as [Hr _].
  set (mr := round_nearest_even a (loc_of_shr_record mrs1)) in *.
  (* the second shift *)
  destruct (shr_fexp_exact mr (e' + n) ltac:(lia))
    as (n2 & Hn2 & Hmax2 & Hsnd2 & Hq2 & _).
  destruct (shr_fexp prec emax mr (e' + n) loc_Exact) as [mrs2 e2'].
  simpl in Hsnd2, Hq2. subst e2'.
  assert (Hdr : Zdigits2 mr <= 54).
  { pose proof (Zdigits2_bound mr ltac:(lia)) as [Hlo _].
    assert (0 < Zdigits2 mr) by (destruct mr; simpl; lia).
    assert (Zdigits2 mr - 1 < 54).
    { apply (Z.pow_lt_mono_r_iff 2); [lia|lia|].
      apply Z.le_lt_trans with mr; [exact Hlo|].
      change (2 ^ 54) with (2 * 2 ^ 53). lia. }
    lia. }
  assert (Hfin : e' + n + n2 <= 0).
  { unfold fexp, emin, prec, emax in Hmax2. unfold e' in *. lia. }
  assert (Hpn2 : 0 < 2 ^ n2) by (apply Z.pow_pos_nonneg; lia).
  (* the integer part *)
  set (E := - (e' + n)).
  assert (HE : 0 <= E) by (unfold E, e' in *; lia).
  assert (Hmag : mr / 2 ^ n2 / 2 ^ (- (e' + n + n2)) = mr / 2 ^ E).
  { rewrite Z.div_div by (try apply Z.pow_pos_nonneg; lia).
    rewrite <- Z.pow_add_r by lia. f_equal. f_equal. unfold E. lia. }
  set (P := 2 ^ (53 - e1)).
  assert (HM : M = v1 * P).
  { unfold M, P. rewrite Hm1, <- Z.mul_assoc, <- Z.pow_add_r by lia.
    f_equal. f_equal. lia. }
  assert (HK : 2 ^ E * 2 ^ n * Z.pos m2 = v2 * P).
  { unfold P. rewrite Hm2. rewrite <- Z.pow_add_r by lia.
    rewrite (Z.mul_comm v2), Z.mul_assoc, <- Z.pow_add_r by lia.
    rewrite Z.mul_comm. f_equal. f_equal. unfold E, e'. lia. }
  assert (Hak : a / 2 ^ E = v1 / v2).
  { rewrite Ha, Z.div_div by (try apply Z.pow_pos_nonneg; lia).
    rewrite Hq, Z.div_div by (try apply Z.mul_pos_pos; try apply Z.pow_pos_nonneg; lia).
    rewrite HM.
    replace (Z.pos m2 * (2 ^ n * 2 ^ E)) with (v2 * P) by (rewrite <- HK; ring).
    apply Z.div_mul_cancel_r; [lia|]. unfold P.
    assert (0 < 2 ^ (53 - e1)) by (apply Z.pow_pos_nonneg; lia). lia. }
  assert (Hmrk : mr / 2 ^ E = v1 / v2).
  { assert (Hcase : mr = a \/ mr = a + 1) by lia.
    destruct Hcase as [->| ->]; [exact Hak|].
    apply (quotient_not_crossed v1 v2 (Z.pos m2) a q n E P); try lia.
    - unfold P. apply Z.lt_le_trans with (2 ^ 1 * 2 ^ 53).
      + assert (2 ^ n <= 2 ^ 1) by (apply Z.pow_le_mono_r; lia). nia.
      + rewrite <- Z.pow_add_r by lia. apply Z.pow_le_mono_r; lia.
    - rewrite <- HM, Hq, Z.mul_comm. apply Z.mul_div_le. lia.
    - rewrite Ha, Z.mul_comm. apply Z.mul_div_le. exact Hpn. }
  destruct (shr_m mrs2) as [|mf|mf] eqn:Hmf.
  - simpl. f_equal. rewrite <- Hmrk, <- Hmag, <- Hq2. simpl.
    destruct (xorb sx sy); reflexivity.
  - destruct (Z.leb_spec (e' + n + n2) (emax - prec)) as [_|Hgt];
      [|unfold emax, prec in Hgt; lia].
    rewrite int_of_float_mag by exact Hfin.
    rewrite Hq2, Hmag, Hmrk. reflexivity.
  - exfalso. assert (0 <= mr / 2 ^ n2) by (apply Z.div_pos; lia). lia.
Qed.

Lemma float_of_int_60000000 :
  float_of_int 60000000 = S754_finite false 8053063680000000 (-27).
Proof. vm_compute. reflexivity. Qed.

(** [int(60_000_000 / bpm)] is the integer quotient, rounded toward
    zero: the division in binary64 loses nothing of it. *)
Lemma tempo_of_bpm (p : SongParams) :
  (1 <= bpm p < 2 ^ 53 -> tempo_of p = Ok (60000000 / bpm p)) /\
  (- 2 ^ 53 < bpm p <= -1 -> tempo_of p = Ok (- (60000000 / - bpm p))).
Proof.
  unfold tempo_of, truediv. split; intros Hb.
  - destruct (Z.eqb_spec (bpm p) 0) as [|_]; [lia|]. cbn [Py.bind].
    destruct (bpm p) as [|b|b] eqn:Hbpm; try lia.
    rewrite float_of_int_60000000. unfold float_of_int at 1.
    cbn [binary_normalize].
    destruct (binary_round_int false b ltac:(lia)) as (m & -> & Hm & Hdm & Hd).
    rewrite (fdiv_int false false 8053063680000000 m (-27)
               (Zdigits2 (Z.pos b) - 53) 60000000 (Z.pos b));
      try reflexivity; try lia.
    rewrite Hm. f_equal. f_equal. lia.
  - destruct (Z.eqb_spec (bpm p) 0) as [|_]; [lia|]. cbn [Py.bind].
    destruct (bpm p) as [|b|b] eqn:Hbpm; try lia.
    rewrite float_of_int_60000000. unfold float_of_int at 1.
    cbn [binary_normalize].
    destruct (binary_round_int true b ltac:(lia)) as (m & -> & Hm & Hdm & Hd).
    rewrite (fdiv_int false true 8053063680000000 m (-27)
               (Zdigits2 (Z.pos b) - 53) 60000000 (Z.pos b));
      try reflexivity; try lia.
    rewrite Hm. f_equal. f_equal. lia.
Qed.

(** ** Reading the file back *)

Lemma read_be_4 (n : Z) :
  0 <= n < 2 ^ 32 -> read_be (big_endian 4 n) = n.
Proof.
  intros Hn. unfold read_be. cbn [big_endian foldl Z.of_nat Pos.of_succ_nat].
  change 255 with (Z.ones 8). rewrite !Z.land_ones, !Z.shiftr_div_pow2 by lia.
  change (8 * Z.of_nat 3) with 24. change (8 * Z.of_nat 2) with 16.
  change (8 * Z.of_nat 1) with 8. change (8 * Z.of_nat 0) with 0.
  change (2 ^ 0) with 1. change (2 ^ 8) with 256.
  change (2 ^ 16) with 65536. change (2 ^ 24) with 16777216.
  change (2 ^ 32) with 4294967296 in Hn.
  rewrite Z.div_1_r.
  pose proof (Z.div_mod n 256 ltac:(lia)).
  pose proof (Z.div_mod (n / 256) 256 ltac:(lia)).
  pose proof (Z.div_mod (n / 256 / 256) 256 ltac:(lia)).
  replace (n / 65536) with (n / 256 / 256)
    by (rewrite Z.div_div by lia; reflexivity).
  replace (n / 16777216) with (n / 256 / 256 / 256)
    by (rewrite !Z.div_div by lia; reflexivity).
  assert (n / 256 / 256 / 256 < 256).
  { apply Z.div_lt_upper_bound; [lia|].
    apply Z.div_lt_upper_bound; [lia|].
    apply Z.div_lt_upper_bound; lia. }
  assert (0 <= n / 256 / 256 / 256) by (repeat (apply Z.div_pos; [|lia]); lia).
  rewrite (Z.mod_small (n / 256 / 256 / 256) 256) by lia. lia.
Qed.

Lemma length_big_endian (len : nat) (n : Z) : length (big_endian len n) = len.
Proof. induction len as [|len IH]; simpl; [reflexivity|]. rewrite IH. reflexivity. Qed.

Lemma chunk_ok (t c : list Z) :
  chunk t = Ok c ->
  c = [77; 84; 114; 107] ++ big_endian 4 (Z.of_nat (length t)) ++ t /\
  Z.of_nat (length t) < 2 ^ 32.
Proof.
  unfold chunk, pack_field.
  destruct (Z.leb_spec 0 (Z.of_nat (length t))); [|lia].
  destruct (Z.ltb_spec (Z.of_nat (length t)) (2 ^ (8 * Z.of_nat 4)));
    [|discriminate].
  cbn [andb Py.bind]. intros [= <-]. split; [reflexivity|assumption].
Qed.

Lemma read_chunks_chunk (n : nat) (t c rest : list Z) :
  chunk t = Ok c ->
  read_chunks (S n) (c ++ rest) =
  match read_chunks n rest with
  | Some tracks => Some (t :: tracks)
  | None => None
  end.
Proof.
  intros Hc. apply chunk_ok in Hc as [-> Hlen].
  cbn [read_chunks].
  set (L := big_endian 4 (Z.of_nat (length t))).
  assert (HL : length L = 4%nat) by apply length_big_endian.
  destruct L as [|l0 [|l1 [|l2 [|l3 [|]]]]] eqn:EL; try discriminate.
  cbn [app firstn skipn]. rewrite ?take_0, ?drop_0.
  rewrite bool_decide_eq_true_2 by reflexivity.
  assert (Hbe : read_be [l0; l1; l2; l3] = Z.of_nat (length t)).
  { rewrite <- EL. apply read_be_4. lia. }
  rewrite Hbe, Nat2Z.id.
  rewrite take_app_length, drop_app_length.
  rewrite (proj2 (Nat.leb_le 8 _)) by (cbn [length]; lia).
  rewrite (proj2 (Nat.leb_le (length t) _)) by (rewrite length_app; lia).
  reflexivity.
Qed.

Section Parts.
Context {R : PyRandom}.

Lemma generate_parts (p : SongParams) (out : list Z) :
  generate_song_bytes p = Ok out ->
  exists tempo tb chord_ev degs melody_ev t0 t1 t2 t3 c0 c1 c2 c3,
    tempo_of p = Ok tempo /\ to_bytes tempo 3 = Ok tb /\
    make_chords p (time_sig_num p * PPQN) = Ok (chord_ev, degs) /\
    make_melody p degs (time_sig_num p * PPQN) = Ok melody_ev /\
    build_track [(0, [255; 81; 3] ++ tb)] = Ok t0 /\
    build_track chord_ev = Ok t1 /\
    build_track melody_ev = Ok t2 /\
    build_track (make_drums p (time_sig_num p * PPQN)) = Ok t3 /\
    chunk t0 = Ok c0 /\ chunk t1 = Ok c1 /\ chunk t2 = Ok c2 /\
    chunk t3 = Ok c3 /\
    out = header4 ++ c0 ++ c1 ++ c2 ++ c3.
Proof.
  unfold generate_song_bytes.
  destruct (tempo_of p) as [tempo|] eqn:Ht; [|discriminate]. cbn [Py.bind].
  destruct (to_bytes tempo 3) as [tb|] eqn:Htb; [|discriminate]. cbn [Py.bind].
  destruct (make_chords p _) as [[chord_ev degs]|] eqn:Hc; [|discriminate].
  cbn [Py.bind].
  destruct (make_melody p degs _) as [melody_ev|] eqn:Hm; [|discriminate].
  cbn [Py.bind].
  destruct (build_track [(0, [255; 81; 3] ++ tb)]) as [t0|] eqn:H0; [|discriminate].
  cbn [Py.bind].
  destruct (build_track chord_ev) as [t1|] eqn:H1; [|discriminate].
  cbn [Py.bind].
  destruct (build_track melody_ev) as [t2|] eqn:H2; [|discriminate].
  cbn [Py.bind].
  destruct (build_track (make_drums p _)) as [t3|] eqn:H3; [|discriminate].
  cbn [Py.bind].
  change (pack_field 4 6) with (Ok [0; 0; 0; 6]).
  change (pack_field 2 1) with (Ok [0; 1]).
  change (pack_field 2 (Z.of_nat (length [t0; t1; t2; t3]))) with (Ok [0; 4]).
  change (pack_field 2 PPQN) with (Ok [1; 224]).
  cbn [Py.bind for_each].
  destruct (chunk t0) as [c0|] eqn:E0; [|discriminate]. cbn [Py.bind].
  destruct (chunk t1) as [c1|] eqn:E1; [|discriminate]. cbn [Py.bind].
  destruct (chunk t2) as [c2|] eqn:E2; [|discriminate]. cbn [Py.bind].
  destruct (chunk t3) as [c3|] eqn:E3; [|discriminate]. cbn [Py.bind].
  intros [= <-].
  exists tempo, tb, chord_ev, degs, melody_ev, t0, t1, t2, t3, c0, c1, c2, c3.
  repeat (split; [first [assumption|reflexivity]|]).
  unfold header4. cbn [app]. rewrite <- !app_assoc. reflexivity.
Qed.
End Parts.

Lemma int_of_float_raise (x : float) (e : exn) :
  int_of_float x = Raise e -> e = ValueError \/ e = OverflowError.
Proof. destruct x; simpl; intros [= <-]; auto. Qed.

Section Raises.
Context {R : PyRandom}.

Lemma chord_note_raise (p : SongParams) (st et : Z) (s : rng * list event)
    (n : Z) (e : exn) :
  chord_note p st et s n = Raise e -> e = ValueError \/ e = OverflowError.
Proof.
  destruct s as [g ev]. unfold chord_note.
  destruct (randint 0 40 g) as [stagger g1].
  destruct (randint (-5) 5 g1) as [jitter g2].
  destruct (int_of_float _) as [vel|e'] eqn:Hv; cbn [Py.bind]; [discriminate|].
  intros [= <-]. eapply int_of_float_raise. exact Hv.
Qed.

Lemma chord_bar_raise (p : SongParams) (bt : Z) (scale : list Z)
    (tokens : list string) (s : rng * list event * list (list Z)) (bar : Z)
    (e : exn) :
  0 <= bar -> length scale = 7%nat ->
  chord_bar p bt scale tokens s bar = Raise e ->
  e = ZeroDivisionError \/ e = ValueError \/ e = OverflowError.
Proof.
  intros Hbar Hlen. destruct s as [[g ev] degs]. unfold chord_bar.
  destruct (Z.eqb_spec (Z.of_nat (length tokens)) 0) as [|Hne].
  { cbn [Py.bind]. intros [= <-]. auto. }
  pose proof (Z.mod_pos_bound bar (Z.of_nat (length tokens)) ltac:(lia)) as Hm.
  destruct (getitem_ok tokens _ Hm) as (token & -> & _). cbn [Py.bind].
  pose proof (roman_to_degree_range token) as Hr.
  set (r := roman_to_degree token) in *.
  pose proof (Z.mod_pos_bound r 7 ltac:(lia)) as H0.
  pose proof (Z.mod_pos_bound (r + 2) 7 ltac:(lia)) as H1.
  pose proof (Z.mod_pos_bound (r + 4) 7 ltac:(lia)) as H2.
  destruct (getitem_ok scale (r mod 7) ltac:(lia)) as (n0 & -> & _).
  cbn [Py.bind].
  destruct (getitem_ok scale ((r + 4) mod 7) ltac:(lia)) as (n2 & -> & _).
  cbn [Py.bind].
  destruct (getitem_ok scale ((r + 2) mod 7) ltac:(lia)) as (n1 & -> & _).
  cbn [Py.bind].
  intros Hrun.
  destruct (for_each _ _ _) as [[g' ev']|e'] eqn:Hloop;
    cbn [Py.bind] in Hrun; [discriminate|].
  injection Hrun as <-. right.
  apply (for_each_raise_only _ (fun e => e = ValueError \/ e = OverflowError)
           _ (fun s y e0 _ => chord_note_raise p _ _ s y e0) _ _ Hloop).
Qed.

Lemma make_chords_raise (p : SongParams) (bt : Z) (e : exn) :
  make_chords p bt = Raise e ->
  e = KeyError \/ e = ZeroDivisionError \/ e = ValueError \/ e = OverflowError.
Proof.
  unfold make_chords.
  destruct (build_scale _ _ _) as [scale|e'] eqn:Hscale; cbn [Py.bind].
  - intros Hrun.
    destruct (for_each _ _ _) as [[[g' ev'] degs']|e'] eqn:Hloop;
      cbn [Py.bind] in Hrun; [discriminate|].
    injection Hrun as <-. right.
    apply build_scale_range in Hscale as (root & _ & Hlen & _).
    apply (for_each_raise_only _
             (fun e => e = ZeroDivisionError \/ e = ValueError \/ e = OverflowError)
             _ (fun s bar e0 Hin =>
                  chord_bar_raise p bt scale _ s bar e0
                    (proj1 (proj1 (elem_of_range _ _) Hin)) Hlen) _ _ Hloop).
  - intros [= <-]. left.
    unfold build_scale, midi_note in Hscale.
    destruct (NOTE_TO_SEMI !! key p); cbn [Py.bind] in Hscale; congruence.
Qed.

Lemma tempo_of_raise (p : SongParams) (e : exn) :
  tempo_of p = Raise e ->
  e = ZeroDivisionError \/ e = ValueError \/ e = OverflowError.
Proof.
  unfold tempo_of, truediv. destruct (bpm p =? 0); cbn [Py.bind].
  - intros [= <-]. auto.
  - intros H. right. eapply int_of_float_raise. exact H.
Qed.

Lemma chunk_raise (t : list Z) (e : exn) : chunk t = Raise e -> e = StructError.
Proof.
  unfold chunk, pack_field. destruct (_ && _); cbn [Py.bind]; congruence.
Qed.

Lemma build_track_raise (events : list event) (e : exn) :
  build_track events = Raise e -> e = ValueError.
Proof. rewrite build_track_eq. destruct (messages_ok events); congruence. Qed.

Lemma generate_raise (p : SongParams) (e : exn) :
  generate_song_bytes p = Raise e -> e <> IndexError.
Proof.
  unfold generate_song_bytes.
  destruct (tempo_of p) as [tempo|e0] eqn:Ht; cbn [Py.bind].
  2:{ intros [= <-]. apply tempo_of_raise in Ht. intuition congruence. }
  destruct (to_bytes tempo 3) as [tb|e0] eqn:Htb; cbn [Py.bind].
  2:{ intros [= <-]. unfold to_bytes in Htb. destruct (_ && _); congruence. }
  destruct (make_chords p _) as [[chord_ev degs]|e0] eqn:Hc; cbn [Py.bind].
  2:{ intros [= <-]. apply make_chords_raise in Hc. intuition congruence. }
  destruct (make_melody p degs _) as [melody_ev|e0] eqn:Hm; cbn [Py.bind].
  2:{ exfalso. apply make_chords_shape in Hc
        as (scale & chunks & Hscale & _ & _ & Hdegs).
      unfold build_scale, midi_note in Hscale.
      destruct (NOTE_TO_SEMI !! key p) as [semi|] eqn:Hkey; [|discriminate].
      destruct (make_melody_ok p degs (time_sig_num p * PPQN) _ semi Hkey Hdegs)
        as [mel Hmel].
      congruence. }
  destruct (build_track [(0, [255; 81; 3] ++ tb)]) as [t0|e0] eqn:H0; cbn [Py.bind].
  2:{ intros [= <-]. apply build_track_raise in H0. congruence. }
  destruct (build_track chord_ev) as [t1|e0] eqn:H1; cbn [Py.bind].
  2:{ intros [= <-]. apply build_track_raise in H1. congruence. }
  destruct (build_track melody_ev) as [t2|e0] eqn:H2; cbn [Py.bind].
  2:{ intros [= <-]. apply build_track_raise in H2. congruence. }
  destruct (build_track (make_drums p _)) as [t3|e0] eqn:H3; cbn [Py.bind].
  2:{ intros [= <-]. apply build_track_raise in H3. congruence. }
  change (pack_field 4 6) with (Ok [0; 0; 0; 6]).
  change (pack_field 2 1) with (Ok [0; 1]).
  change (pack_field 2 (Z.of_nat (length [t0; t1; t2; t3]))) with (Ok [0; 4]).
  change (pack_field 2 PPQN) with (Ok [1; 224]).
  cbn [Py.bind for_each].
  destruct (chunk t0) as [c0|e0] eqn:E0; cbn [Py.bind].
  2:{ intros [= <-]. apply chunk_raise in E0. congruence. }
  destruct (chunk t1) as [c1|e0] eqn:E1; cbn [Py.bind].
  2:{ intros [= <-]. apply chunk_raise in E1. congruence. }
  destruct (chunk t2) as [c2|e0] eqn:E2; cbn [Py.bind].
  2:{ intros [= <-]. apply chunk_raise in E2. congruence. }
  destruct (chunk t3) as [c3|e0] eqn:E3; cbn [Py.bind].
  2:{ intros [= <-]. apply chunk_raise in E3. congruence. }
  discriminate.
Qed.
End Raises.

Section FirstErrors.
Context {R : PyRandom}.



End FirstErrors.

(** The buffer reads back as a file of four track chunks. *)
Lemma generate_reads_back {R : PyRandom} (p : SongParams)
    (out : list Z) :
  generate_song_bytes p = Ok out ->
  exists tempo tb chord_ev degs melody_ev t1 t2 t3,
    tempo_of p = Ok tempo /\ to_bytes tempo 3 = Ok tb /\
    make_chords p (time_sig_num p * PPQN) = Ok (chord_ev, degs) /\
    make_melody p degs (time_sig_num p * PPQN) = Ok melody_ev /\
    build_track chord_ev = Ok t1 /\
    build_track melody_ev = Ok t2 /\
    build_track (make_drums p (time_sig_num p * PPQN)) = Ok t3 /\
    read_file out =
      Some (1, 480, [[0; 255; 81; 3] ++ tb ++ [0; 255; 47; 0]; t1; t2; t3]).
Proof.
  intros Hrun.
  apply generate_parts in Hrun
    as (tempo & tb & chord_ev & degs & melody_ev & t0 & t1 & t2 & t3
        & c0 & c1 & c2 & c3 & Ht & Htb & Hc & Hm & H0 & H1 & H2 & H3
        & E0 & E1 & E2 & E3 & ->).
  exists tempo, tb, chord_ev, degs, melody_ev, t1, t2, t3.
  repeat (split; [assumption|]).
  assert (Ht0 : t0 = [0; 255; 81; 3] ++ tb ++ [0; 255; 47; 0]).
  { rewrite build_track_eq in H0. destruct (messages_ok _); [|discriminate].
    injection H0 as <-. cbn [sorted foldr insert_by track_body].
    change (0 - 0) with 0. rewrite write_varlen_0, app_nil_r. cbn [app].
    reflexivity. }
  rewrite <- Ht0. unfold read_file, header4. cbn [app firstn skipn length].
  rewrite bool_decide_eq_true_2 by reflexivity. cbn [andb Nat.leb].
  rewrite ?take_0, ?drop_0.
  change (read_be [0; 1]) with 1. change (read_be [0; 4]) with 4.
  change (read_be [1; 224]) with 480. change (Z.to_nat 4) with 4%nat.
  rewrite (read_chunks_chunk 3 t0 c0 _ E0), (read_chunks_chunk 2 t1 c1 _ E1),
    (read_chunks_chunk 1 t2 c2 _ E2).
  rewrite <- (app_nil_r c3), (read_chunks_chunk 0 t3 c3 [] E3).
  reflexivity.
Qed.

(** ** When generation succeeds *)












Section Plain.
Context {R : PyRandom}.




End Plain.

Section Succeeds.
Context {R : PyRandom}.




End Succeeds.

(** ** Reading the generated tracks back *)

Lemma read_back_delayed (events : list event) :
  StronglySorted Z.lt (ticks events) ->
  Forall (tick_from (-20)) events ->
  exists delay, 0 <= delay <= 20 /\
    forall data, build_track events = Ok data ->
    exists ds,
      read_deltas (map (fun e => length (snd e)) events) data = Some ds /\
      running_sum 0 ds = map (fun t => t + delay) (ticks events).
Proof.
  intros Hsorted Hfrom.
  pose proof (sorted_of_sorted events Hsorted) as Hs.
  assert (Hcases : events = [] \/
            exists m, m ∈ ticks events /\ -20 <= m /\
                      Forall (tick_from m) events).
  { destruct events as [|[m msg] rest]; [left; reflexivity|right].
    exists m. split; [unfold ticks; simpl; left|].
    inversion Hfrom as [|? ? Hm _]; subst.
    unfold tick_from in Hm. simpl in Hm. split; [exact Hm|].
    unfold ticks in Hsorted. simpl in Hsorted.
    inversion Hsorted as [|? ? _ Hx]; subst.
    constructor; [unfold tick_from; simpl; lia|].
    rewrite Forall_fmap in Hx. eapply Forall_impl; [exact Hx|].
    unfold tick_from. simpl. intros; lia. }
  destruct Hcases as [->|(m & Hin & Hm & Hall)].
  { exists 0. split; [lia|]. intros data Hdata.
    exists []. split; reflexivity. }
  destruct (Z_le_gt_dec m 0) as [Hneg|Hpos].
  - exists (- m). split; [lia|]. intros data Hdata.
    destruct (build_track_early _ m Hneg Hin Hall) as [_ Hread].
    destruct (Hread data Hdata) as (ds & Hds & Hsum).
    rewrite Hs in Hds, Hsum. exists ds. split; [exact Hds|].
    rewrite Hsum. apply map_ext. intros t. lia.
  - exists 0. split; [lia|]. intros data Hdata.
    assert (Hnn : Forall (tick_from 0) events).
    { eapply Forall_impl; [exact Hall|]. unfold tick_from. intros; lia. }
    destruct (delta_reconstruction_of_nonneg _ Hnn data Hdata)
      as (ds & Hds & Hsum).
    rewrite Hs in Hds, Hsum. exists ds. split; [exact Hds|].
    rewrite Hsum. rewrite <- (map_id (ticks events)) at 1.
    apply map_ext. intros t. lia.
Qed.

(** ** The script of [app2.py] *)

Lemma app2_build_track_fuel (fuel : nat) (events : list event) :
  (1 <= fuel)%nat ->
  Forall (fun d => 0 <= d /\ groups7 d <= Z.of_nat fuel)
         (deltas_from 0 (sorted fst events)) ->
  App2.build_track fuel events = Some (build_track events).
Proof.
  intros Hfuel Hd. unfold App2.build_track, build_track.
  rewrite app2_track_loop by exact Hd.
  destruct (for_each track_step (sorted fst events) ([], 0)) as [[data last]|e];
    cbn [Py.bind fst]; [|reflexivity].
  assert (Hw : App2.write_varlen fuel 0 = Some (write_varlen 0)).
  { apply app2_write_varlen_iff. change (groups7 0) with 1. split; [lia|].
    split; [lia|reflexivity]. }
  rewrite Hw. reflexivity.
Qed.

Lemma groups7_two (d : Z) : 0 <= d < 16384 -> groups7 d <= 2.
Proof.
  intros Hd. unfold groups7. destruct (Z.eqb_spec d 0); [lia|].
  assert (Hlog : Z.log2 d < 14) by (apply Z.log2_lt_pow2; lia).
  pose proof (Z.log2_nonneg d).
  assert (Z.log2 d / 7 < 2) by (apply Z.div_lt_upper_bound; lia). lia.
Qed.

Lemma app2_build_track_small (fuel : nat) (events : list event) :
  (2 <= fuel)%nat ->
  forallb (fun d => (0 <=? d) && (d <? 16384))
          (deltas_from 0 (sorted fst events)) = true ->
  App2.build_track fuel events = Some (build_track events).
Proof.
  intros Hfuel Hd. apply app2_build_track_fuel; [lia|].
  rewrite forallb_forall in Hd. apply Forall_forall. intros d Hin.
  apply list_elem_of_In in Hin. specialize (Hd d Hin).
  apply andb_prop in Hd as [H1 H2].
  apply Z.leb_le in H1. apply Z.ltb_lt in H2.
  pose proof (groups7_two d ltac:(lia)). lia.
Qed.

(** * The properties *)

(** ** Determinism *)



(** ** The variable-length encoder *)

(** C2. For a non-negative [v], reading back what the encoder wrote gives
    [v] (and leaves what follows unread); 0 is encoded as one zero byte;
    a value that requires [k] groups of 7 bits is encoded as the [k]
    bytes that hold these groups, the most significant first, with the
    high bit set on all but the last; the encoder of [app2.py] returns
    the same bytes. *)
Theorem write_varlen_roundtrip (v : Z) :
  0 <= v ->
  (forall rest, read_varlen (write_varlen v ++ rest) = Some (v, rest)) /\
  write_varlen 0 = [0] /\
  (0 < v -> 128 ^ (groups7 v - 1) <= v < 128 ^ groups7 v) /\
  Z.of_nat (length (write_varlen v)) = groups7 v /\
  write_varlen v = varlen_groups v /\
  App2.write_varlen (Z.to_nat (groups7 v)) v = Some (write_varlen v).
Proof.
  intros Hv. repeat split.
  - intros rest. apply read_write_varlen. exact Hv.
  - apply groups7_bounds. assumption.
  - apply groups7_bounds. assumption.
  - rewrite write_varlen_groups by exact Hv. apply length_varlen_groups. exact Hv.
  - apply write_varlen_groups. exact Hv.
  - apply app2_write_varlen. exact Hv.
Qed.

Lemma write_varlen_roundtrip_witness :
  0 <= 2097279 /\
  read_varlen (write_varlen 2097279 ++ [144; 60; 100]) =
    Some (2097279, [144; 60; 100]) /\
  128 ^ (groups7 2097279 - 1) <= 2097279 < 128 ^ groups7 2097279 /\
  write_varlen 2097279 = varlen_groups 2097279 /\
  App2.write_varlen 4 2097279 = Some (write_varlen 2097279).
Proof.
  destruct (write_varlen_roundtrip 2097279 ltac:(lia))
    as (Hread & _ & Hbounds & _ & Hgroups & Happ2).
  split; [lia|]. split; [apply Hread|]. split; [apply Hbounds; lia|].
  split; [exact Hgroups|exact Happ2].
Defined.

(** C3, as stated: the encoding of 300 would be [0xA2, 0x2C]. It is not. *)
Lemma write_varlen_300_not_A2_2C : write_varlen 300 <> [162; 44].
Proof. vm_compute. discriminate. Qed.

(** C3, amended. The encoder applied to 300 returns the two bytes
    [0x82, 0x2C]: 300 is 2 * 128 + 44. *)
Theorem write_varlen_300 : write_varlen 300 = [130; 44].
Proof. vm_compute. reflexivity. Qed.

(** C10. The encoder of [song_generator.py] is a total function on the
    integers (its loop is defined by well-founded recursion): for every
    [v] it returns the base-128 encoding of [max(0, v)], which reads back
    as [max(0, v)]; a negative value is encoded as the single byte 0, and
    so is a negative delta in [build_track], which goes on with the
    message instead of raising. *)
Theorem write_varlen_total (v : Z) :
  write_varlen v = varlen_groups (Z.max 0 v) /\
  read_varlen (write_varlen v) = Some (Z.max 0 v, []) /\
  (v < 0 -> write_varlen v = [0]) /\
  (forall data last tick msg,
     tick - last = v -> v < 0 -> forallb is_byte msg = true ->
     track_step (data, last) (tick, msg) = Ok (data ++ [0] ++ msg, tick)).
Proof.
  assert (Hneg : v < 0 -> write_varlen v = [0]).
  { intros Hv. rewrite write_varlen_clamp, Z.max_l by lia. reflexivity. }
  repeat split.
  - rewrite write_varlen_clamp. apply write_varlen_groups. lia.
  - rewrite write_varlen_clamp.
    rewrite <- (app_nil_r (write_varlen (Z.max 0 v))).
    apply read_write_varlen. lia.
  - exact Hneg.
  - intros data last tick msg Hd Hv Hmsg. unfold track_step.
    rewrite extend_varlen. cbn [Py.bind]. rewrite Hd, (Hneg Hv).
    unfold extend. rewrite Hmsg. rewrite <- app_assoc. reflexivity.
Qed.

Lemma write_varlen_total_witness :
  -17 < 0 /\
  write_varlen (-17) = [0] /\
  track_step ([], 0) (-17, [145; 72; 96]) = Ok ([0; 145; 72; 96], -17).
Proof.
  destruct (write_varlen_total (-17)) as (_ & _ & Hneg & Hstep).
  split; [lia|]. split; [apply Hneg; lia|].
  apply (Hstep [] 0 (-17) [145; 72; 96]); [lia|lia|reflexivity].
Defined.

(** ** Delta times *)

(** C4, as stated, fails on the melody track of the default
    configuration (seed 42): its first note-on is at tick -17, the delta
    -17 is stored as 0, and the ticks read back start at 0. *)
Lemma delta_reconstruction_fails_on_default_melody :
  exists chord_ev degs events,
    make_chords (R := MT19937_random) default_params
      (time_sig_num default_params * PPQN) = Ok (chord_ev, degs) /\
    make_melody (R := MT19937_random) default_params degs
      (time_sig_num default_params * PPQN) = Ok events /\
    ~ delta_reconstruction events.
Proof.
  do 3 eexists. split; [exact default_chords_eq|].
  split; [exact default_melody_eq|].
  intros Hrec.
  match goal with
  | H : delta_reconstruction ?evs |- _ =>
      let d := eval vm_compute in (build_track evs) in
      match d with
      | Ok ?data =>
          assert (Hd : build_track evs = Ok data) by (vm_compute; reflexivity);
          destruct (H data Hd) as (ds & Hread & Hsum)
      end
  end.
  vm_compute in Hread. injection Hread as <-.
  vm_compute in Hsum. discriminate Hsum.
Qed.

(** C4, amended. For every track whose events have no negative tick, the
    stored delta times, read back in order and added up, are exactly the
    ticks of the events in sorted order (which are the ticks of the
    events, sorted). *)
Theorem delta_reconstruction_nonneg (events : list event) :
  Forall (tick_from 0) events ->
  (messages_ok events = true -> exists data, build_track events = Ok data) /\
  delta_reconstruction events /\
  StronglySorted Z.le (ticks (sorted fst events)) /\
  Permutation (ticks (sorted fst events)) (ticks events).
Proof.
  intros Hnn.
  split; [|split; [|split; [apply ticks_sorted|apply ticks_Permutation]]].
  { intros Hok. rewrite build_track_eq, Hok. eauto. }
  intros data Hdata. rewrite build_track_eq in Hdata.
  destruct (messages_ok events); [|discriminate].
  injection Hdata as <-.
  exists (deltas_from 0 (sorted fst events)). split.
  - apply read_track_body. apply deltas_nonneg; [apply sorted_sorted|].
    eapply Permutation_Forall; [symmetry; apply sorted_Permutation|exact Hnn].
  - apply running_sum_deltas.
Qed.

Lemma delta_reconstruction_nonneg_witness :
  Forall (tick_from 0)
    [(480, [128; 60; 0]); (0, [144; 60; 90]); (480, [144; 62; 90])] /\
  exists data ds,
    build_track [(480, [128; 60; 0]); (0, [144; 60; 90]); (480, [144; 62; 90])]
      = Ok data /\
    read_deltas [3; 3; 3]%nat data = Some ds /\
    running_sum 0 ds = [0; 480; 480].
Proof.
  assert (H : Forall (tick_from 0)
                [(480, [128; 60; 0]); (0, [144; 60; 90]); (480, [144; 62; 90])]).
  { repeat constructor; unfold tick_from; simpl; lia. }
  split; [exact H|].
  destruct (delta_reconstruction_nonneg _ H) as (Hbuild & Hrec & _).
  destruct (Hbuild eq_refl) as (data & Hdata).
  destruct (Hrec data Hdata) as (ds & Hread & Hsum).
  exists data, ds. split; [exact Hdata|]. split; [exact Hread|].
  rewrite Hsum. reflexivity.
Defined.

(** ** Ticks *)

(** C5, as stated, fails on the default configuration (seed 42): the
    first melody event is at tick -17, and its delta is negative. *)
Lemma default_melody_starts_before_zero :
  exists chord_ev degs events,
    make_chords (R := MT19937_random) default_params
      (time_sig_num default_params * PPQN) = Ok (chord_ev, degs) /\
    make_melody (R := MT19937_random) default_params degs
      (time_sig_num default_params * PPQN) = Ok events /\
    ~ Forall (tick_from 0) events /\
    ~ Forall (fun d => 0 <= d) (deltas_from 0 (sorted fst events)).
Proof.
  do 3 eexists. split; [exact default_chords_eq|].
  split; [exact default_melody_eq|].
  split; intros H.
  - apply Forall_inv in H. unfold tick_from in H. simpl in H. lia.
  - vm_compute in H. apply Forall_inv in H. apply H. reflexivity.
Qed.

(** C5, amended. With a positive time-signature numerator, every event
    of the chord and drum generators has a non-negative tick, and every
    melody event has a tick of at least -20, negative at most for the
    first one emitted (the note-on of the first grid position of bar 0,
    whose tick is its jitter). Consequently no delta of a chord or drum
    track is negative, and in a melody track at most the delta of the
    first event in sorted order is. *)
Theorem generated_ticks {R : PyRandom} (p : SongParams) :
  1 <= time_sig_num p ->
  let bar_ticks := time_sig_num p * PPQN in
  (forall ev degs,
     make_chords p bar_ticks = Ok (ev, degs) ->
     Forall (tick_from 0) ev /\
     Forall (fun d => 0 <= d) (deltas_from 0 (sorted fst ev))) /\
  (Forall (tick_from 0) (make_drums p bar_ticks) /\
   Forall (fun d => 0 <= d)
          (deltas_from 0 (sorted fst (make_drums p bar_ticks)))) /\
  (forall degs ev,
     make_melody p degs bar_ticks = Ok ev ->
     Forall (tick_from (-20)) ev /\ Forall (tick_from 0) (tail ev) /\
     Forall (fun d => 0 <= d) (tail (deltas_from 0 (sorted fst ev)))).
Proof.
  intros Hnum bar_ticks.
  assert (Hbt : 480 <= bar_ticks) by (unfold bar_ticks, PPQN; lia).
  assert (Hdeltas : forall ev, Forall (tick_from 0) ev ->
            Forall (fun d => 0 <= d) (deltas_from 0 (sorted fst ev))).
  { intros ev Hev. apply deltas_nonneg; [apply sorted_sorted|].
    eapply Permutation_Forall; [symmetry; apply sorted_Permutation|exact Hev]. }
  split; [|split].
  - intros ev degs Hrun.
    assert (Hev : Forall (tick_from 0) ev)
      by (eapply make_chords_ticks; [exact Hrun|lia]).
    split; [exact Hev|apply Hdeltas; exact Hev].
  - assert (Hev : Forall (tick_from 0) (make_drums p bar_ticks))
      by (apply make_drums_ticks; lia).
    split; [exact Hev|apply Hdeltas; exact Hev].
  - intros degs ev Hrun.
    destruct (make_melody_ticks p degs bar_ticks ev Hrun ltac:(lia)) as [H1 H2].
    split; [exact H1|]. split; [exact H2|].
    apply deltas_tail_nonneg. apply sorted_sorted.
Qed.

Lemma generated_ticks_witness :
  1 <= time_sig_num default_params /\
  exists chord_ev degs events,
    make_chords (R := MT19937_random) default_params
      (time_sig_num default_params * PPQN) = Ok (chord_ev, degs) /\
    make_melody (R := MT19937_random) default_params degs
      (time_sig_num default_params * PPQN) = Ok events /\
    Forall (tick_from 0) chord_ev /\
    Forall (tick_from (-20)) events /\ Forall (tick_from 0) (tail events).
Proof.
  split; [simpl; lia|].
  destruct (generated_ticks (R := MT19937_random) default_params ltac:(simpl; lia))
    as (Hchords & _ & Hmelody).
  do 3 eexists. split; [exact default_chords_eq|].
  split; [exact default_melody_eq|].
  split; [apply (Hchords _ _ default_chords_eq)|].
  destruct (Hmelody _ _ default_melody_eq) as (H1 & H2 & _).
  split; [exact H1|exact H2].
Defined.

(** ** Pitch and velocity *)




(** ** Validation *)




(** ** Scale degrees *)




(** ** Chords *)

(** C9. For every bar index [b] of a run of [make_chords], the token of
    the bar is the one at index [b mod (number of tokens)], the triad of
    the bar is [root, (root + 2) mod 7, (root + 4) mod 7] for the degree
    [root] of that token, and the six events of the bar (note-on and
    note-off of each voice) carry the pitches of the scale at the root,
    at the fifth, and at the third one octave up. For the progression
    "I-V-vi-IV", bar 4 has token "I" again and the triad [0, 2, 4]. *)
Theorem chord_cycle_and_voicing {R : PyRandom} :
  (forall p bar_ticks ev degs,
     make_chords p bar_ticks = Ok (ev, degs) ->
     exists scale,
       build_scale (key p) (mode p) (chord_octave p) = Ok scale /\
       forall bar, 0 <= bar < bars p ->
       exists token n0 n1 n2,
         bar_token (progression_tokens (progression p)) bar = Some token /\
         degs !! Z.to_nat bar = Some (triad (roman_to_degree token)) /\
         scale !! Z.to_nat (roman_to_degree token) = Some n0 /\
         scale !! Z.to_nat ((roman_to_degree token + 2) mod 7) = Some n1 /\
         scale !! Z.to_nat ((roman_to_degree token + 4) mod 7) = Some n2 /\
         map pitch (take 6 (drop (6 * Z.to_nat bar) ev))
           = [n0; n0; n2; n2; n1 + 12; n1 + 12]) /\
  progression_tokens "I-V-vi-IV" = ["I"; "V"; "vi"; "IV"]%string /\
  bar_token ["I"; "V"; "vi"; "IV"]%string 4 = Some "I"%string /\
  triad (roman_to_degree "I") = [0; 2; 4].
Proof.
  split; [|repeat split; vm_compute; reflexivity].
  intros p bar_ticks ev degs Hrun.
  apply make_chords_shape in Hrun
    as (scale & chunks & Hscale & Hchunks & -> & Hdegs).
  exists scale. split; [exact Hscale|]. intros bar Hbar.
  assert (Hlook : range (bars p) !! Z.to_nat bar = Some bar).
  { unfold range. rewrite lookup_seqZ_lt by lia. f_equal. lia. }
  destruct (Forall2_lookup_l _ _ _ _ _ Hchunks Hlook) as (c & Hc & Hev).
  destruct (Forall2_lookup_l _ _ _ _ _ Hdegs Hlook) as (d & Hd & Hdg).
  assert (Hlen : Forall (fun c => length c = 6%nat) chunks).
  { eapply Forall2_right; [exact Hchunks|].
    intros x y _ (tok & n0 & n1 & n2 & c0 & c1 & c2 & _ & _ & _ & _
                  & (? & ? & ? & _ & _ & _ & ->) & (? & ? & ? & _ & _ & _ & ->)
                  & (? & ? & ? & _ & _ & _ & ->) & ->).
    reflexivity. }
  rewrite (concat_chunk 6 chunks Hlen _ _ Hc).
  destruct Hev as (token & n0 & n1 & n2 & c0 & c1 & c2 & Htok & Hn0 & Hn1 & Hn2
                   & (? & ? & ? & _ & _ & _ & ->) & (? & ? & ? & _ & _ & _ & ->)
                   & (? & ? & ? & _ & _ & _ & ->) & ->).
  destruct Hdg as (token' & Htok' & ->).
  rewrite Htok in Htok'. injection Htok' as <-.
  exists token, n0, n1, n2. auto 10.
Qed.

Lemma chord_cycle_and_voicing_witness :
  exists ev degs,
    make_chords (R := MT19937_random) default_params (4 * PPQN) = Ok (ev, degs) /\
    0 <= 4 < bars default_params /\
    exists token n0 n1 n2,
      bar_token (progression_tokens (progression default_params)) 4
        = Some token /\
      degs !! Z.to_nat 4 = Some (triad (roman_to_degree token)) /\
      [48; 50; 52; 53; 55; 57; 59] !! Z.to_nat (roman_to_degree token) = Some n0 /\
      [48; 50; 52; 53; 55; 57; 59] !! Z.to_nat ((roman_to_degree token + 2) mod 7)
        = Some n1 /\
      [48; 50; 52; 53; 55; 57; 59] !! Z.to_nat ((roman_to_degree token + 4) mod 7)
        = Some n2 /\
      map pitch (take 6 (drop (6 * Z.to_nat 4) ev))
        = [n0; n0; n2; n2; n1 + 12; n1 + 12].
Proof.
  destruct (chord_cycle_and_voicing (R := MT19937_random)) as (Hgen & _).
  do 2 eexists. split; [exact default_chords_eq|].
  split; [simpl; lia|].
  destruct (Hgen _ _ _ _ default_chords_eq) as (scale & Hscale & Hbars).
  vm_compute in Hscale. injection Hscale as <-.
  apply Hbars. simpl. lia.
Defined.

(** * Further properties *)

(** ** The serializer *)

(** X1. The variable-length encoding is a prefix code: when the encodings
    of two values, each followed by further bytes, give the same byte
    string, the values (clamped at 0, as the encoder does) are equal and
    so are the bytes that follow. No encoding is a proper prefix of
    another one, and two different non-negative values never share an
    encoding. *)
Theorem write_varlen_prefix_code (a b : Z) (r1 r2 : list Z) :
  write_varlen a ++ r1 = write_varlen b ++ r2 ->
  Z.max 0 a = Z.max 0 b /\ r1 = r2.
Proof.
  intros Heq.
  pose proof (read_write_varlen (Z.max 0 a) r1 ltac:(lia)) as Ha.
  pose proof (read_write_varlen (Z.max 0 b) r2 ltac:(lia)) as Hb.
  rewrite <- write_varlen_clamp in Ha, Hb. rewrite Heq, Hb in Ha.
  injection Ha as Hv Hr. auto.
Qed.

Lemma write_varlen_prefix_code_witness :
  write_varlen 300 ++ [144; 60; 90] = write_varlen 300 ++ [144; 60; 90] /\
  Z.max 0 300 = Z.max 0 300 /\ [144; 60; 90] = [144; 60; 90].
Proof.
  split; [reflexivity|].
  apply (write_varlen_prefix_code 300 300 [144; 60; 90] [144; 60; 90]).
  reflexivity.
Defined.

(** X2. [write_varlen] of [app2.py] returns exactly for the non-negative
    values, after as many turns as the value has 7-bit groups, and then
    it returns the bytes that [write_varlen] of [song_generator.py]
    returns; on a negative value its loop never ends, whatever the
    number of turns it is given. *)
Theorem app2_write_varlen_returns (fuel : nat) (v : Z) :
  (forall out,
     App2.write_varlen fuel v = Some out <->
     0 <= v /\ groups7 v <= Z.of_nat fuel /\ out = write_varlen v) /\
  (v < 0 -> App2.write_varlen fuel v = None).
Proof.
  split; [intros out; apply app2_write_varlen_iff|].
  intros Hv. unfold App2.write_varlen. apply app2_varlen_loop_negative.
  apply Z.shiftr_neg. exact Hv.
Qed.

Lemma app2_write_varlen_returns_witness :
  App2.write_varlen 1000 (-1) = None /\
  App2.write_varlen 2 300 = Some [130; 44] /\
  App2.write_varlen 1 300 = None.
Proof.
  split; [apply (app2_write_varlen_returns 1000 (-1)); lia|].
  split; [apply (app2_write_varlen_returns 2 300); vm_compute; intuition congruence|].
  reflexivity.
Defined.

(** X3. [build_track] of [app2.py] returns what [build_track] of
    [song_generator.py] returns (the same bytes, or the same
    [ValueError]) for every list of events without a negative tick, once
    its encoder is given enough turns; when an event has a negative tick
    it never returns: the first delta time it encodes is negative. *)
Theorem app2_build_track_outcome (events : list event) :
  (Forall (tick_from 0) events ->
   exists fuel0 : nat, forall fuel : nat, (fuel0 <= fuel)%nat ->
     App2.build_track fuel events = Some (build_track events)) /\
  (Exists (fun e => fst e < 0) events ->
   forall fuel, App2.build_track fuel events = None).
Proof.
  split.
  - apply app2_build_track_nonneg.
  - intros Hneg fuel. apply app2_build_track_negative. exact Hneg.
Qed.

Lemma app2_build_track_outcome_witness :
  (exists fuel0 : nat, forall fuel : nat, (fuel0 <= fuel)%nat ->
     App2.build_track fuel [(480, [128; 60; 0]); (0, [144; 60; 90])]
     = Some (Ok [0; 144; 60; 90; 131; 96; 128; 60; 0; 0; 255; 47; 0])) /\
  App2.build_track 1000 [(480, [128; 60; 0]); (-17, [144; 60; 90])] = None.
Proof.
  split.
  - apply (app2_build_track_outcome [(480, [128; 60; 0]); (0, [144; 60; 90])]).
    repeat constructor; unfold tick_from; simpl; lia.
  - apply (app2_build_track_outcome [(480, [128; 60; 0]); (-17, [144; 60; 90])]).
    right. left. simpl. lia.
Defined.

(** X4. [build_track] fails only on the content of the messages: it
    raises [ValueError] exactly when some message holds a value outside
    [0, 255], whatever the ticks are (negative, repeated, in any order),
    and it raises no other exception; when it returns, the track ends
    with the end-of-track event [00 FF 2F 00]. *)
Theorem build_track_value_error (events : list event) :
  (build_track events = Raise ValueError <->
   Exists (fun e => Exists (fun b => ~ 0 <= b < 256) (snd e)) events) /\
  (forall e, build_track events = Raise e -> e = ValueError) /\
  (forall data, build_track events = Ok data ->
   data = track_body 0 (sorted fst events) ++ [0; 255; 47; 0]).
Proof.
  rewrite build_track_eq. pose proof (messages_ok_Forall events) as Hok.
  destruct (messages_ok events) eqn:Hm.
  - split; [|split; [discriminate|intros data [= <-]; reflexivity]].
    split; [discriminate|]. intros Hex. exfalso.
    destruct Hok as [Hok _]. specialize (Hok eq_refl).
    apply Exists_exists in Hex as (e & He & Hb).
    rewrite Forall_forall in Hok. specialize (Hok e He).
    apply Exists_exists in Hb as (b & Hb & Hn).
    rewrite Forall_forall in Hok. exact (Hn (Hok b Hb)).
  - split; [|split; [intros e [= <-]; reflexivity|discriminate]].
    split; [|reflexivity]. intros _. apply messages_bad_Exists. exact Hm.
Qed.

Lemma build_track_value_error_witness :
  build_track [(0, [144; 60; 90]); (-5, [144; 300; 90])] = Raise ValueError /\
  build_track [(5, [128; 60; 0]); (0, [144; 60; 90])]
    = Ok [0; 144; 60; 90; 5; 128; 60; 0; 0; 255; 47; 0].
Proof.
  split.
  - apply (build_track_value_error [(0, [144; 60; 90]); (-5, [144; 300; 90])]).
    right. left. simpl. right. left. lia.
  - destruct (build_track [(5, [128; 60; 0]); (0, [144; 60; 90])]) as [data|e] eqn:Hb.
    + f_equal.
      apply (build_track_value_error [(5, [128; 60; 0]); (0, [144; 60; 90])]).
      exact Hb.
    + discriminate Hb.
Defined.

(** X5. The track that [build_track] returns does not depend on the
    order in which events of different ticks are listed: two lists that
    hold, for every tick, the same events of that tick in the same order
    give the same track. In particular a list that is already sorted by
    tick gives the track of any of its rearrangements that keeps the
    events of equal ticks in order, and when all ticks are distinct every
    permutation of the list gives the same track. *)
Theorem build_track_order (l1 l2 : list event) :
  ((forall k, filter (fun e => fst e = k) l1 = filter (fun e => fst e = k) l2) ->
   build_track l1 = build_track l2) /\
  (Permutation l1 l2 -> NoDup (ticks l1) -> build_track l1 = build_track l2) /\
  build_track (sorted fst l1) = build_track l1.
Proof.
  assert (Hgen : forall a b : list event,
            (forall k, filter (fun e => fst e = k) a = filter (fun e => fst e = k) b) ->
            build_track a = build_track b).
  { intros a b Hf. unfold build_track.
    rewrite (sorted_by_filters fst a b Hf). reflexivity. }
  split; [apply Hgen|]. split.
  - intros Hp Hnd. apply Hgen. apply filters_of_Permutation; assumption.
  - apply Hgen. intros k. apply sorted_stable.
Qed.

Lemma build_track_order_witness :
  build_track [(480, [128; 60; 0]); (0, [144; 60; 90]); (240, [144; 64; 80])] =
  build_track [(0, [144; 60; 90]); (240, [144; 64; 80]); (480, [128; 60; 0])].
Proof.
  destruct (build_track_order
              [(480, [128; 60; 0]); (0, [144; 60; 90]); (240, [144; 64; 80])]
              [(0, [144; 60; 90]); (240, [144; 64; 80]); (480, [128; 60; 0])])
    as (_ & Hperm & _).
  apply Hperm.
  - apply (Permutation_cons_append [(0, [144; 60; 90]); (240, [144; 64; 80])]).
  - apply (bool_decide_unpack _). vm_compute. exact I.
Defined.

(** X6. When the earliest event of a list is at a tick [m <= 0], the
    delta time of that event is stored as 0 and every later delta time
    is kept: the track is the track of the same events delayed by [-m],
    and the ticks read back from it are the ticks of the events, sorted,
    each one [-m] later. *)
Theorem build_track_early_start (events : list event) (m : Z) :
  m <= 0 -> m ∈ ticks events -> Forall (tick_from m) events ->
  build_track events = build_track (map (delay (- m)) events) /\
  forall data, build_track events = Ok data ->
  exists ds,
    read_deltas (map (fun e => length (snd e)) (sorted fst events)) data
      = Some ds /\
    running_sum 0 ds = map (fun t => t - m) (ticks (sorted fst events)).
Proof. apply build_track_early. Qed.

Lemma build_track_early_start_witness :
  build_track [(463, [129; 76; 0]); (-17, [145; 76; 97]); (343, [145; 79; 70])] =
  build_track [(480, [129; 76; 0]); (0, [145; 76; 97]); (360, [145; 79; 70])] /\
  exists data ds,
    build_track [(463, [129; 76; 0]); (-17, [145; 76; 97]); (343, [145; 79; 70])]
      = Ok data /\
    read_deltas [3; 3; 3]%nat data = Some ds /\
    running_sum 0 ds = [0; 360; 480].
Proof.
  assert (Hm : -17 <= 0) by lia.
  assert (Hin : -17 ∈ ticks [(463, [129; 76; 0]); (-17, [145; 76; 97]);
                              (343, [145; 79; 70])]).
  { unfold ticks. simpl. set_solver. }
  assert (Hall : Forall (tick_from (-17))
                   [(463, [129; 76; 0]); (-17, [145; 76; 97]); (343, [145; 79; 70])]).
  { repeat constructor; unfold tick_from; simpl; lia. }
  destruct (build_track_early_start _ (-17) Hm Hin Hall) as [Heq Hread].
  split; [exact Heq|].
  destruct (Hread _ eq_refl) as (ds & Hds & Hsum).
  eexists. exists ds. split; [reflexivity|]. split; [exact Hds|].
  rewrite Hsum. reflexivity.
Defined.

(** ** Scales and progressions *)

(** X7. [build_scale] raises [KeyError] exactly when the root note is not
    one of the seventeen names of [NOTE_TO_SEMI] (the names are case
    sensitive), whatever the mode and the octave. Otherwise it returns
    seven pitches in strictly increasing order, the first one the MIDI
    number of the root, [12 * (octave + 1) + semitone], and all of them
    below the root of the next octave. *)
Theorem build_scale_outcome (root_note mode : string) (base_octave : Z) :
  (NOTE_TO_SEMI !! root_note = None ->
   build_scale root_note mode base_octave = Raise KeyError) /\
  (forall semi, NOTE_TO_SEMI !! root_note = Some semi ->
   0 <= semi <= 11 /\
   exists scale,
     build_scale root_note mode base_octave = Ok scale /\
     length scale = 7%nat /\
     head scale = Some (12 * (base_octave + 1) + semi) /\
     StronglySorted Z.lt scale /\
     Forall (fun n => n < 12 * (base_octave + 2) + semi) scale).
Proof.
  unfold build_scale, midi_note. split.
  - intros ->. reflexivity.
  - intros semi Hk. rewrite Hk. cbn [Py.bind].
    split; [eapply NOTE_TO_SEMI_range; exact Hk|].
    eexists. split; [reflexivity|].
    destruct (String.eqb _ _); simpl.
    + split; [reflexivity|]. split; [f_equal; lia|].
      split; repeat constructor; lia.
    + split; [reflexivity|]. split; [f_equal; lia|].
      split; repeat constructor; lia.
Qed.

Lemma build_scale_outcome_witness :
  build_scale "c" "major" 3 = Raise KeyError /\
  exists scale,
    build_scale "Eb" "minor" 3 = Ok scale /\
    length scale = 7%nat /\
    head scale = Some (12 * (3 + 1) + 3) /\
    StronglySorted Z.lt scale /\
    Forall (fun n => n < 12 * (3 + 2) + 3) scale.
Proof.
  split.
  - apply (build_scale_outcome "c" "major" 3). reflexivity.
  - apply (build_scale_outcome "Eb" "minor" 3). reflexivity.
Defined.

(** X8. Raising the base octave by [n] raises every pitch of the scale
    by [12 * n] semitones; two names of the same pitch class (as C# and
    Db) give the same scale. *)
Theorem build_scale_transpose (root_note other mode : string)
    (base_octave n : Z) (scale : list Z) :
  build_scale root_note mode base_octave = Ok scale ->
  build_scale root_note mode (base_octave + n)
    = Ok (map (fun x => x + 12 * n) scale) /\
  (NOTE_TO_SEMI !! other = NOTE_TO_SEMI !! root_note ->
   build_scale other mode base_octave = Ok scale).
Proof.
  unfold build_scale, midi_note.
  destruct (NOTE_TO_SEMI !! root_note) as [semi|] eqn:Hk; [|discriminate].
  cbn [Py.bind]. intros [= <-]. split.
  - f_equal. rewrite map_map. destruct (String.eqb _ _); simpl;
      repeat (f_equal; try lia).
  - intros ->. reflexivity.
Qed.

Lemma build_scale_transpose_witness :
  build_scale "C" "major" 3 = Ok [48; 50; 52; 53; 55; 57; 59] /\
  build_scale "C" "major" (3 + 2) = Ok [72; 74; 76; 77; 79; 81; 83] /\
  build_scale "Db" "minor" 3 = build_scale "C#" "minor" 3.
Proof.
  assert (H : build_scale "C" "major" 3 = Ok [48; 50; 52; 53; 55; 57; 59])
    by reflexivity.
  split; [exact H|]. split.
  - apply (build_scale_transpose "C" "C" "major" 3 2 _ H).
  - assert (H' : build_scale "C#" "minor" 3 = Ok [49; 51; 52; 54; 56; 57; 59])
      by reflexivity.
    rewrite H'.
    apply (build_scale_transpose "C#" "Db" "minor" 3 0 _ H'). reflexivity.
Defined.

(** X9. The mode selects between two interval patterns and never causes
    an error: the scale is the major scale (intervals 0 2 4 5 7 9 11
    above the root) exactly when the mode is spelled "major" in any mix
    of upper and lower case, and the natural minor scale (0 2 3 5 7 8 10)
    for every other string, "minor" or not. The two scales of a root
    differ by one semitone at the third, sixth and seventh degree. *)
Theorem build_scale_mode (root_note mode : string) (base_octave root : Z) :
  midi_note root_note base_octave = Ok root ->
  (major_spelling mode ->
   build_scale root_note mode base_octave
     = Ok [root; root + 2; root + 4; root + 5; root + 7; root + 9; root + 11]) /\
  (~ major_spelling mode ->
   build_scale root_note mode base_octave
     = Ok [root; root + 2; root + 3; root + 5; root + 7; root + 8; root + 10]).
Proof.
  intros Hroot. unfold build_scale. rewrite Hroot. cbn [Py.bind].
  rewrite <- lower_major.
  destruct (String.eqb_spec (lower mode) "major") as [Heq|Hne]; simpl.
  - split; [intros _|intros Hn; contradiction]. repeat (f_equal; try lia).
  - split; [intros Hn; contradiction|intros _]. repeat (f_equal; try lia).
Qed.

Lemma build_scale_mode_witness :
  build_scale "A" "MaJoR" 4 = Ok [69; 71; 73; 74; 76; 78; 80] /\
  build_scale "A" "dorian" 4 = Ok [69; 71; 72; 74; 76; 77; 79].
Proof.
  assert (Hroot : midi_note "A" 4 = Ok 69) by reflexivity.
  split.
  - apply (build_scale_mode "A" "MaJoR" 4 69 Hroot).
    apply lower_major. reflexivity.
  - apply (build_scale_mode "A" "dorian" 4 69 Hroot).
    intros H. apply lower_major in H. discriminate H.
Defined.

(** X10. Every token that [make_chords] takes from the progression is
    not empty, has no whitespace around it, and holds neither of the two
    separators, '-' and '|'. Empty pieces (doubled or trailing
    separators, or only whitespace between two of them) give no token. *)
Theorem progression_tokens_are_clean (progression : string) :
  Forall clean_token (progression_tokens progression).
Proof. apply progression_tokens_clean. Qed.

(** X11. The tokens of a progression, joined again with '-', are a
    progression with the same tokens; more generally every list of
    tokens that are not empty, have no whitespace around them and hold
    no separator is read back from its '-'-joined string. *)
Theorem progression_tokens_roundtrip (progression : string)
    (tokens : list string) :
  progression_tokens (join "-" (progression_tokens progression))
    = progression_tokens progression /\
  (Forall clean_token tokens ->
   progression_tokens (join "-" tokens) = tokens).
Proof.
  split; [|apply progression_tokens_join].
  apply progression_tokens_join, progression_tokens_clean.
Qed.

Lemma progression_tokens_roundtrip_witness :
  Forall clean_token ["I"; "V"; "vi"; "IV"]%string /\
  progression_tokens " I | V- vi |-IV - " = ["I"; "V"; "vi"; "IV"]%string /\
  progression_tokens "I-V-vi-IV" = ["I"; "V"; "vi"; "IV"]%string.
Proof.
  assert (H : Forall clean_token ["I"; "V"; "vi"; "IV"]%string).
  { repeat constructor; try discriminate. }
  split; [exact H|]. split; [reflexivity|].
  apply (progression_tokens_roundtrip "" ["I"; "V"; "vi"; "IV"]%string). exact H.
Defined.

(** ** The generators *)





(** X14. [make_melody] never fails on the chord tones that [make_chords]
    returns for the same configuration: every index it uses is in range.
    Given a list of chord tones with fewer entries than bars it raises
    [IndexError]. *)
Theorem make_melody_after_chords {R : PyRandom} (p : SongParams)
    (bar_ticks : Z) (ev : list event) (degs : list (list Z)) :
  make_chords p bar_ticks = Ok (ev, degs) ->
  (exists mel, make_melody p degs bar_ticks = Ok mel) /\
  (forall short, Z.of_nat (length short) < bars p ->
     make_melody p short bar_ticks = Raise IndexError).
Proof.
  intros Hrun.
  apply make_chords_shape in Hrun
    as (scale & chunks & Hscale & _ & _ & Hdegs).
  assert (Hkey : exists semi, NOTE_TO_SEMI !! key p = Some semi).
  { unfold build_scale, midi_note in Hscale.
    destruct (NOTE_TO_SEMI !! key p) as [semi|]; [eauto|discriminate]. }
  destruct Hkey as [semi Hkey]. split.
  - eapply make_melody_ok; eassumption.
  - intros short Hlen. eapply make_melody_short; eassumption.
Qed.

Lemma make_melody_after_chords_witness :
  exists ev degs,
    make_chords (R := MT19937_random) default_params (4 * PPQN) = Ok (ev, degs) /\
    (exists mel,
       make_melody (R := MT19937_random) default_params degs (4 * PPQN) = Ok mel) /\
    make_melody (R := MT19937_random) default_params (take 7 degs) (4 * PPQN)
      = Raise IndexError.
Proof.
  eassert (Hc : make_chords (R := MT19937_random) default_params (4 * PPQN)
                = Ok (_, _)) by exact default_chords_eq.
  destruct (make_melody_after_chords (R := MT19937_random) default_params
              (4 * PPQN) _ _ Hc) as [Hok Hshort].
  do 2 eexists. split; [exact Hc|].
  split; [exact Hok|]. apply Hshort. simpl. lia.
Defined.

(** X15. The drum track is the same pattern in every bar, whatever the
    seed and the time signature: 24 events on a grid of sixteenths of
    120 ticks from the start of the bar, kick (pitch 36, velocity 110)
    on positions 0 and 8, snare (38, velocity 100) on positions 4 and
    12, hi-hat (42) on every even position, with a velocity of 85 to 95
    on the beats and of 60 to 70 between them; kick and snare are
    released after 100 ticks, the hi-hat after 60, all on channel 10
    (status 0x99 and 0x89). Only the hi-hat velocities depend on the
    seed. *)
Theorem drum_pattern {R : PyRandom} (p : SongParams) (bar_ticks : Z) :
  Forall2 in_slot (make_drums p bar_ticks)
    (concat (map (fun bar => drum_grid (bar * bar_ticks)) (range (bars p)))) /\
  length (make_drums p bar_ticks) = (24 * Z.to_nat (bars p))%nat.
Proof.
  pose proof (make_drums_slots p bar_ticks) as Hslots.
  split; [exact Hslots|].
  rewrite (Forall2_length _ _ _ Hslots).
  rewrite <- (length_range (bars p)).
  generalize (range (bars p)). intros l.
  induction l as [|bar l IH]; [reflexivity|].
  cbn [map concat]. rewrite length_app, IH. cbn [length drum_grid]. lia.
Qed.

(** X16. With bars of at least 1531 ticks (a numerator of the time
    signature of 4 or more), the events of the melody are emitted in
    strictly increasing order of tick: every note is released before the
    next one is struck, so the melody is monophonic, and the sort of
    [build_track] leaves its events in the order of emission. *)
Theorem melody_is_monophonic {R : PyRandom} (p : SongParams)
    (degs : list (list Z)) (bar_ticks : Z) (ev : list event) :
  make_melody p degs bar_ticks = Ok ev -> 1531 <= bar_ticks ->
  StronglySorted Z.lt (ticks ev) /\ sorted fst ev = ev.
Proof.
  intros Hrun Hbt.
  pose proof (make_melody_sorted p degs bar_ticks ev Hrun Hbt) as Hs.
  split; [exact Hs|apply sorted_of_sorted; exact Hs].
Qed.

Lemma melody_is_monophonic_witness :
  exists chord_ev degs ev,
    make_chords (R := MT19937_random) default_params (4 * PPQN)
      = Ok (chord_ev, degs) /\
    make_melody (R := MT19937_random) default_params degs (4 * PPQN) = Ok ev /\
    StronglySorted Z.lt (ticks ev) /\ sorted fst ev = ev.
Proof.
  eassert (Hm : make_melody (R := MT19937_random) default_params _ (4 * PPQN)
                = Ok _) by exact default_melody_eq.
  do 3 eexists. split; [exact default_chords_eq|]. split; [exact Hm|].
  apply (melody_is_monophonic (R := MT19937_random) _ _ _ _ Hm).
  apply Z.leb_le. reflexivity.
Defined.

(** X17. What is read back from the tracks of a generated song, with bars
    of at least 1531 ticks: the delta times of the chord track and of
    the drum track add up to the ticks of their events, in sorted order;
    those of the melody track add up to the ticks of the melody events
    plus one delay of 0 to 20 ticks, the same for all of them: when the
    first note of the melody is struck before tick 0, the whole melody
    is written that much later than the chords and the drums. *)
Theorem generated_tracks_read_back {R : PyRandom} (p : SongParams)
    (bar_ticks : Z) (chord_ev : list event) (degs : list (list Z))
    (melody_ev : list event) :
  make_chords p bar_ticks = Ok (chord_ev, degs) ->
  make_melody p degs bar_ticks = Ok melody_ev ->
  1531 <= bar_ticks ->
  delta_reconstruction chord_ev /\
  delta_reconstruction (make_drums p bar_ticks) /\
  exists delay, 0 <= delay <= 20 /\
    forall data, build_track melody_ev = Ok data ->
    exists ds,
      read_deltas (map (fun e => length (snd e)) melody_ev) data = Some ds /\
      running_sum 0 ds = map (fun t => t + delay) (ticks melody_ev).
Proof.
  intros Hc Hm Hbt. split; [|split].
  - apply delta_reconstruction_of_nonneg.
    eapply make_chords_ticks; [exact Hc|lia].
  - apply delta_reconstruction_of_nonneg. apply make_drums_ticks. lia.
  - apply read_back_delayed.
    + eapply make_melody_sorted; eassumption.
    + eapply make_melody_ticks; [exact Hm|lia].
Qed.

Lemma generated_tracks_read_back_witness :
  exists chord_ev degs melody_ev delay,
    make_chords (R := MT19937_random) default_params (4 * PPQN)
      = Ok (chord_ev, degs) /\
    make_melody (R := MT19937_random) default_params degs (4 * PPQN)
      = Ok melody_ev /\
    0 <= delay <= 20 /\
    forall data, build_track melody_ev = Ok data ->
    exists ds,
      read_deltas (map (fun e => length (snd e)) melody_ev) data = Some ds /\
      running_sum 0 ds = map (fun t => t + delay) (ticks melody_ev).
Proof.
  eassert (Hc : make_chords (R := MT19937_random) default_params (4 * PPQN)
                = Ok (_, _)) by exact default_chords_eq.
  eassert (Hm : make_melody (R := MT19937_random) default_params _ (4 * PPQN)
                = Ok _) by exact default_melody_eq.
  destruct (generated_tracks_read_back (R := MT19937_random) _ _ _ _ _ Hc Hm)
    as (_ & _ & delay & Hd & Hread); [apply Z.leb_le; reflexivity|].
  do 3 eexists. exists delay. split; [exact Hc|]. split; [exact Hm|].
  split; [exact Hd|exact Hread].
Defined.

(** ** The assembled song *)

(** X18. The buffer that [generate_song_bytes] returns reads back as a
    Standard MIDI File of format 1 with a division of 480 ticks per
    quarter note and exactly four track chunks, each with its true
    length: the tempo track, which holds the single meta event
    [FF 51 03] with the three bytes of the tempo, and the tracks that
    [build_track] returns for the events of [make_chords], of
    [make_melody] (given the chord tones of [make_chords]) and of
    [make_drums], in this order. *)
Theorem generated_file_reads_back {R : PyRandom} (p : SongParams)
    (out : list Z) :
  generate_song_bytes p = Ok out ->
  exists tempo tb chord_ev degs melody_ev t1 t2 t3,
    tempo_of p = Ok tempo /\ to_bytes tempo 3 = Ok tb /\
    make_chords p (time_sig_num p * PPQN) = Ok (chord_ev, degs) /\
    make_melody p degs (time_sig_num p * PPQN) = Ok melody_ev /\
    build_track chord_ev = Ok t1 /\
    build_track melody_ev = Ok t2 /\
    build_track (make_drums p (time_sig_num p * PPQN)) = Ok t3 /\
    read_file out =
      Some (1, 480, [[0; 255; 81; 3] ++ tb ++ [0; 255; 47; 0]; t1; t2; t3]).
Proof. apply generate_reads_back. Qed.

Lemma generated_file_reads_back_witness :
  exists out tb t1 t2 t3,
    generate_song_bytes (R := MT19937_random) (setattr default_params (Bars 2))
      = Ok out /\
    read_file out =
      Some (1, 480, [[0; 255; 81; 3] ++ tb ++ [0; 255; 47; 0]; t1; t2; t3]).
Proof.
  destruct (is_ok_inv (generate_song_bytes (R := MT19937_random)
                         (setattr default_params (Bars 2))))
    as [out Hout]; [vm_compute; reflexivity|].
  destruct (generated_file_reads_back _ out Hout)
    as (tempo & tb & chord_ev & degs & melody_ev & t1 & t2 & t3 & H).
  exists out, tb, t1, t2, t3. split; [exact Hout|]. apply H.
Defined.

(** X19. [generate_song_bytes] reads ten fields of the configuration and
    no other: two configurations that agree on the tempo, the number of
    bars, the numerator of the time signature, the key, the mode, the
    progression, the energy, the seed and the octaves of the chords and
    of the melody give the same result. The denominator of the time
    signature, the swing and the bass octave have no effect. *)
Theorem generation_reads_ten_fields {R : PyRandom} (p q : SongParams) :
  bpm p = bpm q -> bars p = bars q -> time_sig_num p = time_sig_num q ->
  key p = key q -> mode p = mode q -> progression p = progression q ->
  energy p = energy q -> seed p = seed q ->
  chord_octave p = chord_octave q -> melody_octave p = melody_octave q ->
  generate_song_bytes p = generate_song_bytes q.
Proof.
  destruct p, q. simpl. intros. subst. reflexivity.
Qed.

Lemma generation_reads_ten_fields_witness :
  generate_song_bytes (R := MT19937_random)
    (foldl setattr default_params
       [Time_sig_den 8; Swing (float_of_int 1); Bass_octave 7])
  = generate_song_bytes (R := MT19937_random) default_params.
Proof.
  apply (generation_reads_ten_fields (R := MT19937_random)); reflexivity.
Defined.

(** X20. [generate_song_bytes] never raises [IndexError]: every index
    into the tokens of the progression, into the scales and into the
    chord tones is in range, for every configuration and every sequence
    of random draws. The exceptions it can raise are
    [ZeroDivisionError], [OverflowError], [ValueError], [KeyError] and
    [struct.error]. *)
Theorem generation_never_index_error {R : PyRandom} (p : SongParams) (e : exn) :
  generate_song_bytes p = Raise e ->
  e = ZeroDivisionError \/ e = OverflowError \/ e = ValueError \/
  e = KeyError \/ e = StructError.
Proof.
  intros Hrun. apply generate_raise in Hrun. destruct e; auto 6. congruence.
Qed.

Lemma generation_never_index_error_witness :
  generate_song_bytes (R := MT19937_random)
    (setattr default_params (Progression "")) = Raise ZeroDivisionError /\
  (ZeroDivisionError = ZeroDivisionError \/ ZeroDivisionError = OverflowError \/
   ZeroDivisionError = ValueError \/ ZeroDivisionError = KeyError \/
   ZeroDivisionError = StructError).
Proof.
  assert (H : generate_song_bytes (R := MT19937_random)
                (setattr default_params (Progression ""))
              = Raise ZeroDivisionError) by (vm_compute; reflexivity).
  split; [exact H|].
  exact (generation_never_index_error (R := MT19937_random) _ _ H).
Defined.





(** X23. The tempo that is written to the file, [int(60_000_000 / bpm)],
    is the integer quotient of 60000000 by the tempo in beats per
    minute, rounded toward zero: the binary64 division loses nothing of
    it, for every tempo below [2^53] in absolute value. The tempo track
    of the file holds its three bytes, most significant first. *)
Theorem tempo_is_integer_quotient {R : PyRandom} (p : SongParams) :
  (1 <= bpm p < 2 ^ 53 -> tempo_of p = Ok (60000000 / bpm p)) /\
  (- 2 ^ 53 < bpm p <= -1 -> tempo_of p = Ok (- (60000000 / - bpm p))) /\
  (4 <= bpm p < 2 ^ 53 ->
   forall out, generate_song_bytes p = Ok out ->
   exists t1 t2 t3,
     read_file out =
       Some (1, 480,
             [[0; 255; 81; 3] ++ big_endian 3 (60000000 / bpm p)
                ++ [0; 255; 47; 0]; t1; t2; t3])).
Proof.
  destruct (tempo_of_bpm p) as [Hpos Hneg].
  split; [exact Hpos|]. split; [exact Hneg|].
  intros Hb out Hout.
  apply generate_reads_back in Hout
    as (tempo & tb & chord_ev & degs & melody_ev & t1 & t2 & t3
        & Ht & Htb & _ & _ & _ & _ & _ & Hread).
  rewrite (Hpos ltac:(lia)) in Ht. injection Ht as <-.
  apply to_bytes_ok in Htb as [-> _]. exists t1, t2, t3. exact Hread.
Qed.

Lemma tempo_is_integer_quotient_witness :
  tempo_of default_params = Ok 483870 /\
  tempo_of (setattr default_params (Bpm (-7))) = Ok (-8571428) /\
  exists out t1 t2 t3,
    generate_song_bytes (R := MT19937_random) (setattr default_params (Bars 1))
      = Ok out /\
    read_file out =
      Some (1, 480, [[0; 255; 81; 3; 7; 98; 30; 0; 255; 47; 0]; t1; t2; t3]).
Proof.
  destruct (tempo_is_integer_quotient (R := MT19937_random) default_params)
    as (Hpos & _ & _).
  destruct (tempo_is_integer_quotient (R := MT19937_random)
              (setattr default_params (Bpm (-7)))) as (_ & Hneg & _).
  destruct (tempo_is_integer_quotient (R := MT19937_random)
              (setattr default_params (Bars 1))) as (_ & _ & Hfile).
  split; [apply Hpos; simpl; lia|]. split; [apply Hneg; simpl; lia|].
  destruct (is_ok_inv (generate_song_bytes (R := MT19937_random)
                         (setattr default_params (Bars 1))))
    as [out Hout]; [vm_compute; reflexivity|].
  destruct (Hfile ltac:(simpl; lia) out Hout) as (t1 & t2 & t3 & Hread).
  exists out, t1, t2, t3. split; [exact Hout|exact Hread].
Defined.

(** ** The script of [app2.py] *)

(** X24. The script of [app2.py] returns from all four [build_track] calls
    and writes a file that reads back as a format 1 header with four
    tracks at 480 ticks per quarter note: the tempo track carries
    508474 microseconds per quarter note and 4/4 time, and the chord,
    melody and drum tracks hold 96, 256 and 384 events, each the
    serializer's output for the script's list. *)
Theorem app2_script_file (fuel : nat) :
  (2 <= fuel)%nat ->
  exists chords melody d0 d1 d2 d3 bytes,
    App2.tempo = Ok 508474 /\
    App2.chords = Ok chords /\ length chords = 96%nat /\
    App2.melody = Ok melody /\ length melody = 256%nat /\
    length App2.dr = 384%nat /\
    d0 = [0; 255; 81; 3; 7; 194; 58; 0; 255; 88; 4; 4; 2; 24; 8; 0; 255; 47; 0] /\
    build_track chords = Ok d1 /\
    build_track melody = Ok d2 /\
    build_track App2.dr = Ok d3 /\
    App2.midi_file fuel = Some (Ok bytes) /\
    read_file bytes = Some (1, 480, [d0; d1; d2; d3]).
Proof.
  intros Hfuel.
  destruct App2.chords as [chords|e] eqn:Hc; [|vm_compute in Hc; discriminate].
  destruct App2.melody as [melody|e] eqn:Hm; [|vm_compute in Hm; discriminate].
  destruct App2.t0 as [t0|e] eqn:H0; [|vm_compute in H0; discriminate].
  destruct (build_track t0) as [d0|e] eqn:Hd0;
    [|vm_compute in H0; injection H0 as <-; vm_compute in Hd0; discriminate].
  destruct (build_track chords) as [d1|e] eqn:Hd1;
    [|vm_compute in Hc; injection Hc as <-; vm_compute in Hd1; discriminate].
  destruct (build_track melody) as [d2|e] eqn:Hd2;
    [|vm_compute in Hm; injection Hm as <-; vm_compute in Hd2; discriminate].
  destruct (build_track App2.dr) as [d3|e] eqn:Hd3;
    [|vm_compute in Hd3; discriminate].
  assert (B0 : App2.build_track fuel t0 = Some (Ok d0)).
  { rewrite <- Hd0. apply app2_build_track_small; [exact Hfuel|].
    vm_compute in H0. injection H0 as <-. vm_compute. reflexivity. }
  assert (B1 : App2.build_track fuel chords = Some (Ok d1)).
  { rewrite <- Hd1. apply app2_build_track_small; [exact Hfuel|].
    vm_compute in Hc. injection Hc as <-. vm_compute. reflexivity. }
  assert (B2 : App2.build_track fuel melody = Some (Ok d2)).
  { rewrite <- Hd2. apply app2_build_track_small; [exact Hfuel|].
    vm_compute in Hm. injection Hm as <-. vm_compute. reflexivity. }
  assert (B3 : App2.build_track fuel App2.dr = Some (Ok d3)).
  { rewrite <- Hd3. apply app2_build_track_small; [exact Hfuel|].
    vm_compute. reflexivity. }
  assert (Hfile : App2.midi_file fuel =
                  Some (let* c0 := App2.track_chunk d0 in
                        let* c1 := App2.track_chunk d1 in
                        let* c2 := App2.track_chunk d2 in
                        let* c3 := App2.track_chunk d3 in
                        Ok ([77; 84; 104; 100; 0; 0; 0; 6; 0; 1; 0; 4; 1; 224]
                              ++ c0 ++ c1 ++ c2 ++ c3))).
  { unfold App2.midi_file. rewrite H0, Hc, Hm.
    cbn [App2.and_then]. rewrite B0. cbn [App2.and_then].
    rewrite B1. cbn [App2.and_then]. rewrite B2. cbn [App2.and_then].
    rewrite B3. cbn [App2.and_then]. reflexivity. }
  vm_compute in H0. injection H0 as <-.
  vm_compute in Hc. injection Hc as <-.
  vm_compute in Hm. injection Hm as <-.
  vm_compute in Hd0. injection Hd0 as <-.
  vm_compute in Hd1. injection Hd1 as <-.
  vm_compute in Hd2. injection Hd2 as <-.
  vm_compute in Hd3. injection Hd3 as <-.
  eexists _, _, _, _, _, _, _.
  split; [vm_compute; reflexivity|].
  split; [reflexivity|]. split; [reflexivity|].
  split; [reflexivity|]. split; [reflexivity|].
  split; [vm_compute; reflexivity|].
  split; [reflexivity|].
  split; [reflexivity|]. split; [reflexivity|]. split; [reflexivity|].
  split; [rewrite Hfile; vm_compute; reflexivity|].
  vm_compute. reflexivity.
Qed.

Lemma app2_script_file_witness :
  exists bytes tracks,
    App2.midi_file 2 = Some (Ok bytes) /\
    read_file bytes = Some (1, 480, tracks) /\ length tracks = 4%nat.
Proof.
  destruct (app2_script_file 2 ltac:(lia))
    as (c & m & d0 & d1 & d2 & d3 & bytes & _ & _ & _ & _ & _ & _ & _ & _ & _ & _ & Hf & Hr).
  exists bytes, [d0; d1; d2; d3]. repeat split; assumption.
Defined.
